(** * Radar-to-lidar calibration: a shallow embedding of [calibrate.py]

    The program estimates the yaw between a scanning radar and a lidar by
    rasterising the lidar point cloud into occupancy images, registering
    them against the radar images by phase correlation and aggregating the
    per-frame estimates.

    Number model.  The program computes on numpy floating-point numbers.
    Here a finite float is a real number ([R]) and the arithmetic is exact;
    the two values a float division by zero produces ([inf], [nan]) are kept
    apart, because the program's control flow depends on them.  Python
    integers are [Z]; array indices are [nat] once they are known to be in
    range.  A [3 x N] point cloud is the list of its [N] columns; a 2-D
    array is the list of its rows. *)

From Stdlib Require Import Reals Lra Lia ZArith List Bool Arith.
Import ListNotations.
Local Open Scope R_scope.

(** ** Python exceptions and results *)

(** The diagnostic text of the assertion in [get_closest_frame]:
    ["closest time to query: {} in rostimes not found."] formatted with the
    query time. *)
Inductive message : Type :=
| closest_time_not_found (query_time : R).

Inductive exn : Type :=
| NameError
| IndexError
| ValueError
| OverflowError
| AssertionError (msg : message).

Inductive result (A : Type) : Type :=
| Ok (a : A)
| Raise (e : exn).
Arguments Ok {A} a.
Arguments Raise {A} e.

Definition bind {A B : Type} (r : result A) (k : A -> result B) : result B :=
  match r with
  | Ok a => k a
  | Raise e => Raise e
  end.

Notation "x <- r ;; k" := (bind r (fun x => k))
  (at level 61, r at next level, right associativity).

(** ** Floats *)

Definition Rltb (a b : R) : bool := if Rlt_dec a b then true else false.
Definition Reqb (a b : R) : bool := if Req_dec_T a b then true else false.

(** The value of a numpy scalar: a finite number, an infinity (with its
    sign) or a NaN. *)
Inductive npfloat : Type :=
| Finite (r : R)
| Inf (negative : bool)
| NaN.

(** [a / b] on numpy scalars: a zero divisor gives [nan] (for [0 / 0]) or an
    infinity of the sign of [a] (the divisor taken as [+0.0]), with a warning
    and no exception. *)
Definition np_divide (a b : R) : npfloat :=
  if Reqb b 0 then (if Reqb a 0 then NaN else Inf (Rltb a 0))
  else Finite (a / b).

(** Truncation toward zero of a real number. *)
Definition Rtrunc (r : R) : Z :=
  if Rltb r 0 then (- Int_part (- r))%Z else Int_part r.

(** Python's [int(v)] on a float. *)
Definition py_int (v : npfloat) : result Z :=
  match v with
  | Finite r => Ok (Rtrunc r)
  | Inf _ => Raise OverflowError
  | NaN => Raise ValueError
  end.

(** ** Arrays *)

Definition grid (A : Type) : Type := list (list A).
Definition image : Type := grid R.
Definition matrix : Type := grid R.

Definition nrows {A : Type} (g : grid A) : nat := length g.
Definition ncols {A : Type} (g : grid A) : nat := length (hd [] g).

(** [g[i, j]]; [d] outside the array. *)
Definition at2 {A : Type} (d : A) (g : grid A) (i j : nat) : A :=
  nth j (nth i g []) d.

Definition pixel (g : image) (i j : nat) : R := at2 0 g i j.

Fixpoint set_nth {A : Type} (i : nat) (v : A) (l : list A) : list A :=
  match l, i with
  | [], _ => []
  | _ :: t, O => v :: t
  | h :: t, S i' => h :: set_nth i' v t
  end.

(** [g[i, j] = v] for an index inside the array. *)
Fixpoint set2 {A : Type} (i j : nat) (v : A) (g : grid A) : grid A :=
  match g, i with
  | [], _ => []
  | row :: t, O => set_nth j v row :: t
  | row :: t, S i' => row :: set2 i' j v t
  end.

(** [np.zeros((rows, cols))]; a negative dimension is a [ValueError]. *)
Definition np_zeros (rows cols : Z) : result image :=
  if ((rows <? 0) || (cols <? 0))%Z then Raise ValueError
  else Ok (repeat (repeat 0 (Z.to_nat cols)) (Z.to_nat rows)).

(** [np.flip(a, axis=0)] *)
Definition np_flip0 {A : Type} (g : grid A) : grid A := rev g.

(** The shape of an array of [n] rows and [m] columns. *)
Definition has_shape {A : Type} (n m : nat) (g : grid A) : Prop :=
  length g = n /\ forall k, (k < n)%nat -> length (nth k g []) = m.

(** [np.identity(n)] *)
Definition np_identity (n : nat) : matrix :=
  map (fun i => map (fun j => if Nat.eqb i j then 1 else 0) (seq 0 n)) (seq 0 n).

(** [m[r0:r0+h, c0:c0+w] = block] for a block of [h] rows and [w] columns
    that fits in [m]. *)
Definition set_block (r0 c0 : nat) (block m : matrix) : matrix :=
  map (fun i =>
         map (fun j =>
                if (r0 <=? i)%nat && (i <? r0 + nrows block)%nat
                   && (c0 <=? j)%nat && (j <? c0 + ncols block)%nat
                then at2 0 block (i - r0) (j - c0)
                else at2 0 m i j)
             (seq 0 (ncols m)))
      (seq 0 (nrows m)).

Definition column {A : Type} (d : A) (g : grid A) (j : nat) : list A :=
  map (fun row => nth j row d) g.

Definition transpose (m : matrix) : matrix :=
  map (column 0 m) (seq 0 (ncols m)).

Fixpoint dot (u v : list R) : R :=
  match u, v with
  | a :: u', b :: v' => a * b + dot u' v'
  | _, _ => 0
  end.

(** [np.matmul(a, b)] *)
Definition matmul (a b : matrix) : matrix :=
  map (fun row => map (fun j => dot row (column 0 b j)) (seq 0 (ncols b))) a.

(** ** [get_rotation] *)

(** [R = np.identity(3); R[0:2, 0:2] = [[cos, sin], [-sin, cos]]; return R] *)
Definition get_rotation (theta : R) : matrix :=
  set_block 0 0
    [[cos theta; sin theta]; [- sin theta; cos theta]]
    (np_identity 3).

(** ** Point clouds and loops *)

(** One column of a [3 x N] array: [pc[0, i]], [pc[1, i]], [pc[2, i]]. *)
Definition point : Type := (R * R * R)%type.
Definition cloud : Type := list point.

(** A [for] loop over [l] that threads the state [s]; an exception raised
    by the body ends it. *)
Fixpoint for_each {A S : Type} (body : A -> S -> result S) (l : list A) (s : S)
  : result S :=
  match l with
  | [] => Ok s
  | a :: t => s' <- body a s ;; for_each body t s'
  end.

(** The height filter of both rasterisers:
    [pc[2, i] < -0 or pc[2, i] > 0.5]. *)
Definition out_of_band (z : R) : bool := Rltb z (- 0) || Rltb 0.5 z.

(** A point the height filter keeps. *)
Definition in_band (p : point) : bool := negb (out_of_band (snd p)).

(** [0 < i and i < n and 0 < j and j < m] *)
Definition strictly_inside (i n j m : Z) : bool :=
  ((0 <? i) && (i <? n) && (0 <? j) && (j <? m))%Z.

(** ** [lidar_to_cartesian_image] *)

Definition cart_min_range (cart_pixel_width : Z) (cart_resolution : R) : R :=
  if (cart_pixel_width mod 2 =? 0)%Z
  then (IZR cart_pixel_width / 2 - 0.5) * cart_resolution
  else IZR (cart_pixel_width / 2) * cart_resolution.

(** The loop body, for the column [p] of [pc]. *)
Definition cartesian_step (cart_pixel_width : Z) (cart_resolution : R)
    (p : point) (cart_img : image) : result image :=
  let '(p0, p1, p2) := p in
  if out_of_band p2 then Ok cart_img
  else
    u <- py_int (np_divide
                   (cart_min_range cart_pixel_width cart_resolution - p1)
                   cart_resolution) ;;
    v <- py_int (np_divide
                   (cart_min_range cart_pixel_width cart_resolution - p0)
                   cart_resolution) ;;
    if strictly_inside u cart_pixel_width v cart_pixel_width
    then Ok (set2 (Z.to_nat v) (Z.to_nat u) 255 cart_img)
    else Ok cart_img.

Definition lidar_to_cartesian_image (pc : cloud) (cart_pixel_width : Z)
    (cart_resolution : R) : result image :=
  cart_img <- np_zeros cart_pixel_width cart_pixel_width ;;
  for_each (cartesian_step cart_pixel_width cart_resolution) pc cart_img.

(** ** [lidar_to_polar_image] *)

(** [np.arctan2(y, x)] on finite arguments, with values in [(-pi, pi]]. *)
Definition np_arctan2 (y x : R) : R :=
  if Rltb 0 x then atan (y / x)
  else if Rltb x 0 then (if Rltb y 0 then atan (y / x) - PI else atan (y / x) + PI)
  else if Rltb 0 y then PI / 2
  else if Rltb y 0 then - (PI / 2)
  else 0.

(** [int(r / range_resolution)] with [r = np.sqrt(x0**2 + x1**2)] *)
Definition polar_range_bin (x0 x1 range_resolution : R) : result Z :=
  let r := sqrt (x0 ^ 2 + x1 ^ 2) in
  py_int (np_divide r range_resolution).

(** [int(theta / azimuth_resolution)] with [theta = np.arctan2(x1, x0)]
    moved into [[0, 2 pi)]. *)
Definition polar_azimuth_bin (x0 x1 azimuth_resolution : R) : result Z :=
  let theta := np_arctan2 x1 x0 in
  let theta := if Rltb theta 0 then theta + 2 * PI else theta in
  py_int (np_divide theta azimuth_resolution).

(** The loop body at index [i].  The body reads the module-level variable
    [x] ([None] when the name is unbound), not the parameter [pc]. *)
Definition polar_step (x : option cloud) (range_resolution azimuth_resolution : R)
    (range_bins azimuth_bins : Z) (i : nat) (polar : image) : result image :=
  match x with
  | None => Raise NameError
  | Some xs =>
    match nth_error xs i with
    | None => Raise IndexError
    | Some (x0, x1, x2) =>
      if out_of_band x2 then Ok polar
      else
        range_bin <- polar_range_bin x0 x1 range_resolution ;;
        azimuth_bin <- polar_azimuth_bin x0 x1 azimuth_resolution ;;
        if strictly_inside range_bin range_bins azimuth_bin azimuth_bins
        then Ok (set2 (Z.to_nat azimuth_bin) (Z.to_nat range_bin) 255 polar)
        else Ok polar
    end
  end.

(** The array [polar] when the loop ends, before the flip. *)
Definition polar_fill (x : option cloud) (pc : cloud)
    (range_resolution azimuth_resolution : R) (range_bins azimuth_bins : Z)
  : result image :=
  polar <- np_zeros azimuth_bins range_bins ;;
  for_each (polar_step x range_resolution azimuth_resolution range_bins azimuth_bins)
           (seq 0 (length pc)) polar.

(** [x] is the module-level variable of that name; [pc] is the parameter. *)
Definition lidar_to_polar_image (x : option cloud) (pc : cloud)
    (range_resolution azimuth_resolution : R) (range_bins azimuth_bins : Z)
  : result image :=
  polar <- polar_fill x pc range_resolution azimuth_resolution
                      range_bins azimuth_bins ;;
  Ok (np_flip0 polar).

(** ** [get_closest_frame] *)

(** The first index of a minimum of [v :: t], scanning [t] from index [i]
    with the best index and value so far. *)
Fixpoint argmin_from (t : list R) (i best : nat) (best_val : R) : nat :=
  match t with
  | [] => best
  | v :: t' =>
    if Rltb v best_val then argmin_from t' (S i) i v
    else argmin_from t' (S i) best best_val
  end.

(** [np.argmin(a)]: the first index of the minimum; a [ValueError] on an
    empty array. *)
Definition np_argmin (a : list R) : result nat :=
  match a with
  | [] => Raise ValueError
  | v :: t => Ok (argmin_from t 1 0 v)
  end.

(** [l[i]] for an index [i >= 0]. *)
Definition getitem {T : Type} (l : list T) (i : nat) : result T :=
  match nth_error l i with
  | Some t => Ok t
  | None => Raise IndexError
  end.

Definition get_closest_frame {T : Type} (query_time : R) (target_times : list R)
    (targets : list T) : result T :=
  closest <- np_argmin (map (fun t => Rabs (t - query_time)) target_times) ;;
  time <- getitem target_times closest ;;
  if Rltb (Rabs (query_time - time)) 1.0
  then getitem targets closest
  else Raise (AssertionError (closest_time_not_found query_time)).

(** ** Rotation folding and aggregation (the main program) *)

(** [if rotation > np.pi: rotation = 2 * np.pi - rotation] *)
Definition fold_rotation (rotation : R) : R :=
  if Rltb PI rotation then 2 * PI - rotation else rotation.

(** [rotation = rotation_index * azimuth_step], then folded. *)
Definition rotation_of_index (rotation_index : nat) (azimuth_step : R) : R :=
  fold_rotation (INR rotation_index * azimuth_step).

Definition Rsum (l : list R) : R := fold_right Rplus 0 l.

(** [np.mean(a)]; [nan] on an empty array. *)
Definition np_mean (a : list R) : npfloat :=
  match a with
  | [] => NaN
  | _ => Finite (Rsum a / INR (length a))
  end.

Definition mean (a : list R) : R := Rsum a / INR (length a).

(** [a.std()]: the square root of the mean squared deviation. *)
Definition np_std (a : list R) : R :=
  sqrt (mean (map (fun v => Rabs (v - mean a) ^ 2) a)).

(** [rotations[np.abs(rotations - centre) < 3 * rotations.std()]] *)
Definition within_3_sigma (centre : R) (rotations : list R) : list R :=
  filter (fun r => Rltb (Rabs (r - centre)) (3 * np_std rotations)) rotations.

(** Line 191:
    [np.mean(rotations[np.abs(rotations - rotation.mean()) < 3 * rotations.std()])].
    [rotation] is the variable the frame loop assigned last, the estimate of
    the last frame, and [rotation.mean()] of that scalar is the scalar; the
    name is unbound when there was no frame. *)
Definition aggregate_rotations (rotations : list R) : result npfloat :=
  match rev rotations with
  | [] => Raise NameError
  | rotation :: _ => Ok (np_mean (within_3_sigma rotation rotations))
  end.

(** The aggregation the specification describes: the mean of the samples
    within 3 standard deviations of the mean of all samples. *)
Definition clipped_mean_spec (rotations : list R) : npfloat :=
  np_mean (within_3_sigma (mean rotations) rotations).

(** ** Complex numbers and the discrete Fourier transform *)

Definition C : Type := (R * R)%type.
Definition C0 : C := (0, 0).
Definition C1 : C := (1, 0).
Definition RtoC (r : R) : C := (r, 0).
Definition Cadd (a b : C) : C := (fst a + fst b, snd a + snd b).
Definition Copp (a : C) : C := (- fst a, - snd a).
Definition Csub (a b : C) : C := (fst a - fst b, snd a - snd b).
Definition Cmul (a b : C) : C :=
  (fst a * fst b - snd a * snd b, fst a * snd b + snd a * fst b).
Definition Cscale (r : R) (a : C) : C := (r * fst a, r * snd a).
Definition Cconj (a : C) : C := (fst a, - snd a).
Definition Cabs (a : C) : R := sqrt (fst a * fst a + snd a * snd a).

(** [exp(i t)] *)
Definition cis (t : R) : C := (cos t, sin t).

(** [exp(sgn * 2 pi i j / N)] *)
Definition twiddle (sgn : R) (N j : nat) : C :=
  cis (sgn * (2 * PI * INR j / INR N)).

Fixpoint Csum_n (f : nat -> C) (n : nat) : C :=
  match n with
  | O => C0
  | S n' => Cadd (Csum_n f n') (f n')
  end.

(** [z ** n] *)
Fixpoint Cpow (z : C) (n : nat) : C :=
  match n with
  | O => C1
  | S n' => Cmul z (Cpow z n')
  end.

(** The 2-D transform with kernel [exp(sgn 2 pi i (k m / M + l n / N))],
    without normalisation. *)
Definition dft2 (sgn : R) (a : grid C) : grid C :=
  let M := nrows a in
  let N := ncols a in
  map (fun k =>
         map (fun l =>
                Csum_n (fun m =>
                  Csum_n (fun n =>
                    Cmul (at2 C0 a m n)
                         (Cmul (twiddle sgn M (k * m)) (twiddle sgn N (l * n))))
                    N)
                  M)
             (seq 0 N))
      (seq 0 M).

(** A complex bin: a finite value, or [nan + nan j]. *)
Inductive npcomplex : Type :=
| CFinite (z : C)
| CNaN.

Definition is_cfinite (z : npcomplex) : bool :=
  match z with CFinite _ => true | CNaN => false end.

Definition cvalue (z : npcomplex) : C :=
  match z with CFinite c => c | CNaN => C0 end.

(** [np.fft.fft2(a)] of a real image. *)
Definition np_fft2 (a : image) : grid C := dft2 (- 1) (map (map RtoC) a).

(** [np.fft.ifft2(p)]: every output bin sums all input bins, so one NaN
    makes all of them NaN. *)
Definition np_ifft2 (p : grid npcomplex) : grid npcomplex :=
  if forallb (forallb is_cfinite) p
  then map (map (fun z => CFinite (Cscale (/ (INR (nrows p) * INR (ncols p))) z)))
           (dft2 1 (map (map cvalue) p))
  else map (map (fun _ => CNaN)) p.

(** [abs(z)] *)
Definition np_abs (z : npcomplex) : npfloat :=
  match z with
  | CFinite c => Finite (Cabs c)
  | CNaN => NaN
  end.

(** One bin of [p / abs(p)]: nothing guards the division, and [0 / 0] is
    NaN. *)
Definition normalize_bin (p : C) : npcomplex :=
  if Reqb (Cabs p) 0 then CNaN else CFinite (Cscale (/ Cabs p) p).

Fixpoint zip_with {A B D : Type} (f : A -> B -> D) (a : list A) (b : list B)
  : list D :=
  match a, b with
  | x :: a', y :: b' => f x y :: zip_with f a' b'
  | _, _ => []
  end.

(** [np.maximum] of two scalars: NaN wins. *)
Definition np_maximum (a b : npfloat) : npfloat :=
  match a, b with
  | NaN, _ | _, NaN => NaN
  | Inf false, _ | _, Inf false => Inf false
  | Inf true, y => y
  | x, Inf true => x
  | Finite x, Finite y => Finite (Rmax x y)
  end.

(** [np.amax(p)] of a non-empty array. *)
Definition np_amax (p : grid npfloat) : npfloat :=
  match concat p with
  | [] => NaN
  | v :: t => fold_left np_maximum t v
  end.

(** [a == b] on scalars: false as soon as one is NaN. *)
Definition npfloat_eqb (a b : npfloat) : bool :=
  match a, b with
  | Finite x, Finite y => Reqb x y
  | Inf s, Inf s' => Bool.eqb s s'
  | _, _ => false
  end.

(** [np.where(p == v)]: the positions that hold, in row-major order. *)
Definition np_where_eq (p : grid npfloat) (v : npfloat) : list (nat * nat) :=
  flat_map (fun i =>
              map (fun j => (i, j))
                  (filter (fun j => npfloat_eqb (at2 NaN p i j) v)
                          (seq 0 (length (nth i p [])))))
           (seq 0 (length p)).

(** ** Phase correlation (the frame loop of the main program) *)

(** [p = f2 * f1.conjugate()] with [f1 = fft2(img1)], [f2 = fft2(img2)]. *)
Definition cross_power (img1 img2 : image) : grid C :=
  let f1 := np_fft2 img1 in
  let f2 := np_fft2 img2 in
  zip_with (zip_with (fun b a => Cmul b (Cconj a))) f2 f1.

(** Lines 149-154 and 172-177: the correlation surface of two images,
    [abs(ifft2(p / abs(p)))].  The two images have one shape in the program.
    An empty array is refused by the transform.  Two different shapes are
    refused here as by the elementwise product; shapes that numpy would
    broadcast instead (an axis of length 1) are not modelled. *)
Definition correlation_surface (img1 img2 : image) : result (grid npfloat) :=
  if (nrows img1 =? 0)%nat || (ncols img1 =? 0)%nat
     || negb (nrows img1 =? nrows img2)%nat || negb (ncols img1 =? ncols img2)%nat
  then Raise ValueError
  else
    let p := cross_power img1 img2 in
    let p := map (map normalize_bin) p in
    let p := np_ifft2 p in
    Ok (map (map np_abs) p).

(** [np.where(p == np.amax(p))], then its first position:
    [[0][0]] is the row and [[1][0]] the column; an [IndexError] when no
    position holds. *)
Definition first_peak (p : grid npfloat) : result (nat * nat) :=
  match np_where_eq p (np_amax p) with
  | [] => Raise IndexError
  | ij :: _ => Ok ij
  end.

(** Lines 149-158: the rotation estimate of one frame. *)
Definition estimate_rotation (polar polar_lidar : image) (azimuth_step : R)
  : result R :=
  p <- correlation_surface polar polar_lidar ;;
  peak <- first_peak p ;;
  Ok (rotation_of_index (fst peak) azimuth_step).

(** [if delta > cart_width2 / 2: delta -= cart_width2] *)
Definition fold_shift (delta : nat) (cart_width2 : Z) : Z :=
  if Rltb (IZR cart_width2 / 2) (INR delta)
  then (Z.of_nat delta - cart_width2)%Z
  else Z.of_nat delta.

(** Lines 172-185: the translation estimate of one frame,
    [(delta_x, delta_y)]. *)
Definition estimate_translation (cart1 cart2 : image) (cart_width2 : Z)
    (cart_res2 : R) : result (R * R) :=
  p <- correlation_surface cart1 cart2 ;;
  peak <- first_peak p ;;
  Ok (IZR (fold_shift (fst peak) cart_width2) * cart_res2,
      IZR (fold_shift (snd peak) cart_width2) * cart_res2).

(** The circular shift of an image, the input of the registration
    property ([np.roll(a, (s_row, s_col), axis=(0, 1))]):
    [shifted[m, n] = a[(m - s_row) mod M, (n - s_col) mod N]]. *)
Definition circular_shift (s_row s_col : nat) (a : image) : image :=
  let M := nrows a in
  let N := ncols a in
  map (fun m =>
         map (fun n => pixel a ((m + (M - s_row mod M)) mod M)
                               ((n + (N - s_col mod N)) mod N))
             (seq 0 N))
      (seq 0 M).

(** The unit impulse at [(s, t)] on an [M x N] grid. *)
Definition impulse (M N s t : nat) : grid npfloat :=
  map (fun m =>
         map (fun n => Finite (if ((m =? s) && (n =? t))%nat then 1 else 0))
             (seq 0 N))
      (seq 0 M).

(** ** Inputs of the worked examples *)

(** Eight frames with peak indices 0, 100 (six times) and 200 at the
    azimuth step [pi / 400]. *)
Definition clipping_frames : list R :=
  [0; PI / 4; PI / 4; PI / 4; PI / 4; PI / 4; PI / 4; PI / 2].

(** A 10 x 10 occupancy image with one detection, at row 1, column 1. *)
Definition one_detection : image := set2 1 1 255 (repeat (repeat 0 10%nat) 10%nat).

(** A 10 x 10 occupancy image with two detections in row 1, five columns
    apart. *)
Definition two_detections : image :=
  set2 1 6 255 (set2 1 1 255 (repeat (repeat 0 10%nat) 10%nat)).

(** ** The rest of the program *)

(** *** [targets_to_polar_image] *)

(** An integer index [i] along an axis of length [n], as numpy reads it:
    [-n <= i < 0] counts from the end, anything outside [[-n, n)] is an
    [IndexError]. *)
Definition np_index (n : nat) (i : Z) : result nat :=
  if ((0 <=? i) && (i <? Z.of_nat n))%Z then Ok (Z.to_nat i)
  else if ((- Z.of_nat n <=? i) && (i <? 0))%Z then Ok (Z.to_nat (i + Z.of_nat n))
  else Raise IndexError.

(** The loop body: [polar[targets[i, 0], targets[i, 1]] = 255]. *)
Definition targets_step (target : Z * Z) (polar : image) : result image :=
  i <- np_index (nrows polar) (fst target) ;;
  j <- np_index (ncols polar) (snd target) ;;
  Ok (set2 i j 255 polar).

(** [targets] is the list of the rows of the [N x 2] integer array. *)
Definition targets_to_polar_image (targets : list (Z * Z)) (shape : Z * Z)
  : result image :=
  polar <- np_zeros (fst shape) (snd shape) ;;
  for_each targets_step targets polar.

(** *** Rotating the lidar scan (lines 161-166 and 228-229) *)

(** [np.squeeze(np.matmul(R, x[:, j].reshape(3, 1)))] for a matrix [R] of
    3 rows. *)
Definition rotate_column (R : matrix) (p : point) : point :=
  let '(p0, p1, p2) := p in
  let col := matmul R [[p0]; [p1]; [p2]] in
  (at2 0 col 0 0, at2 0 col 1 0, at2 0 col 2 0).

(** [for j in range(0, x.shape[1]): x[:, j] = ...]: every column is replaced
    by its image; [xprime] is the same array as [x]. *)
Definition rotate_cloud (R : matrix) (x : cloud) : cloud :=
  map (rotate_column R) x.

(** [x[0, ...] = x[0, ...] + x_offset; x[1, ...] = x[1, ...] + y_offset] *)
Definition offset_cloud (x_offset y_offset : R) (x : cloud) : cloud :=
  map (fun p => let '(p0, p1, p2) := p in (p0 + x_offset, p1 + y_offset, p2)) x.

(** *** The overlay of the two cartesian images (lines 231-244) *)

(** Truth of a number, as [np.logical_or], [np.logical_and] and
    [np.logical_not] read it. *)
Definition truthy (v : R) : bool := negb (Reqb v 0).

(** [b * 255] for a boolean [b]. *)
Definition times_255 (b : bool) : R := if b then 255 else 0.

(** One pixel of [rgb] in light mode, from the pixel [lidar] of
    [cart_lidar2] and the pixel [radar] of [cart]. *)
Definition overlay_light (lidar radar : R) : R * R * R :=
  let mask := times_255 (negb (Reqb lidar 255)) in
  let rgb1 := mask in
  let rgb2 := mask in
  let mask2 := times_255 (negb (Reqb radar 255)) in
  let rgb0 := times_255 (truthy lidar || truthy mask2) in
  let rgb1 := times_255 (truthy rgb1 && truthy mask2) in
  let rgb2 := times_255 (truthy rgb2 || truthy radar) in
  (rgb0, rgb1, rgb2).

(** One pixel of [rgb] in the default mode, for pixels that are 0 or 255
    (the cast to [uint8] leaves them as they are). *)
Definition overlay_dark (lidar radar : R) : R * R * R := (lidar, radar, 0).

(** [cart = np.where(cart > 0, 255, 0)] on one pixel. *)
Definition binarize (v : R) : R := if Rltb 0 v then 255 else 0.

(** *** One iteration of a rasterising loop *)

(** What an iteration does to the image: nothing, or one cell set to 255. *)
Definition paint (cell : option (nat * nat)) (img : image) : image :=
  match cell with
  | Some (i, j) => set2 i j 255 img
  | None => img
  end.

(** The cell the cartesian loop writes for the column [p], if any. *)
Definition cartesian_cell (cart_pixel_width : Z) (cart_resolution : R) (p : point)
  : result (option (nat * nat)) :=
  let '(p0, p1, p2) := p in
  if out_of_band p2 then Ok None
  else
    u <- py_int (np_divide
                   (cart_min_range cart_pixel_width cart_resolution - p1)
                   cart_resolution) ;;
    v <- py_int (np_divide
                   (cart_min_range cart_pixel_width cart_resolution - p0)
                   cart_resolution) ;;
    Ok (if strictly_inside u cart_pixel_width v cart_pixel_width
        then Some (Z.to_nat v, Z.to_nat u) else None).

(** The cell the polar loop writes at index [i], if any, before the flip. *)
Definition polar_cell (x : option cloud) (range_resolution azimuth_resolution : R)
    (range_bins azimuth_bins : Z) (i : nat) : result (option (nat * nat)) :=
  match x with
  | None => Raise NameError
  | Some xs =>
    match nth_error xs i with
    | None => Raise IndexError
    | Some (x0, x1, x2) =>
      if out_of_band x2 then Ok None
      else
        range_bin <- polar_range_bin x0 x1 range_resolution ;;
        azimuth_bin <- polar_azimuth_bin x0 x1 azimuth_resolution ;;
        Ok (if strictly_inside range_bin range_bins azimuth_bin azimuth_bins
            then Some (Z.to_nat azimuth_bin, Z.to_nat range_bin) else None)
    end
  end.

(** * Properties *)

(** ** The yaw rotation matrix *)

Lemma get_rotation_entries (theta : R) :
  get_rotation theta =
  [[cos theta; sin theta; 0]; [- sin theta; cos theta; 0]; [0; 0; 1]].
Proof. reflexivity. Qed.

Lemma cos2_sin2_one (theta : R) :
  cos theta * cos theta + sin theta * sin theta = 1.
Proof.
  generalize (sin2_cos2 theta). unfold Rsqr. lra.
Qed.

Example np_identity_3 : np_identity 3 = [[1; 0; 0]; [0; 1; 0]; [0; 0; 1]].
Proof. reflexivity. Qed.

(** C8: for every angle, [get_rotation theta] is the 3 x 3 identity with its
    top-left 2 x 2 block replaced by [[cos, sin], [-sin, cos]]; it is
    orthogonal (its transpose times itself is the identity, and so is the
    product in the other order); and [get_rotation 0] is the identity. *)
Theorem get_rotation_orthogonal :
  forall theta : R,
    get_rotation theta
    = [[cos theta; sin theta; 0]; [- sin theta; cos theta; 0]; [0; 0; 1]]
    /\ (forall i j : nat,
           pixel (get_rotation theta) i j =
           if ((i <? 2) && (j <? 2))%nat
           then pixel [[cos theta; sin theta]; [- sin theta; cos theta]] i j
           else pixel (np_identity 3) i j)
    /\ matmul (transpose (get_rotation theta)) (get_rotation theta) = np_identity 3
    /\ matmul (get_rotation theta) (transpose (get_rotation theta)) = np_identity 3
    /\ get_rotation 0 = np_identity 3.
Proof.
  intro theta. pose proof (cos2_sin2_one theta) as Hcs.
  split; [apply get_rotation_entries|].
  split.
  { intros i j. rewrite get_rotation_entries.
    destruct i as [|[|[|i]]]; destruct j as [|[|[|j]]]; try reflexivity.
    all: unfold pixel, at2; simpl; destruct j; reflexivity. }
  rewrite get_rotation_entries.
  split; [|split].
  - unfold matmul, transpose, column, np_identity; simpl.
    repeat (f_equal; try lra).
  - unfold matmul, transpose, column, np_identity; simpl.
    repeat (f_equal; try lra).
  - rewrite get_rotation_entries, cos_0, sin_0. unfold np_identity; simpl.
    repeat (f_equal; try lra).
Qed.

(** ** Comparisons, division and truncation *)

Lemma Rltb_true (a b : R) : a < b -> Rltb a b = true.
Proof. intro H. unfold Rltb. destruct (Rlt_dec a b); [reflexivity | contradiction]. Qed.

Lemma Rltb_false (a b : R) : b <= a -> Rltb a b = false.
Proof. intro H. unfold Rltb. destruct (Rlt_dec a b); [lra | reflexivity]. Qed.

Lemma Rltb_spec (a b : R) : Rltb a b = true <-> a < b.
Proof.
  unfold Rltb. destruct (Rlt_dec a b); split; intro H; try assumption;
    try reflexivity; try discriminate; contradiction.
Qed.

Lemma Reqb_true (a b : R) : a = b -> Reqb a b = true.
Proof. intro H. unfold Reqb. destruct (Req_dec_T a b); [reflexivity | contradiction]. Qed.

Lemma Reqb_false (a b : R) : a <> b -> Reqb a b = false.
Proof. intro H. unfold Reqb. destruct (Req_dec_T a b); [contradiction | reflexivity]. Qed.

Lemma Reqb_spec (a b : R) : Reqb a b = true <-> a = b.
Proof.
  unfold Reqb. destruct (Req_dec_T a b); split; intro H; try assumption;
    try reflexivity; try discriminate; contradiction.
Qed.

Lemma np_divide_finite (a b : R) : b <> 0 -> np_divide a b = Finite (a / b).
Proof. intro H. unfold np_divide. rewrite Reqb_false by assumption. reflexivity. Qed.

Lemma Rtrunc_nonneg (r : R) (z : Z) :
  0 <= r -> IZR z <= r < IZR z + 1 -> Rtrunc r = z.
Proof.
  intros H0 [Hl Hu]. unfold Rtrunc. rewrite Rltb_false by assumption.
  symmetry. apply Int_part_spec. lra.
Qed.

Lemma out_of_band_spec (z : R) :
  out_of_band z = true <-> z < 0 \/ 0.5 < z.
Proof.
  unfold out_of_band. rewrite orb_true_iff, !Rltb_spec. rewrite Ropp_0. tauto.
Qed.

Lemma in_band_spec (z : R) :
  out_of_band z = false <-> 0 <= z <= 0.5.
Proof.
  split; intro H.
  - destruct (Rlt_dec z 0) as [Hz|Hz].
    + assert (out_of_band z = true) by (apply out_of_band_spec; lra). congruence.
    + destruct (Rlt_dec 0.5 z) as [Hz'|Hz'].
      * assert (out_of_band z = true) by (apply out_of_band_spec; lra). congruence.
      * lra.
  - destruct (out_of_band z) eqn:E; [|reflexivity].
    apply out_of_band_spec in E. lra.
Qed.

(** ** The cartesian rasteriser on the specification's scenario *)

Lemma cartesian_scenario_value :
  lidar_to_cartesian_image [(1.0, 0.0, 0.0)] 10 0.5
  = Ok (set2 2 4 255 (repeat (repeat 0 10%nat) 10%nat)).
Proof.
  unfold lidar_to_cartesian_image. cbn [np_zeros Z.ltb Z.compare orb bind for_each].
  unfold cartesian_step.
  assert (Hband : out_of_band 0.0 = false) by (apply in_band_spec; lra).
  rewrite Hband.
  assert (Hmin : cart_min_range 10 0.5 = 2.25).
  { unfold cart_min_range. cbn [Z.modulo Z.eqb]. simpl. lra. }
  rewrite Hmin.
  rewrite !np_divide_finite by lra. cbn [py_int bind].
  rewrite (Rtrunc_nonneg ((2.25 - 0.0) / 0.5) 4) by lra.
  rewrite (Rtrunc_nonneg ((2.25 - 1.0) / 0.5) 2) by lra.
  reflexivity.
Qed.

(** C2, as stated, fails: in the scenario the cell at row 4, column 2 stays
    0.  The row index comes from the first coordinate and the column index
    from the second, so the cell that is lit is row 2, column 4. *)
Lemma cartesian_scenario_not_row4_col2 :
  exists img : image,
    lidar_to_cartesian_image [(1.0, 0.0, 0.0)] 10 0.5 = Ok img
    /\ pixel img 4 2 = 0
    /\ pixel img 2 4 = 255
    /\ pixel img 4 2 <> 255.
Proof.
  eexists. split; [apply cartesian_scenario_value|].
  unfold pixel, at2. simpl. repeat split; lra.
Qed.

(** C2, amended: rasterising the single point (1.0, 0.0, 0.0) at resolution
    0.5 and pixel width 10 gives a 10 x 10 image whose only nonzero cell is
    255 at row 2, column 4: the row is [int((2.25 - 1.0) / 0.5) = 2] and the
    column is [int((2.25 - 0.0) / 0.5) = 4]. *)
Theorem cartesian_scenario_row2_col4 :
  exists img : image,
    lidar_to_cartesian_image [(1.0, 0.0, 0.0)] 10 0.5 = Ok img
    /\ nrows img = 10%nat
    /\ (forall row, In row img -> length row = 10%nat)
    /\ cart_min_range 10 0.5 = 2.25
    /\ Rtrunc ((2.25 - 1.0) / 0.5) = 2%Z
    /\ Rtrunc ((2.25 - 0.0) / 0.5) = 4%Z
    /\ forall i j : nat,
        pixel img i j = if ((i =? 2) && (j =? 4))%nat then 255 else 0.
Proof.
  eexists. split; [apply cartesian_scenario_value|].
  split; [reflexivity|].
  split.
  { intros row Hin. simpl in Hin.
    repeat (destruct Hin as [<-|Hin]; [reflexivity|]). contradiction. }
  split.
  { unfold cart_min_range. cbn [Z.modulo Z.eqb]. simpl. lra. }
  split; [apply Rtrunc_nonneg; lra|].
  split; [apply Rtrunc_nonneg; lra|].
  intros i j. unfold pixel, at2.
  do 10 (destruct i as [|i];
         [do 10 (destruct j as [|j]; [reflexivity|]); simpl; destruct j; reflexivity|]).
  simpl. destruct i; destruct j; reflexivity.
Qed.

(** ** Rotation folding *)

Lemma fold_rotation_le (rotation : R) :
  rotation <= PI -> fold_rotation rotation = rotation.
Proof. intro H. unfold fold_rotation. rewrite Rltb_false by assumption. reflexivity. Qed.

Lemma fold_rotation_gt (rotation : R) :
  PI < rotation -> fold_rotation rotation = 2 * PI - rotation.
Proof. intro H. unfold fold_rotation. rewrite Rltb_true by assumption. reflexivity. Qed.

(** C5: for a peak index [i] below the number [n] of azimuth rows and the
    step [2 pi / n], the candidate [i * step] is in [[0, 2 pi)]; the reported
    rotation is the candidate when it is at most [pi] and [2 pi - candidate]
    when it exceeds [pi]; and the reported rotation is in [(-pi, pi]]. *)
Theorem rotation_of_index_range :
  forall (n i : nat),
    (i < n)%nat ->
    let azimuth_step := 2 * PI / INR n in
    let candidate := INR i * azimuth_step in
    0 <= candidate < 2 * PI
    /\ (candidate <= PI -> rotation_of_index i azimuth_step = candidate)
    /\ (PI < candidate -> rotation_of_index i azimuth_step = 2 * PI - candidate)
    /\ - PI < rotation_of_index i azimuth_step <= PI.
Proof.
  intros n i Hlt azimuth_step candidate.
  pose proof PI_RGT_0 as Hpi.
  assert (Hn : 0 < INR n) by (apply lt_0_INR; lia).
  assert (Hi : 0 <= INR i) by apply pos_INR.
  assert (Hin : INR i < INR n) by (apply lt_INR; assumption).
  assert (Hcand : candidate = 2 * PI * (INR i / INR n)).
  { unfold candidate, azimuth_step. field. lra. }
  assert (Hq : 0 <= INR i / INR n < 1).
  { split.
    - apply Rmult_le_pos; [assumption|]. left. apply Rinv_0_lt_compat. assumption.
    - apply Rmult_lt_reg_r with (INR n); [assumption|].
      unfold Rdiv. rewrite Rmult_assoc, Rinv_l by lra. lra. }
  assert (Hrange : 0 <= candidate < 2 * PI) by (rewrite Hcand; nra).
  split; [assumption|].
  split; [apply fold_rotation_le|].
  split; [apply fold_rotation_gt|].
  unfold rotation_of_index. fold candidate.
  destruct (Rlt_dec PI candidate) as [Hgt|Hle].
  - rewrite fold_rotation_gt by assumption. lra.
  - rewrite fold_rotation_le by lra. lra.
Qed.

Lemma rotation_of_index_range_witness :
  (3 < 4)%nat
  /\ (PI < INR 3 * (2 * PI / INR 4)
      -> rotation_of_index 3 (2 * PI / INR 4) = 2 * PI - INR 3 * (2 * PI / INR 4)).
Proof.
  split; [lia|].
  apply (rotation_of_index_range 4 3). lia.
Defined.

(** ** The closest frame *)

Lemma argmin_from_spec :
  forall (t pre : list R) (i best : nat) (best_val : R),
    length pre = i -> (best < i)%nat -> nth best pre 0 = best_val ->
    (forall k, (k < i)%nat -> best_val <= nth k pre 0) ->
    (forall k, (k < best)%nat -> best_val < nth k pre 0) ->
    let j := argmin_from t i best best_val in
    (j < length (pre ++ t))%nat
    /\ (forall k, (k < length (pre ++ t))%nat ->
                  nth j (pre ++ t) 0 <= nth k (pre ++ t) 0)
    /\ (forall k, (k < j)%nat -> nth j (pre ++ t) 0 < nth k (pre ++ t) 0).
Proof.
  induction t as [|v t IH]; intros pre i best best_val Hlen Hbest Hval Hmin Hfirst.
  - simpl. rewrite app_nil_r. rewrite Hlen, Hval.
    split; [assumption|]. split; assumption.
  - simpl argmin_from.
    replace (pre ++ v :: t) with ((pre ++ [v]) ++ t)
      by (rewrite <- app_assoc; reflexivity).
    assert (Hlen' : length (pre ++ [v]) = S i)
      by (rewrite length_app; simpl; lia).
    assert (Hnth : forall k, (k < i)%nat -> nth k (pre ++ [v]) 0 = nth k pre 0)
      by (intros k Hk; apply app_nth1; lia).
    assert (Hlast : nth i (pre ++ [v]) 0 = v)
      by (rewrite app_nth2 by lia; rewrite Hlen, Nat.sub_diag; reflexivity).
    destruct (Rltb v best_val) eqn:Hcmp.
    + apply Rltb_spec in Hcmp.
      apply IH; try assumption; try lia.
      * intros k Hk. destruct (Nat.eq_dec k i) as [->|Hne].
        -- rewrite Hlast. lra.
        -- rewrite Hnth by lia. specialize (Hmin k ltac:(lia)). lra.
      * intros k Hk. rewrite Hnth by lia. specialize (Hmin k Hk). lra.
    + assert (Hge : best_val <= v).
      { destruct (Rlt_dec v best_val) as [H|H]; [|lra].
        apply Rltb_spec in H. congruence. }
      apply IH; try assumption; try lia.
      * rewrite Hnth by lia. assumption.
      * intros k Hk. destruct (Nat.eq_dec k i) as [->|Hne].
        -- rewrite Hlast. assumption.
        -- rewrite Hnth by lia. apply Hmin. lia.
      * intros k Hk. rewrite Hnth by lia. apply Hfirst. assumption.
Qed.

(** [np.argmin] returns the first index of a minimum. *)
Lemma np_argmin_spec (a : list R) :
  a <> [] ->
  exists j : nat,
    np_argmin a = Ok j
    /\ (j < length a)%nat
    /\ (forall k, (k < length a)%nat -> nth j a 0 <= nth k a 0)
    /\ (forall k, (k < j)%nat -> nth j a 0 < nth k a 0).
Proof.
  destruct a as [|v t]; [congruence|]. intros _.
  exists (argmin_from t 1 0 v). split; [reflexivity|].
  apply (argmin_from_spec t [v] 1%nat 0%nat v); try reflexivity; try lia.
  - intros k Hk. assert (k = 0)%nat as -> by lia. simpl. lra.
Qed.

Lemma getitem_nth {T : Type} (l : list T) (i : nat) (d : T) :
  (i < length l)%nat -> getitem l i = Ok (nth i l d).
Proof.
  intro H. unfold getitem. rewrite (nth_error_nth' l d H). reflexivity.
Qed.

Lemma getitem_not_assertion {T : Type} (l : list T) (i : nat) (m : message) :
  getitem l i <> Raise (AssertionError m).
Proof. unfold getitem. destruct (nth_error l i); discriminate. Qed.

(** C10: for a non-empty list of target times, let [j] be the (first) index
    that minimises [|target_times[j] - query_time|].  When that minimum is
    strictly below 1.0 the function returns [targets[j]]; and it fails its
    assertion, with the diagnostic message formatted with the query time, if
    and only if no candidate time is within (strictly less than) 1 time unit
    of the query. *)
Theorem get_closest_frame_spec :
  forall (T : Type) (query_time : R) (target_times : list R) (targets : list T),
    target_times <> [] ->
    let diff := fun t : R => Rabs (t - query_time) in
    (exists j : nat,
        (j < length target_times)%nat
        /\ (forall k, (k < length target_times)%nat ->
                      diff (nth j target_times 0) <= diff (nth k target_times 0))
        /\ (diff (nth j target_times 0) < 1.0 ->
            get_closest_frame query_time target_times targets = getitem targets j)
        /\ (forall t : T,
               diff (nth j target_times 0) < 1.0 ->
               nth_error targets j = Some t ->
               get_closest_frame query_time target_times targets = Ok t))
    /\ (get_closest_frame query_time target_times targets
        = Raise (AssertionError (closest_time_not_found query_time))
        <-> forall t : R, In t target_times -> ~ diff t < 1.0).
Proof.
  intros T query_time target_times targets Hne diff.
  assert (Hne' : map diff target_times <> [])
    by (destruct target_times; [congruence | discriminate]).
  destruct (np_argmin_spec _ Hne') as [j [Harg [Hj [Hmin _]]]].
  rewrite length_map in Hj, Hmin.
  assert (Hnth : forall k, (k < length target_times)%nat ->
                           nth k (map diff target_times) 0 = diff (nth k target_times 0)).
  { intros k Hk. rewrite (nth_indep _ 0 (diff 0)) by (rewrite length_map; assumption).
    apply map_nth. }
  assert (Hmin' : forall k, (k < length target_times)%nat ->
                            diff (nth j target_times 0) <= diff (nth k target_times 0)).
  { intros k Hk. rewrite <- !Hnth by assumption. apply Hmin. assumption. }
  assert (Hrun : get_closest_frame query_time target_times targets
                 = if Rltb (diff (nth j target_times 0)) 1.0
                   then getitem targets j
                   else Raise (AssertionError (closest_time_not_found query_time))).
  { unfold get_closest_frame.
    change (fun t : R => Rabs (t - query_time)) with diff. rewrite Harg. cbn [bind].
    rewrite (getitem_nth target_times j 0 Hj). cbn [bind].
    rewrite (Rabs_minus_sym query_time (nth j target_times 0)).
    reflexivity. }
  split.
  - exists j. split; [assumption|]. split; [assumption|]. split.
    + intro Hclose. rewrite Hrun, Rltb_true by assumption. reflexivity.
    + intros t Hclose Ht. rewrite Hrun, Rltb_true by assumption.
      unfold getitem. rewrite Ht. reflexivity.
  - rewrite Hrun. split.
    + intros Hres t Hin Hclose.
      destruct (Rltb (diff (nth j target_times 0)) 1.0) eqn:Hcmp.
      * exact (getitem_not_assertion _ _ _ Hres).
      * destruct (In_nth _ _ 0 Hin) as [k [Hk Hkt]].
        specialize (Hmin' k Hk). rewrite Hkt in Hmin'.
        assert (Rltb (diff (nth j target_times 0)) 1.0 = true)
          by (apply Rltb_spec; lra).
        congruence.
    + intro Hnone. rewrite Rltb_false; [reflexivity|].
      specialize (Hnone (nth j target_times 0) (nth_In _ _ Hj)). lra.
Qed.

Lemma get_closest_frame_spec_witness :
  [10; 12.5; 13] <> []
  /\ (get_closest_frame 12.75 [10; 12.5; 13] [1%nat; 2%nat; 3%nat]
      = Raise (AssertionError (closest_time_not_found 12.75))
      <-> forall t : R, In t [10; 12.5; 13] -> ~ Rabs (t - 12.75) < 1.0).
Proof.
  split; [discriminate|].
  apply (get_closest_frame_spec nat 12.75 [10; 12.5; 13] [1%nat; 2%nat; 3%nat]).
  discriminate.
Defined.

Lemma Rabs_eval (x v : R) : (0 <= x /\ v = x) \/ (x <= 0 /\ v = - x) -> Rabs x = v.
Proof.
  intros [[H ->]|[H ->]].
  - apply Rabs_pos_eq. assumption.
  - rewrite <- Rabs_Ropp. apply Rabs_pos_eq. lra.
Qed.

(** A tie is resolved to the first candidate. *)
Example get_closest_frame_tie :
  get_closest_frame 12.75 [10; 12.5; 13] [1%nat; 2%nat; 3%nat] = Ok 2%nat.
Proof.
  unfold get_closest_frame. cbn [map].
  rewrite (Rabs_eval (10 - 12.75) 2.75) by (right; lra).
  rewrite (Rabs_eval (12.5 - 12.75) 0.25) by (right; lra).
  rewrite (Rabs_eval (13 - 12.75) 0.25) by (left; lra).
  cbn [np_argmin argmin_from].
  rewrite (Rltb_true 0.25 2.75) by lra.
  rewrite (Rltb_false 0.25 0.25) by lra.
  cbn [bind getitem nth_error].
  rewrite (Rabs_eval (12.75 - 12.5) 0.25) by (left; lra).
  rewrite Rltb_true by lra. reflexivity.
Qed.

Example get_closest_frame_too_far :
  get_closest_frame 20 [10; 12.5; 13] [1%nat; 2%nat; 3%nat]
  = Raise (AssertionError (closest_time_not_found 20)).
Proof.
  unfold get_closest_frame. cbn [map].
  rewrite (Rabs_eval (10 - 20) 10) by (right; lra).
  rewrite (Rabs_eval (12.5 - 20) 7.5) by (right; lra).
  rewrite (Rabs_eval (13 - 20) 7) by (right; lra).
  cbn [np_argmin argmin_from].
  rewrite (Rltb_true 7.5 10) by lra.
  rewrite (Rltb_true 7 7.5) by lra.
  cbn [bind getitem nth_error].
  rewrite (Rabs_eval (20 - 13) 7) by (left; lra).
  rewrite Rltb_false by lra. reflexivity.
Qed.

(** At a distance of exactly 1.0 the assertion fails. *)
Example get_closest_frame_boundary :
  get_closest_frame 4 [5; 9] [1%nat; 2%nat]
  = Raise (AssertionError (closest_time_not_found 4)).
Proof.
  unfold get_closest_frame. cbn [map].
  rewrite (Rabs_eval (5 - 4) 1) by (left; lra).
  rewrite (Rabs_eval (9 - 4) 5) by (left; lra).
  cbn [np_argmin argmin_from].
  rewrite (Rltb_false 5 1) by lra.
  cbn [bind getitem nth_error].
  rewrite (Rabs_eval (4 - 5) 1) by (right; lra).
  rewrite Rltb_false by lra. reflexivity.
Qed.

(** ** Aggregation of the per-frame rotations *)

(** The program clips around the estimate of the last frame. *)
Lemma aggregate_rotations_last (rotations : list R) (rotation : R) :
  aggregate_rotations (rotations ++ [rotation])
  = Ok (np_mean (within_3_sigma rotation (rotations ++ [rotation]))).
Proof.
  unfold aggregate_rotations. rewrite rev_app_distr. reflexivity.
Qed.

Lemma aggregate_rotations_no_frame : aggregate_rotations [] = Raise NameError.
Proof. reflexivity. Qed.

Lemma clipping_frames_mean : mean clipping_frames = PI / 4.
Proof. unfold mean, clipping_frames, Rsum. simpl. field. Qed.

Lemma clipping_frames_std : np_std clipping_frames = PI / 8.
Proof.
  unfold np_std. rewrite clipping_frames_mean.
  pose proof PI_RGT_0 as Hpi.
  replace (mean (map (fun v : R => Rabs (v - PI / 4) ^ 2) clipping_frames))
    with ((PI / 8) * (PI / 8)).
  - apply sqrt_square. lra.
  - unfold mean, clipping_frames, Rsum. cbn [map fold_right length].
    rewrite !RPow_abs, !Rabs_pos_eq by apply pow2_ge_0.
    simpl. field.
Qed.

(** C1 at the failing input: no sample of [clipping_frames] is 3 standard
    deviations or more away from the mean [pi / 4], so the clipped mean the
    claim describes is the plain mean [pi / 4]; the program clips around the
    last estimate [pi / 2] instead, drops the first sample and returns
    [2 pi / 7]. *)
Theorem aggregate_rotations_clips_around_last :
  mean clipping_frames = PI / 4
  /\ np_std clipping_frames = PI / 8
  /\ (forall r : R, In r clipping_frames ->
                    Rabs (r - mean clipping_frames) < 3 * np_std clipping_frames)
  /\ clipped_mean_spec clipping_frames = Finite (PI / 4)
  /\ aggregate_rotations clipping_frames = Ok (Finite (2 * PI / 7))
  /\ 2 * PI / 7 <> PI / 4.
Proof.
  pose proof PI_RGT_0 as Hpi.
  assert (Hin : forall r : R, In r clipping_frames ->
                  Rabs (r - PI / 4) < 3 * (PI / 8)).
  { intros r Hr. unfold clipping_frames in Hr. simpl in Hr.
    repeat (destruct Hr as [<-|Hr];
            [apply Rabs_def1; lra|]).
    contradiction. }
  split; [apply clipping_frames_mean|].
  split; [apply clipping_frames_std|].
  split; [rewrite clipping_frames_mean, clipping_frames_std; assumption|].
  split; [|split].
  - unfold clipped_mean_spec, within_3_sigma.
    rewrite clipping_frames_mean, clipping_frames_std.
    unfold clipping_frames. cbn [filter].
    rewrite !Rltb_true by (apply Hin; unfold clipping_frames; simpl; tauto).
    unfold np_mean, Rsum. simpl. f_equal. field.
  - unfold aggregate_rotations, within_3_sigma. rewrite clipping_frames_std.
    unfold clipping_frames. cbn [rev app filter].
    rewrite (Rltb_false (Rabs (0 - PI / 2)))
      by (rewrite (Rabs_eval (0 - PI / 2) (PI / 2)) by (right; lra); lra).
    rewrite !Rltb_true by (apply Rabs_def1; lra).
    unfold np_mean, Rsum. simpl. f_equal. f_equal. field.
  - lra.
Qed.

(** ** Loops and array writes *)

Lemma for_each_app {A S : Type} (body : A -> S -> result S) (l1 l2 : list A) (s : S) :
  for_each body (l1 ++ l2) s = (s1 <- for_each body l1 s ;; for_each body l2 s1).
Proof.
  revert s. induction l1 as [|a l1 IH]; intro s; simpl; [reflexivity|].
  destruct (body a s) as [s'|e]; simpl; [apply IH | reflexivity].
Qed.

Lemma for_each_invariant {A S : Type} (body : A -> S -> result S) (P : S -> Prop) :
  (forall a s s', body a s = Ok s' -> P s -> P s') ->
  forall (l : list A) (s s' : S), for_each body l s = Ok s' -> P s -> P s'.
Proof.
  intros Hstep. induction l as [|a l IH]; intros s s' Hrun HP; simpl in Hrun.
  - injection Hrun as <-. assumption.
  - destruct (body a s) as [s1|e] eqn:Hb; simpl in Hrun; [|discriminate].
    apply (IH s1 s' Hrun). apply (Hstep a s s1 Hb HP).
Qed.

Lemma length_set_nth {A : Type} (i : nat) (v : A) (l : list A) :
  length (set_nth i v l) = length l.
Proof.
  revert i. induction l as [|h t IH]; intros [|i]; simpl; try reflexivity.
  rewrite IH. reflexivity.
Qed.

Lemma nth_set_nth_same {A : Type} (i : nat) (v d : A) (l : list A) :
  (i < length l)%nat -> nth i (set_nth i v l) d = v.
Proof.
  revert i. induction l as [|h t IH]; intros [|i] H; simpl in *; try lia.
  - reflexivity.
  - apply IH. lia.
Qed.

Lemma nth_set_nth_other {A : Type} (i j : nat) (v d : A) (l : list A) :
  i <> j -> nth j (set_nth i v l) d = nth j l d.
Proof.
  revert i j. induction l as [|h t IH]; intros [|i] [|j] H; simpl; try reflexivity.
  - congruence.
  - apply IH. lia.
Qed.

Lemma length_set2 {A : Type} (i j : nat) (v : A) (g : grid A) :
  length (set2 i j v g) = length g.
Proof.
  revert i. induction g as [|row t IH]; intros [|i]; simpl; try reflexivity.
  rewrite IH. reflexivity.
Qed.

Lemma row_length_set2 {A : Type} (i j k : nat) (v : A) (g : grid A) :
  length (nth k (set2 i j v g) []) = length (nth k g []).
Proof.
  revert i k. induction g as [|row t IH]; intros [|i] [|k]; simpl; try reflexivity.
  - apply length_set_nth.
  - apply IH.
Qed.

Lemma at2_set2_same {A : Type} (i j : nat) (v d : A) (g : grid A) :
  (i < length g)%nat -> (j < length (nth i g []))%nat ->
  at2 d (set2 i j v g) i j = v.
Proof.
  unfold at2. revert i. induction g as [|row t IH]; intros [|i] Hi Hj; simpl in *; try lia.
  - apply nth_set_nth_same. assumption.
  - apply IH; [lia | assumption].
Qed.

Lemma at2_set2_other {A : Type} (i j a b : nat) (v d : A) (g : grid A) :
  (a, b) <> (i, j) -> at2 d (set2 i j v g) a b = at2 d g a b.
Proof.
  unfold at2. revert i a. induction g as [|row t IH]; intros [|i] [|a] H; simpl;
    try reflexivity.
  - apply nth_set_nth_other. congruence.
  - apply IH. congruence.
Qed.

(** A write of [v] leaves a cell that holds [v] at [v]. *)
Lemma at2_set2_keeps {A : Type} (i j a b : nat) (v d : A) (g : grid A) :
  (a < length g)%nat -> (b < length (nth a g []))%nat ->
  at2 d g a b = v -> at2 d (set2 i j v g) a b = v.
Proof.
  intros Ha Hb Hv.
  destruct (Nat.eq_dec a i) as [->|Hai]; [destruct (Nat.eq_dec b j) as [->|Hbj]|].
  - apply at2_set2_same; assumption.
  - rewrite at2_set2_other by congruence. assumption.
  - rewrite at2_set2_other by congruence. assumption.
Qed.

Lemma has_shape_set2 {A : Type} (n m i j : nat) (v : A) (g : grid A) :
  has_shape n m g -> has_shape n m (set2 i j v g).
Proof.
  intros [Hn Hm]. split.
  - rewrite length_set2. assumption.
  - intros k Hk. rewrite row_length_set2. apply Hm. assumption.
Qed.

Lemma has_shape_repeat {A : Type} (n m : nat) (v : A) :
  has_shape n m (repeat (repeat v m) n).
Proof.
  split; [apply repeat_length|].
  intros k Hk. rewrite (nth_indep _ [] (repeat v m)) by (rewrite repeat_length; assumption).
  rewrite nth_repeat. apply repeat_length.
Qed.

Lemma np_zeros_ok (rows cols : Z) :
  (0 <= rows)%Z -> (0 <= cols)%Z ->
  np_zeros rows cols = Ok (repeat (repeat 0 (Z.to_nat cols)) (Z.to_nat rows)).
Proof.
  intros Hr Hc. unfold np_zeros.
  destruct (Z.ltb_spec rows 0); [lia|]. destruct (Z.ltb_spec cols 0); [lia|].
  reflexivity.
Qed.

Lemma np_zeros_inv (rows cols : Z) (img : image) :
  np_zeros rows cols = Ok img ->
  (0 <= rows)%Z /\ (0 <= cols)%Z
  /\ img = repeat (repeat 0 (Z.to_nat cols)) (Z.to_nat rows).
Proof.
  unfold np_zeros.
  destruct (Z.ltb_spec rows 0); [discriminate|].
  destruct (Z.ltb_spec cols 0); [discriminate|].
  simpl. intro Himg. injection Himg as <-. auto.
Qed.

Lemma for_each_split {A S : Type} (body : A -> S -> result S)
    (l1 l2 : list A) (a : A) (s s' : S) :
  for_each body (l1 ++ a :: l2) s = Ok s' ->
  exists s1 s2 : S,
    for_each body l1 s = Ok s1 /\ body a s1 = Ok s2 /\ for_each body l2 s2 = Ok s'.
Proof.
  rewrite for_each_app. intro H.
  destruct (for_each body l1 s) as [s1|e]; simpl in H; [|discriminate].
  destruct (body a s1) as [s2|e] eqn:Hb; simpl in H; [|discriminate].
  exists s1, s2. auto.
Qed.

Lemma seq_split (n i : nat) :
  (i < n)%nat -> seq 0 n = seq 0 i ++ i :: seq (S i) (n - S i).
Proof.
  intro H. replace n with (i + S (n - S i))%nat at 1 by lia.
  rewrite seq_app. reflexivity.
Qed.

(** ** The polar rasteriser *)

Section PolarRasteriser.

Variables (x : option cloud) (range_resolution azimuth_resolution : R).
Variables (range_bins azimuth_bins : Z).

Let step := polar_step x range_resolution azimuth_resolution range_bins azimuth_bins.

Lemma polar_step_shape (n m i : nat) (polar polar' : image) :
    step i polar = Ok polar' -> has_shape n m polar -> has_shape n m polar'.
Proof.
    unfold step, polar_step. intros Hstep Hshape.
    destruct x as [xs|]; [|discriminate].
    destruct (nth_error xs i) as [[[x0 x1] x2]|]; [|discriminate].
    destruct (out_of_band x2); [injection Hstep as <-; assumption|].
    destruct (polar_range_bin x0 x1 range_resolution) as [rbin|]; [|discriminate].
    destruct (polar_azimuth_bin x0 x1 azimuth_resolution) as [abin|]; [|discriminate].
    simpl in Hstep.
    destruct (strictly_inside rbin range_bins abin azimuth_bins);
      injection Hstep as <-; [apply has_shape_set2|]; assumption.
Qed.

Lemma polar_step_keeps_255 (n m i a b : nat) (polar polar' : image) :
    (a < n)%nat -> (b < m)%nat ->
    step i polar = Ok polar' ->
    has_shape n m polar /\ pixel polar a b = 255 ->
    has_shape n m polar' /\ pixel polar' a b = 255.
Proof.
    intros Ha Hb Hstep [Hshape Hpix].
    split; [apply (polar_step_shape n m i polar); assumption|].
    unfold step, polar_step in Hstep.
    destruct x as [xs|]; [|discriminate].
    destruct (nth_error xs i) as [[[x0 x1] x2]|]; [|discriminate].
    destruct (out_of_band x2); [injection Hstep as <-; assumption|].
    destruct (polar_range_bin x0 x1 range_resolution) as [rbin|]; [|discriminate].
    destruct (polar_azimuth_bin x0 x1 azimuth_resolution) as [abin|]; [|discriminate].
    simpl in Hstep.
    destruct (strictly_inside rbin range_bins abin azimuth_bins);
      injection Hstep as <-; [|assumption].
    destruct Hshape as [Hn Hm]. unfold pixel in *.
    apply at2_set2_keeps; [lia | rewrite Hm by assumption; assumption | assumption].
Qed.

Lemma polar_step_writes (xs : cloud) (i : nat) (x0 x1 x2 : R)
      (range_bin azimuth_bin : Z) (polar : image) :
    x = Some xs -> nth_error xs i = Some (x0, x1, x2) ->
    out_of_band x2 = false ->
    polar_range_bin x0 x1 range_resolution = Ok range_bin ->
    polar_azimuth_bin x0 x1 azimuth_resolution = Ok azimuth_bin ->
    strictly_inside range_bin range_bins azimuth_bin azimuth_bins = true ->
    step i polar
    = Ok (set2 (Z.to_nat azimuth_bin) (Z.to_nat range_bin) 255 polar).
Proof.
    intros Hx Hi Hband Hr Ha Hin. unfold step, polar_step.
    rewrite Hx, Hi, Hband, Hr, Ha. cbn [bind]. rewrite Hin. reflexivity.
Qed.

Lemma polar_fill_shape (pc : cloud) (filled : image) :
    polar_fill x pc range_resolution azimuth_resolution range_bins azimuth_bins
    = Ok filled ->
    (0 <= azimuth_bins)%Z /\ (0 <= range_bins)%Z
    /\ has_shape (Z.to_nat azimuth_bins) (Z.to_nat range_bins) filled.
Proof.
    unfold polar_fill. intro H.
    destruct (np_zeros azimuth_bins range_bins) as [polar0|] eqn:Hz; [|discriminate].
    apply np_zeros_inv in Hz. destruct Hz as [Ha [Hr ->]]. cbn [bind] in H.
    split; [assumption|]. split; [assumption|].
    apply (for_each_invariant step (has_shape _ _)
             (fun i s s' => polar_step_shape _ _ i s s') _ _ _ H).
    apply has_shape_repeat.
Qed.

  (** The cell of a point that passes the filters holds 255 when the loop
      ends. *)
Lemma polar_fill_writes (pc xs : cloud) (filled : image) (i : nat)
      (x0 x1 x2 : R) (range_bin azimuth_bin : Z) :
    polar_fill x pc range_resolution azimuth_resolution range_bins azimuth_bins
    = Ok filled ->
    x = Some xs -> (i < length pc)%nat -> nth_error xs i = Some (x0, x1, x2) ->
    out_of_band x2 = false ->
    polar_range_bin x0 x1 range_resolution = Ok range_bin ->
    polar_azimuth_bin x0 x1 azimuth_resolution = Ok azimuth_bin ->
    strictly_inside range_bin range_bins azimuth_bin azimuth_bins = true ->
    pixel filled (Z.to_nat azimuth_bin) (Z.to_nat range_bin) = 255.
Proof.
    intros Hfill Hx Hi Hnth Hband Hr Ha Hin.
    unfold polar_fill in Hfill.
    destruct (np_zeros azimuth_bins range_bins) as [polar0|] eqn:Hz; [|discriminate].
    apply np_zeros_inv in Hz. destruct Hz as [Hab [Hrb ->]]. cbn [bind] in Hfill.
    rewrite (seq_split _ _ Hi) in Hfill.
    apply for_each_split in Hfill. destruct Hfill as [s1 [s2 [H1 [H2 H3]]]].
    fold step in H1, H2, H3.
    set (n := Z.to_nat azimuth_bins) in *. set (m := Z.to_nat range_bins) in *.
    assert (Hs1 : has_shape n m s1).
    { apply (for_each_invariant step (has_shape n m)
               (fun k s s' => polar_step_shape n m k s s') _ _ _ H1).
      apply has_shape_repeat. }
    unfold strictly_inside in Hin.
    apply andb_prop in Hin. destruct Hin as [Hin Hlt4].
    apply andb_prop in Hin. destruct Hin as [Hin Hlt3].
    apply andb_prop in Hin. destruct Hin as [Hlt1 Hlt2].
    apply Z.ltb_lt in Hlt1, Hlt2, Hlt3, Hlt4.
    assert (Han : (Z.to_nat azimuth_bin < n)%nat) by (unfold n; lia).
    assert (Hbm : (Z.to_nat range_bin < m)%nat) by (unfold m; lia).
    assert (Hin' : strictly_inside range_bin range_bins azimuth_bin azimuth_bins = true).
    { unfold strictly_inside. rewrite !andb_true_iff, !Z.ltb_lt. lia. }
    rewrite (polar_step_writes xs i x0 x1 x2 range_bin azimuth_bin s1
               Hx Hnth Hband Hr Ha Hin') in H2.
    injection H2 as <-.
    apply (for_each_invariant step
             (fun s => has_shape n m s
                       /\ pixel s (Z.to_nat azimuth_bin) (Z.to_nat range_bin) = 255)
             (fun k s s' => polar_step_keeps_255 n m k _ _ s s' Han Hbm) _ _ _ H3).
    split; [apply has_shape_set2; assumption|].
    destruct Hs1 as [Hn Hm]. unfold pixel.
    apply at2_set2_same; [lia | rewrite Hm by assumption; assumption].
Qed.

End PolarRasteriser.

(** C7: when [lidar_to_polar_image] returns, its rows are the rows the loop
    filled, in reverse order: row [i] of the result is the row filled for
    azimuth bin [azimuth_bins - 1 - i]; so a point that passes the height
    filter and is binned into [(azimuth_bin, range_bin)], both strictly
    inside their bin counts, gives 255 at row
    [azimuth_bins - 1 - azimuth_bin], column [range_bin] of the result. *)
Theorem polar_image_rows_reversed :
  forall (x : option cloud) (pc : cloud) (range_resolution azimuth_resolution : R)
         (range_bins azimuth_bins : Z) (filled : image),
    polar_fill x pc range_resolution azimuth_resolution range_bins azimuth_bins
    = Ok filled ->
    let n := Z.to_nat azimuth_bins in
    lidar_to_polar_image x pc range_resolution azimuth_resolution
                         range_bins azimuth_bins = Ok (np_flip0 filled)
    /\ nrows (np_flip0 filled) = n
    /\ (forall i : nat, (i < n)%nat ->
                        nth i (np_flip0 filled) [] = nth (n - 1 - i) filled [])
    /\ (forall (xs : cloud) (i : nat) (x0 x1 x2 : R) (range_bin azimuth_bin : Z),
           x = Some xs -> (i < length pc)%nat ->
           nth_error xs i = Some (x0, x1, x2) ->
           out_of_band x2 = false ->
           polar_range_bin x0 x1 range_resolution = Ok range_bin ->
           polar_azimuth_bin x0 x1 azimuth_resolution = Ok azimuth_bin ->
           strictly_inside range_bin range_bins azimuth_bin azimuth_bins = true ->
           pixel (np_flip0 filled) (n - 1 - Z.to_nat azimuth_bin) (Z.to_nat range_bin)
           = 255).
Proof.
  intros x pc range_resolution azimuth_resolution range_bins azimuth_bins filled
         Hfill n.
  destruct (polar_fill_shape _ _ _ _ _ _ _ Hfill) as [Hab [Hrb [Hlen Hrows]]].
  fold n in Hlen, Hrows.
  assert (Hflip : forall i : nat, (i < n)%nat ->
                    nth i (np_flip0 filled) [] = nth (n - 1 - i) filled []).
  { intros i Hi. unfold np_flip0. rewrite rev_nth by lia.
    f_equal. lia. }
  split; [unfold lidar_to_polar_image; rewrite Hfill; reflexivity|].
  split; [unfold nrows, np_flip0; rewrite length_rev; assumption|].
  split; [assumption|].
  intros xs i x0 x1 x2 range_bin azimuth_bin Hx Hi Hnth Hband Hr Ha Hin.
  pose proof (polar_fill_writes _ _ _ _ _ _ _ _ _ _ _ _ _ _
                Hfill Hx Hi Hnth Hband Hr Ha Hin) as Hpix.
  assert (Hlt : (Z.to_nat azimuth_bin < n)%nat).
  { unfold strictly_inside in Hin. rewrite !andb_true_iff, !Z.ltb_lt in Hin.
    unfold n. lia. }
  unfold pixel, at2 in *. rewrite Hflip by lia.
  replace (n - 1 - (n - 1 - Z.to_nat azimuth_bin))%nat with (Z.to_nat azimuth_bin)
    by lia.
  assumption.
Qed.

(** *** A concrete frame *)

Lemma polar_range_bin_example : polar_range_bin 0 3 1 = Ok 3%Z.
Proof.
  unfold polar_range_bin.
  replace (0 ^ 2 + 3 ^ 2) with (3 * 3) by (simpl; lra).
  rewrite sqrt_square by lra.
  rewrite np_divide_finite by lra. cbn [py_int].
  rewrite (Rtrunc_nonneg (3 / 1) 3) by lra. reflexivity.
Qed.

Lemma polar_azimuth_bin_example : polar_azimuth_bin 0 3 (PI / 4) = Ok 2%Z.
Proof.
  pose proof PI_RGT_0 as Hpi.
  unfold polar_azimuth_bin, np_arctan2.
  rewrite (Rltb_false 0 0) by lra. rewrite (Rltb_true 0 3) by lra.
  rewrite (Rltb_false (PI / 2) 0) by lra.
  rewrite np_divide_finite by lra. cbn [py_int].
  replace (PI / 2 / (PI / 4)) with 2 by (field; lra).
  rewrite (Rtrunc_nonneg 2 2) by lra. reflexivity.
Qed.

(** One point 3 m from the sensor at azimuth [pi / 2], in the height band,
    on a grid of 8 azimuth bins by 5 range bins. *)
Lemma polar_fill_example (pc_point : point) :
  polar_fill (Some [(0, 3, 0.25)]) [pc_point] 1 (PI / 4) 5 8
  = Ok (set2 2 3 255 (repeat (repeat 0 5%nat) 8%nat)).
Proof.
  unfold polar_fill. cbn [np_zeros Z.ltb Z.compare orb bind length seq for_each].
  unfold polar_step. cbn [nth_error].
  assert (Hband : out_of_band 0.25 = false) by (apply in_band_spec; lra).
  rewrite Hband, polar_range_bin_example, polar_azimuth_bin_example.
  reflexivity.
Qed.

Lemma polar_image_rows_reversed_witness :
  polar_fill (Some [(0, 3, 0.25)]) [(0, 3, 0.25)] 1 (PI / 4) 5 8
  = Ok (set2 2 3 255 (repeat (repeat 0 5%nat) 8%nat))
  /\ lidar_to_polar_image (Some [(0, 3, 0.25)]) [(0, 3, 0.25)] 1 (PI / 4) 5 8
     = Ok (np_flip0 (set2 2 3 255 (repeat (repeat 0 5%nat) 8%nat)))
  /\ pixel (np_flip0 (set2 2 3 255 (repeat (repeat 0 5%nat) 8%nat))) 5 3 = 255.
Proof.
  pose proof (polar_image_rows_reversed
                (Some [(0, 3, 0.25)]) [(0, 3, 0.25)] 1 (PI / 4) 5 8
                (set2 2 3 255 (repeat (repeat 0 5%nat) 8%nat))
                (polar_fill_example (0, 3, 0.25))) as [Himg [_ [_ Hcell]]].
  split; [apply polar_fill_example|].
  split; [exact Himg|].
  apply (Hcell [(0, 3, 0.25)] 0%nat 0 3 0.25 3%Z 2%Z).
  - reflexivity.
  - simpl. lia.
  - reflexivity.
  - apply in_band_spec. lra.
  - apply polar_range_bin_example.
  - apply polar_azimuth_bin_example.
  - reflexivity.
Defined.

(** ** The height filter *)

Lemma cartesian_step_out_of_band (w : Z) (res : R) (p : point) (img : image) :
  in_band p = false -> cartesian_step w res p img = Ok img.
Proof.
  destruct p as [[p0 p1] p2]. unfold in_band. simpl. intro H.
  apply negb_false_iff in H. rewrite H. reflexivity.
Qed.

(** In the cartesian rasteriser a point outside the height band writes no
    cell: the image is the one of the cloud without these points. *)
Lemma cartesian_image_height_filter (pc : cloud) (w : Z) (res : R) :
  lidar_to_cartesian_image (filter in_band pc) w res
  = lidar_to_cartesian_image pc w res.
Proof.
  unfold lidar_to_cartesian_image.
  destruct (np_zeros w w) as [img|e]; [|reflexivity]. cbn [bind].
  revert img. induction pc as [|p pc IH]; intro img; [reflexivity|].
  cbn [filter]. destruct (in_band p) eqn:Hp.
  - cbn [for_each]. destruct (cartesian_step w res p img); [apply IH | reflexivity].
  - cbn [for_each]. rewrite cartesian_step_out_of_band by assumption. apply IH.
Qed.

(** In the polar rasteriser the filter tests column [i] of the module-level
    [x]: the iteration writes nothing when that column is outside the
    band. *)
Lemma polar_step_out_of_band (xs : cloud) (rr ar : R) (rb ab : Z) (i : nat)
    (p : point) (polar : image) :
  nth_error xs i = Some p -> in_band p = false ->
  polar_step (Some xs) rr ar rb ab i polar = Ok polar.
Proof.
  destruct p as [[x0 x1] x2]. unfold in_band. simpl. intros Hi H.
  apply negb_false_iff in H. unfold polar_step. rewrite Hi, H. reflexivity.
Qed.

(** An iteration reads one column of [x] only. *)
Lemma polar_step_column (xs : cloud) (rr ar : R) (rb ab : Z) (i : nat)
    (p : point) (polar : image) :
  nth_error xs i = Some p ->
  polar_step (Some xs) rr ar rb ab i polar
  = polar_step (Some [p]) rr ar rb ab 0 polar.
Proof.
  intro Hi. unfold polar_step. rewrite Hi. reflexivity.
Qed.

(** When the module-level [x] is the array that is passed as [pc], as in
    the call of the program, the loop over the indices is a loop over the
    columns. *)
Lemma polar_loop_columns (rr ar : R) (rb ab : Z) :
  forall (xs pre : cloud) (polar : image),
    for_each (polar_step (Some (pre ++ xs)) rr ar rb ab)
             (seq (length pre) (length xs)) polar
    = for_each (fun p => polar_step (Some [p]) rr ar rb ab 0) xs polar.
Proof.
  induction xs as [|p xs IH]; intros pre polar; [reflexivity|].
  cbn [length seq for_each].
  rewrite (polar_step_column (pre ++ p :: xs) rr ar rb ab (length pre) p)
    by (rewrite nth_error_app2, Nat.sub_diag by lia; reflexivity).
  destruct (polar_step (Some [p]) rr ar rb ab 0 polar) as [polar'|e];
    [|reflexivity].
  cbn [bind].
  replace (pre ++ p :: xs) with ((pre ++ [p]) ++ xs)
    by (rewrite <- app_assoc; reflexivity).
  replace (S (length pre)) with (length (pre ++ [p]))
    by (rewrite length_app; simpl; lia).
  apply IH.
Qed.

(** In the polar rasteriser, called on the module-level [x] as the program
    calls it, a point outside the height band writes no cell: the image is
    the one of the cloud without these points. *)
Lemma polar_image_height_filter (pc : cloud) (rr ar : R) (rb ab : Z) :
  lidar_to_polar_image (Some (filter in_band pc)) (filter in_band pc) rr ar rb ab
  = lidar_to_polar_image (Some pc) pc rr ar rb ab.
Proof.
  unfold lidar_to_polar_image, polar_fill.
  destruct (np_zeros ab rb) as [img|e]; [|reflexivity]. cbn [bind].
  pose proof (polar_loop_columns rr ar rb ab (filter in_band pc) [] img) as H1.
  pose proof (polar_loop_columns rr ar rb ab pc [] img) as H2.
  cbn [app length] in H1, H2.
  apply f_equal with (f := fun r => polar <- r ;; Ok (np_flip0 polar)).
  transitivity (for_each (fun p => polar_step (Some [p]) rr ar rb ab 0)
                         (filter in_band pc) img); [exact H1|].
  transitivity (for_each (fun p => polar_step (Some [p]) rr ar rb ab 0) pc img);
    [|symmetry; exact H2].
  clear H1 H2.
  revert img. induction pc as [|p pc IH]; intro img; [reflexivity|].
  cbn [filter]. destruct (in_band p) eqn:Hp.
  - cbn [for_each].
    destruct (polar_step (Some [p]) rr ar rb ab 0 img); [apply IH | reflexivity].
  - cbn [for_each].
    assert (Hskip : polar_step (Some [p]) rr ar rb ab 0 img = Ok img)
      by exact (polar_step_out_of_band [p] rr ar rb ab 0 p img eq_refl Hp).
    rewrite Hskip. apply IH.
Qed.

Lemma filter_in_band_drop (pc1 pc2 : cloud) (p : point) :
  in_band p = false ->
  filter in_band (pc1 ++ p :: pc2) = filter in_band (pc1 ++ pc2).
Proof.
  intro Hp. rewrite !filter_app. cbn [filter]. rewrite Hp. reflexivity.
Qed.

(** C6: a point whose height lies outside [[0, 0.5]] writes no cell,
    whatever its other two coordinates and wherever it stands in the cloud:
    the result of [lidar_to_cartesian_image] is the result for the cloud
    without the point, and so is the result of [lidar_to_polar_image]
    called, as by the program, on the array that the module-level [x]
    names.  Hence both results are those of the cloud restricted to the
    height band. *)
Theorem height_filter_excludes_points :
  forall (pc1 pc2 : cloud) (p0 p1 p2 : R)
         (cart_pixel_width : Z) (cart_resolution : R)
         (range_resolution azimuth_resolution : R) (range_bins azimuth_bins : Z),
    p2 < 0 \/ 0.5 < p2 ->
    lidar_to_cartesian_image (pc1 ++ (p0, p1, p2) :: pc2)
                             cart_pixel_width cart_resolution
    = lidar_to_cartesian_image (pc1 ++ pc2) cart_pixel_width cart_resolution
    /\ lidar_to_polar_image (Some (pc1 ++ (p0, p1, p2) :: pc2))
                            (pc1 ++ (p0, p1, p2) :: pc2)
                            range_resolution azimuth_resolution
                            range_bins azimuth_bins
       = lidar_to_polar_image (Some (pc1 ++ pc2)) (pc1 ++ pc2)
                              range_resolution azimuth_resolution
                              range_bins azimuth_bins
    /\ lidar_to_cartesian_image (pc1 ++ (p0, p1, p2) :: pc2)
                                cart_pixel_width cart_resolution
       = lidar_to_cartesian_image (filter in_band (pc1 ++ (p0, p1, p2) :: pc2))
                                  cart_pixel_width cart_resolution
    /\ lidar_to_polar_image (Some (pc1 ++ (p0, p1, p2) :: pc2))
                            (pc1 ++ (p0, p1, p2) :: pc2)
                            range_resolution azimuth_resolution
                            range_bins azimuth_bins
       = lidar_to_polar_image (Some (filter in_band (pc1 ++ (p0, p1, p2) :: pc2)))
                              (filter in_band (pc1 ++ (p0, p1, p2) :: pc2))
                              range_resolution azimuth_resolution
                              range_bins azimuth_bins.
Proof.
  intros pc1 pc2 p0 p1 p2 w res rr ar rb ab Hz.
  assert (Hout : in_band (p0, p1, p2) = false).
  { unfold in_band. cbn [snd]. apply negb_false_iff. apply out_of_band_spec.
    assumption. }
  pose proof (filter_in_band_drop pc1 pc2 (p0, p1, p2) Hout) as Hdrop.
  split; [|split; [|split]].
  - transitivity (lidar_to_cartesian_image
                    (filter in_band (pc1 ++ (p0, p1, p2) :: pc2)) w res);
      [symmetry; apply cartesian_image_height_filter|].
    transitivity (lidar_to_cartesian_image (filter in_band (pc1 ++ pc2)) w res);
      [|apply cartesian_image_height_filter].
    exact (f_equal (fun c => lidar_to_cartesian_image c w res) Hdrop).
  - transitivity (lidar_to_polar_image
                    (Some (filter in_band (pc1 ++ (p0, p1, p2) :: pc2)))
                    (filter in_band (pc1 ++ (p0, p1, p2) :: pc2)) rr ar rb ab);
      [symmetry; apply polar_image_height_filter|].
    transitivity (lidar_to_polar_image (Some (filter in_band (pc1 ++ pc2)))
                                       (filter in_band (pc1 ++ pc2)) rr ar rb ab);
      [|apply polar_image_height_filter].
    exact (f_equal (fun c => lidar_to_polar_image (Some c) c rr ar rb ab) Hdrop).
  - symmetry. apply cartesian_image_height_filter.
  - symmetry. apply polar_image_height_filter.
Qed.

Lemma height_filter_excludes_points_witness :
  (9 < 0 \/ 0.5 < 9)
  /\ lidar_to_cartesian_image ([(1.0, 0.0, 0.0)] ++ (0, 3, 9) :: []) 10 0.5
     = lidar_to_cartesian_image ([(1.0, 0.0, 0.0)] ++ []) 10 0.5
  /\ lidar_to_polar_image (Some ([(0, 3, 0.25)] ++ (0, 3, 9) :: []))
                          ([(0, 3, 0.25)] ++ (0, 3, 9) :: []) 1 (PI / 4) 5 8
     = lidar_to_polar_image (Some ([(0, 3, 0.25)] ++ [])) ([(0, 3, 0.25)] ++ [])
                            1 (PI / 4) 5 8.
Proof.
  assert (Hz : 9 < 0 \/ 0.5 < 9) by (right; lra).
  split; [exact Hz|]. split.
  - apply (height_filter_excludes_points [(1.0, 0.0, 0.0)] [] 0 3 9 10 0.5
             1 (PI / 4) 5 8 Hz).
  - apply (height_filter_excludes_points [(0, 3, 0.25)] [] 0 3 9 10 0.5
             1 (PI / 4) 5 8 Hz).
Defined.

(** ** The polar rasteriser and its parameter [pc] *)

Lemma polar_image_depends_on_length (x : option cloud) (pc1 pc2 : cloud)
    (rr ar : R) (rb ab : Z) :
  length pc1 = length pc2 ->
  lidar_to_polar_image x pc1 rr ar rb ab = lidar_to_polar_image x pc2 rr ar rb ab.
Proof.
  intro H. unfold lidar_to_polar_image, polar_fill. rewrite H. reflexivity.
Qed.

(** C3, as stated, fails: with no [x] in scope and a cloud of no column the
    loop body never runs, and the function returns the all-zero image
    instead of failing with a name error. *)
Lemma polar_image_empty_cloud_no_name_error :
  lidar_to_polar_image None [] 1 1 2 2 = Ok [[0; 0]; [0; 0]].
Proof. reflexivity. Qed.

(** C3, amended: the result of [lidar_to_polar_image] depends on [pc]
    through its number of columns only (two clouds of the same number of
    columns give the same result for a fixed module-level [x], which is what
    is rasterised); with no [x] in scope, non-negative bin counts and a
    cloud of at least one column the call fails with a name error; with no
    column it returns the all-zero image; a negative bin count is refused
    with a value error before [x] is read. *)
Theorem polar_image_ignores_pc_coordinates :
  (forall (x : option cloud) (pc1 pc2 : cloud) (rr ar : R) (rb ab : Z),
      length pc1 = length pc2 ->
      lidar_to_polar_image x pc1 rr ar rb ab = lidar_to_polar_image x pc2 rr ar rb ab)
  /\ (forall (pc : cloud) (rr ar : R) (rb ab : Z),
         pc <> [] -> (0 <= rb)%Z -> (0 <= ab)%Z ->
         lidar_to_polar_image None pc rr ar rb ab = Raise NameError)
  /\ (forall (x : option cloud) (rr ar : R) (rb ab : Z),
         (0 <= rb)%Z -> (0 <= ab)%Z ->
         lidar_to_polar_image x [] rr ar rb ab
         = Ok (repeat (repeat 0 (Z.to_nat rb)) (Z.to_nat ab)))
  /\ (forall (x : option cloud) (pc : cloud) (rr ar : R) (rb ab : Z),
         (rb < 0)%Z \/ (ab < 0)%Z ->
         lidar_to_polar_image x pc rr ar rb ab = Raise ValueError).
Proof.
  split; [exact polar_image_depends_on_length|].
  split; [|split].
  - intros pc rr ar rb ab Hpc Hrb Hab.
    unfold lidar_to_polar_image, polar_fill. rewrite np_zeros_ok by assumption.
    destruct pc as [|p pc]; [congruence|]. reflexivity.
  - intros x rr ar rb ab Hrb Hab.
    unfold lidar_to_polar_image, polar_fill. rewrite np_zeros_ok by assumption.
    cbn [bind length seq for_each]. unfold np_flip0.
    f_equal. generalize (repeat 0 (Z.to_nat rb)) as row. intro row.
    induction (Z.to_nat ab) as [|n IH]; [reflexivity|].
    simpl. rewrite IH. clear IH.
    induction n as [|n IH]; [reflexivity|]. simpl. rewrite <- IH. reflexivity.
  - intros x pc rr ar rb ab Hneg.
    unfold lidar_to_polar_image, polar_fill, np_zeros.
    destruct (Z.ltb_spec ab 0) as [H1|H1]; [reflexivity|].
    destruct (Z.ltb_spec rb 0) as [H2|H2]; [reflexivity|]. lia.
Qed.

Lemma polar_image_ignores_pc_coordinates_witness :
  lidar_to_polar_image (Some [(0, 3, 0.25)]) [(0, 3, 9)] 1 (PI / 4) 5 8
  = lidar_to_polar_image (Some [(0, 3, 0.25)]) [(7, 7, 0.1)] 1 (PI / 4) 5 8
  /\ lidar_to_polar_image None [(0, 3, 9)] 1 (PI / 4) 5 8 = Raise NameError.
Proof.
  destruct polar_image_ignores_pc_coordinates as [Hlen [Hname _]].
  split.
  - apply Hlen. reflexivity.
  - apply Hname; [discriminate | lia | lia].
Defined.

(** ** The rasterisers return an image *)

Lemma for_each_total {A S : Type} (body : A -> S -> result S) (P : S -> Prop)
    (l : list A) :
  (forall a s, In a l -> P s -> exists s', body a s = Ok s' /\ P s') ->
  forall s, P s -> exists s', for_each body l s = Ok s' /\ P s'.
Proof.
  induction l as [|a l IH]; intros Hbody s HP.
  - exists s. split; [reflexivity | assumption].
  - destruct (Hbody a s (or_introl eq_refl) HP) as [s1 [Hs1 HP1]].
    destruct (IH (fun b t Hb => Hbody b t (or_intror Hb)) s1 HP1) as [s' [Hs' HP']].
    exists s'. split; [|assumption]. simpl. rewrite Hs1. exact Hs'.
Qed.

Lemma py_int_divide_ok (a b : R) :
  b <> 0 -> py_int (np_divide a b) = Ok (Rtrunc (a / b)).
Proof. intro H. rewrite np_divide_finite by assumption. reflexivity. Qed.

(** With a non-negative width and a nonzero resolution the cartesian
    rasteriser returns a square image of that width, for every cloud. *)
Lemma lidar_to_cartesian_image_total (pc : cloud) (w : Z) (res : R) :
  (0 <= w)%Z -> res <> 0 ->
  exists img : image,
    lidar_to_cartesian_image pc w res = Ok img
    /\ has_shape (Z.to_nat w) (Z.to_nat w) img.
Proof.
  intros Hw Hres. unfold lidar_to_cartesian_image.
  rewrite np_zeros_ok by assumption. cbn [bind].
  apply (for_each_total _ (has_shape (Z.to_nat w) (Z.to_nat w))).
  - intros [[p0 p1] p2] s _ Hs. unfold cartesian_step.
    destruct (out_of_band p2); [exists s; auto|].
    rewrite !py_int_divide_ok by assumption. cbn [bind].
    destruct (strictly_inside _ w _ w); eexists; split; try reflexivity;
      [apply has_shape_set2|]; assumption.
  - apply has_shape_repeat.
Qed.

(** With non-negative bin counts, nonzero resolutions and a module-level
    [x] of at least as many columns as [pc], the polar rasteriser returns
    an image of [azimuth_bins] rows and [range_bins] columns. *)
Lemma lidar_to_polar_image_total (xs pc : cloud) (rr ar : R) (rb ab : Z) :
  (0 <= rb)%Z -> (0 <= ab)%Z -> rr <> 0 -> ar <> 0 ->
  (length pc <= length xs)%nat ->
  exists filled : image,
    polar_fill (Some xs) pc rr ar rb ab = Ok filled
    /\ lidar_to_polar_image (Some xs) pc rr ar rb ab = Ok (np_flip0 filled)
    /\ has_shape (Z.to_nat ab) (Z.to_nat rb) filled.
Proof.
  intros Hrb Hab Hrr Har Hlen.
  assert (Hfill : exists filled : image,
             polar_fill (Some xs) pc rr ar rb ab = Ok filled
             /\ has_shape (Z.to_nat ab) (Z.to_nat rb) filled).
  { unfold polar_fill. rewrite np_zeros_ok by assumption. cbn [bind].
    apply (for_each_total _ (has_shape (Z.to_nat ab) (Z.to_nat rb))).
    - intros i s Hi Hs. apply in_seq in Hi. unfold polar_step.
      destruct (nth_error xs i) as [[[x0 x1] x2]|] eqn:Hnth.
      + destruct (out_of_band x2); [exists s; auto|].
        unfold polar_range_bin, polar_azimuth_bin.
        rewrite !py_int_divide_ok by assumption. cbn [bind].
        destruct (strictly_inside _ rb _ ab); eexists; split; try reflexivity;
          [apply has_shape_set2|]; assumption.
      + apply nth_error_None in Hnth. lia.
    - apply has_shape_repeat. }
  destruct Hfill as [filled [Hfill Hshape]]. exists filled.
  split; [assumption|]. split; [|assumption].
  unfold lidar_to_polar_image. rewrite Hfill. reflexivity.
Qed.

(** A zero resolution makes the first point inside the height band end the
    call with an exception: [int(inf)] or [int(nan)]. *)
Example cartesian_zero_resolution :
  lidar_to_cartesian_image [(1, 2, 0.25)] 10 0 = Raise OverflowError
  /\ lidar_to_cartesian_image [(0, 0, 0.25)] 10 0 = Raise ValueError
  /\ lidar_to_cartesian_image [(1, 2, 3)] 10 0 = Ok (repeat (repeat 0 10%nat) 10%nat).
Proof.
  assert (Hin : out_of_band 0.25 = false) by (apply in_band_spec; lra).
  assert (Hout : out_of_band 3 = true) by (apply out_of_band_spec; lra).
  unfold lidar_to_cartesian_image, cartesian_step, cart_min_range.
  cbn [np_zeros Z.ltb Z.compare orb bind for_each Z.modulo Z.eqb]. simpl Z.eqb.
  rewrite Hin, Hout. unfold np_divide. rewrite !Rmult_0_r.
  rewrite (Reqb_true 0 0) by reflexivity.
  rewrite (Reqb_false (0 - 2) 0) by lra.
  rewrite (Reqb_true (0 - 0) 0) by lra.
  repeat split.
Qed.

(** ** Complex arithmetic *)

Lemma C_ring_theory : ring_theory C0 C1 Cadd Cmul Csub Copp (@eq C).
Proof.
  constructor; intros; unfold C0, C1, Cadd, Cmul, Csub, Copp;
    repeat match goal with z : C |- _ => destruct z end;
    simpl; f_equal; ring.
Qed.

Add Ring C_ring : C_ring_theory.

Lemma Cscale_mul (r : R) (z : C) : Cscale r z = Cmul (RtoC r) z.
Proof. destruct z. unfold Cscale, Cmul, RtoC. simpl. f_equal; ring. Qed.

Lemma RtoC_mul (a b : R) : Cmul (RtoC a) (RtoC b) = RtoC (a * b).
Proof. unfold Cmul, RtoC. simpl. f_equal; ring. Qed.

Lemma Cmul_conj (z : C) : Cmul z (Cconj z) = RtoC (fst z * fst z + snd z * snd z).
Proof. destruct z. unfold Cmul, Cconj, RtoC. simpl. f_equal; ring. Qed.

Lemma Cnorm2_pos (z : C) : z <> C0 -> 0 < fst z * fst z + snd z * snd z.
Proof.
  destruct z as [a b]. unfold C0. simpl. intro H.
  destruct (Req_dec a 0) as [->|Ha].
  - destruct (Req_dec b 0) as [->|Hb]; [congruence|]. nra.
  - nra.
Qed.

Lemma Cmul_integral (a b : C) : Cmul a b = C0 -> a = C0 \/ b = C0.
Proof.
  intro H. destruct (Req_dec (fst a * fst a + snd a * snd a) 0) as [Hz|Hnz].
  - left. destruct a as [x y]. simpl in Hz. unfold C0. f_equal; nra.
  - right. destruct a as [x y], b as [u v]. unfold Cmul, C0 in *. simpl in *.
    injection H as H1 H2.
    assert (Hu : (x * x + y * y) * u = 0)
      by (replace ((x * x + y * y) * u) with (x * (x * u - y * v) + y * (x * v + y * u)) by ring;
          rewrite H1, H2; ring).
    assert (Hv : (x * x + y * y) * v = 0)
      by (replace ((x * x + y * y) * v) with (x * (x * v + y * u) - y * (x * u - y * v)) by ring;
          rewrite H1, H2; ring).
    apply Rmult_integral in Hu, Hv.
    destruct Hu as [Hu|Hu]; [contradiction|]. destruct Hv as [Hv|Hv]; [contradiction|].
    subst. reflexivity.
Qed.

Lemma Cabs_RtoC (r : R) : 0 <= r -> Cabs (RtoC r) = r.
Proof.
  intro H. unfold Cabs, RtoC. simpl.
  replace (r * r + 0 * 0) with (r * r) by ring. apply sqrt_square. assumption.
Qed.

Lemma Cabs_zero_iff (z : C) : Cabs z = 0 <-> z = C0.
Proof.
  destruct z as [a b]. unfold Cabs, C0. simpl. split.
  - intro H. apply sqrt_eq_0 in H; [|nra]. f_equal; nra.
  - intro H. injection H as -> ->.
    replace (0 * 0 + 0 * 0) with 0 by ring. apply sqrt_0.
Qed.

Lemma Cabs_scale (r : R) (z : C) : 0 <= r -> Cabs (Cscale r z) = r * Cabs z.
Proof.
  intro H. destruct z as [a b]. unfold Cabs, Cscale. simpl.
  replace (r * a * (r * a) + r * b * (r * b)) with ((r * r) * (a * a + b * b)) by ring.
  rewrite sqrt_mult by nra. rewrite sqrt_square by assumption. reflexivity.
Qed.

(** ** Sums *)

Lemma Csum_n_ext (f g : nat -> C) (n : nat) :
  (forall i, (i < n)%nat -> f i = g i) -> Csum_n f n = Csum_n g n.
Proof.
  induction n as [|n IH]; intro H; simpl; [reflexivity|].
  rewrite IH by (intros i Hi; apply H; lia). rewrite H by lia. reflexivity.
Qed.

Lemma Csum_n_zero (n : nat) : Csum_n (fun _ => C0) n = C0.
Proof. induction n as [|n IH]; simpl; [reflexivity|]. rewrite IH. ring. Qed.

Lemma Csum_n_mul_l (c : C) (f : nat -> C) (n : nat) :
  Csum_n (fun i => Cmul c (f i)) n = Cmul c (Csum_n f n).
Proof. induction n as [|n IH]; simpl; [ring|]. rewrite IH. ring. Qed.

Lemma Csum_n_mul_r (c : C) (f : nat -> C) (n : nat) :
  Csum_n (fun i => Cmul (f i) c) n = Cmul (Csum_n f n) c.
Proof. induction n as [|n IH]; simpl; [ring|]. rewrite IH. ring. Qed.

Lemma Csum_n_shift (f : nat -> C) (n : nat) :
  Csum_n f (S n) = Cadd (f 0%nat) (Csum_n (fun i => f (S i)) n).
Proof.
  induction n as [|n IH]; [simpl; ring|].
  change (Csum_n f (S (S n))) with (Cadd (Csum_n f (S n)) (f (S n))).
  rewrite IH. simpl. ring.
Qed.

Lemma Csum_n_single (f : nat -> C) (n j : nat) :
  (j < n)%nat -> (forall i, (i < n)%nat -> i <> j -> f i = C0) ->
  Csum_n f n = f j.
Proof.
  revert j. induction n as [|n IH]; intros j Hj H; [lia|]. simpl.
  destruct (Nat.eq_dec j n) as [->|Hne].
  - rewrite (Csum_n_ext f (fun _ => C0)) by (intros i Hi; apply H; lia).
    rewrite Csum_n_zero. ring.
  - rewrite (IH j) by (try lia; intros i Hi Hij; apply H; lia).
    rewrite (H n) by lia. ring.
Qed.

Lemma Csum_n_product (f g : nat -> C) (M N : nat) :
  Csum_n (fun k => Csum_n (fun l => Cmul (f k) (g l)) N) M
  = Cmul (Csum_n f M) (Csum_n g N).
Proof.
  rewrite <- Csum_n_mul_r. apply Csum_n_ext. intros k _.
  apply Csum_n_mul_l.
Qed.

(** A circular rotation of the index does not change the sum. *)
Lemma Csum_n_rotate_one (h : nat -> C) (M : nat) :
  Csum_n (fun m => h ((m + 1) mod M)%nat) M = Csum_n h M.
Proof.
  destruct M as [|M]; [reflexivity|].
  rewrite (Csum_n_shift h).
  change (Csum_n (fun m => h ((m + 1) mod S M)%nat) (S M))
    with (Cadd (Csum_n (fun m => h ((m + 1) mod S M)%nat) M)
               (h ((M + 1) mod S M)%nat)).
  replace ((M + 1) mod S M)%nat with 0%nat
    by (replace (M + 1)%nat with (S M) by lia; rewrite Nat.Div0.mod_same; reflexivity).
  rewrite (Csum_n_ext (fun m => h ((m + 1) mod S M)%nat) (fun i => h (S i))).
  - ring.
  - intros i Hi. rewrite Nat.mod_small by lia. f_equal. lia.
Qed.

Lemma Csum_n_rotate (h : nat -> C) (M c : nat) :
  Csum_n (fun m => h ((m + c) mod M)%nat) M = Csum_n h M.
Proof.
  induction c as [|c IH].
  - apply Csum_n_ext. intros m Hm. rewrite Nat.add_0_r, Nat.mod_small by lia.
    reflexivity.
  - rewrite <- IH.
    rewrite <- (Csum_n_rotate_one (fun m => h ((m + c) mod M)%nat) M).
    apply Csum_n_ext. intros m Hm. f_equal.
    rewrite Nat.Div0.add_mod_idemp_l. f_equal. lia.
Qed.

(** ** Roots of unity *)

Lemma Cpow_one (n : nat) : Cpow C1 n = C1.
Proof. induction n as [|n IH]; simpl; [reflexivity|]. rewrite IH. ring. Qed.

Lemma Cpow_mul (a b : C) (n : nat) : Cpow (Cmul a b) n = Cmul (Cpow a n) (Cpow b n).
Proof. induction n as [|n IH]; simpl; [ring|]. rewrite IH. ring. Qed.

Lemma geometric_sum (z : C) (n : nat) :
  Cmul (Csub z C1) (Csum_n (Cpow z) n) = Csub (Cpow z n) C1.
Proof.
  induction n as [|n IH]; simpl; [ring|].
  replace (Cmul (Csub z C1) (Cadd (Csum_n (Cpow z) n) (Cpow z n)))
    with (Cadd (Cmul (Csub z C1) (Csum_n (Cpow z) n))
               (Cmul (Csub z C1) (Cpow z n))) by ring.
  rewrite IH. ring.
Qed.

Lemma Csum_n_one (n : nat) : Csum_n (fun _ => C1) n = RtoC (INR n).
Proof.
  induction n as [|n IH]; [reflexivity|].
  change (Csum_n (fun _ => C1) (S n)) with (Cadd (Csum_n (fun _ => C1) n) C1).
  rewrite IH, S_INR. unfold Cadd, RtoC, C1. simpl. f_equal; ring.
Qed.

Lemma cis_0 : cis 0 = C1.
Proof. unfold cis, C1. rewrite cos_0, sin_0. reflexivity. Qed.

Lemma cis_plus (a b : R) : cis (a + b) = Cmul (cis a) (cis b).
Proof.
  unfold cis, Cmul. simpl. rewrite cos_plus, sin_plus. f_equal; ring.
Qed.

Lemma cis_conj (a : R) : Cconj (cis a) = cis (- a).
Proof. unfold cis, Cconj. simpl. rewrite cos_neg, sin_neg. reflexivity. Qed.

Lemma Cabs_cis (a : R) : Cabs (cis a) = 1.
Proof.
  unfold Cabs, cis. simpl. rewrite cos2_sin2_one. apply sqrt_1.
Qed.

Lemma cis_2PI (sgn : R) : sgn = 1 \/ sgn = - 1 -> cis (sgn * (2 * PI)) = C1.
Proof.
  intros [->| ->]; unfold cis, C1.
  - rewrite Rmult_1_l, cos_2PI, sin_2PI. reflexivity.
  - replace (-1 * (2 * PI)) with (- (2 * PI)) by ring.
    rewrite cos_neg, sin_neg, cos_2PI, sin_2PI. f_equal. ring.
Qed.

Lemma cos_eq_1_small (t : R) : - (2 * PI) < t < 2 * PI -> cos t = 1 -> t = 0.
Proof.
  intros [Hlo Hhi] Hcos.
  replace t with (2 * (t / 2)) in Hcos by field.
  rewrite cos_2a_sin in Hcos.
  assert (Hsin : sin (t / 2) = 0) by nra.
  destruct (Rtotal_order t 0) as [Hneg|[Hz|Hpos]]; [|assumption|].
  - assert (sin (t / 2) < 0) by (apply sin_lt_0_var; lra). lra.
  - assert (0 < sin (t / 2)) by (apply sin_gt_0; lra). lra.
Qed.

Lemma twiddle_0 (sgn : R) (N : nat) : twiddle sgn N 0 = C1.
Proof.
  unfold twiddle. simpl INR.
  replace (sgn * (2 * PI * 0 / INR N)) with 0 by (unfold Rdiv; ring).
  apply cis_0.
Qed.

Lemma twiddle_plus (sgn : R) (N i j : nat) :
  twiddle sgn N (i + j) = Cmul (twiddle sgn N i) (twiddle sgn N j).
Proof.
  unfold twiddle. rewrite <- cis_plus. f_equal. rewrite plus_INR. unfold Rdiv. ring.
Qed.

Lemma twiddle_turn (sgn : R) (N : nat) :
  sgn = 1 \/ sgn = - 1 -> (0 < N)%nat -> twiddle sgn N N = C1.
Proof.
  intros Hs HN. unfold twiddle.
  replace (sgn * (2 * PI * INR N / INR N)) with (sgn * (2 * PI)).
  - apply cis_2PI. assumption.
  - field. apply not_0_INR. lia.
Qed.

Lemma twiddle_turns (sgn : R) (N q : nat) :
  sgn = 1 \/ sgn = - 1 -> (0 < N)%nat -> twiddle sgn N (q * N) = C1.
Proof.
  intros Hs HN. induction q as [|q IH]; [apply twiddle_0|].
  simpl. rewrite twiddle_plus, IH, twiddle_turn by assumption. ring.
Qed.

Lemma twiddle_mod (sgn : R) (N j : nat) :
  sgn = 1 \/ sgn = - 1 -> (0 < N)%nat ->
  twiddle sgn N (j mod N) = twiddle sgn N j.
Proof.
  intros Hs HN. rewrite (Nat.div_mod_eq j N) at 2.
  rewrite twiddle_plus, (Nat.mul_comm N), twiddle_turns by assumption. ring.
Qed.

Lemma twiddle_congr (sgn : R) (N i j : nat) :
  sgn = 1 \/ sgn = - 1 -> (0 < N)%nat ->
  (i mod N = j mod N)%nat -> twiddle sgn N i = twiddle sgn N j.
Proof.
  intros Hs HN H.
  rewrite <- (twiddle_mod sgn N i), <- (twiddle_mod sgn N j) by assumption.
  rewrite H. reflexivity.
Qed.

Lemma twiddle_pow (sgn : R) (N j k : nat) :
  twiddle sgn N (k * j) = Cpow (twiddle sgn N j) k.
Proof.
  induction k as [|k IH]; [apply twiddle_0|].
  simpl. rewrite twiddle_plus, IH. reflexivity.
Qed.

Lemma twiddle_inverse (N j : nat) :
  Cmul (twiddle (- 1) N j) (twiddle 1 N j) = C1.
Proof.
  unfold twiddle. rewrite <- cis_plus.
  replace (-1 * (2 * PI * INR j / INR N) + 1 * (2 * PI * INR j / INR N)) with 0 by ring.
  apply cis_0.
Qed.

Lemma Cabs_twiddle (sgn : R) (N j : nat) : Cabs (twiddle sgn N j) = 1.
Proof. apply Cabs_cis. Qed.

Lemma twiddle_pair_not_one (N s m : nat) :
  (s < N)%nat -> (m < N)%nat -> m <> s ->
  Cmul (twiddle (- 1) N s) (twiddle 1 N m) <> C1.
Proof.
  intros Hs Hm Hne Heq. unfold twiddle in Heq. rewrite <- cis_plus in Heq.
  pose proof PI_RGT_0 as Hpi.
  assert (HN : 0 < INR N) by (apply lt_0_INR; lia).
  assert (Hs' : 0 <= INR s < INR N) by (split; [apply pos_INR | apply lt_INR; assumption]).
  assert (Hm' : 0 <= INR m < INR N) by (split; [apply pos_INR | apply lt_INR; assumption]).
  set (d := (INR m - INR s) / INR N).
  assert (Hd : -1 < d < 1).
  { unfold d. split.
    - apply Rmult_lt_reg_r with (INR N); [assumption|].
      unfold Rdiv. rewrite Rmult_assoc, Rinv_l by lra. lra.
    - apply Rmult_lt_reg_r with (INR N); [assumption|].
      unfold Rdiv. rewrite Rmult_assoc, Rinv_l by lra. lra. }
  replace (-1 * (2 * PI * INR s / INR N) + 1 * (2 * PI * INR m / INR N))
    with (2 * PI * d) in Heq by (unfold d; field; lra).
  unfold cis, C1 in Heq. injection Heq as Hcos _.
  apply cos_eq_1_small in Hcos; [|nra].
  assert (Hd0 : d = 0) by nra.
  unfold d in Hd0.
  assert (INR m - INR s = 0).
  { apply Rmult_eq_reg_r with (/ INR N); [|apply Rinv_neq_0_compat; lra].
    unfold Rdiv in Hd0. lra. }
  apply Hne. apply INR_eq. lra.
Qed.

(** The rows of the transform matrix are orthogonal. *)
Lemma twiddle_orthogonal (N s m : nat) :
  (s < N)%nat -> (m < N)%nat ->
  Csum_n (fun k => Cmul (twiddle (- 1) N (k * s)) (twiddle 1 N (m * k))) N
  = if (m =? s)%nat then RtoC (INR N) else C0.
Proof.
  intros Hs Hm.
  set (z := Cmul (twiddle (- 1) N s) (twiddle 1 N m)).
  rewrite (Csum_n_ext _ (Cpow z)).
  2:{ intros k _. unfold z. rewrite Cpow_mul, <- !twiddle_pow.
      rewrite (Nat.mul_comm m k). reflexivity. }
  destruct (Nat.eqb_spec m s) as [->|Hne].
  - unfold z. rewrite twiddle_inverse.
    rewrite (Csum_n_ext _ (fun _ => C1)) by (intros; apply Cpow_one).
    apply Csum_n_one.
  - pose proof (geometric_sum z N) as Hgeo.
    assert (HzN : Cpow z N = C1).
    { unfold z. rewrite Cpow_mul, <- !twiddle_pow.
      rewrite (Nat.mul_comm N s), (Nat.mul_comm N m).
      rewrite !twiddle_turns by (auto; lia). ring. }
    rewrite HzN in Hgeo. replace (Csub C1 C1) with C0 in Hgeo by ring.
    apply Cmul_integral in Hgeo. destruct Hgeo as [Hz|Hsum]; [|assumption].
    exfalso. apply (twiddle_pair_not_one N s m Hs Hm Hne). fold z.
    replace z with (Cadd (Csub z C1) C1) by ring. rewrite Hz. ring.
Qed.

(** ** Arrays given by their entries *)

Lemma nth_map_seq {A : Type} (f : nat -> A) (n i : nat) (d : A) :
  (i < n)%nat -> nth i (map f (seq 0 n)) d = f i.
Proof.
  intro H. rewrite (nth_indep _ d (f 0%nat)) by (rewrite length_map, length_seq; assumption).
  rewrite map_nth, seq_nth by assumption. reflexivity.
Qed.

Lemma at2_tabulate {A : Type} (F : nat -> nat -> A) (M N k l : nat) (d : A) :
  (k < M)%nat -> (l < N)%nat ->
  at2 d (map (fun k => map (fun l => F k l) (seq 0 N)) (seq 0 M)) k l = F k l.
Proof.
  intros Hk Hl. unfold at2. rewrite nth_map_seq by assumption.
  apply nth_map_seq. assumption.
Qed.

Lemma has_shape_tabulate {A : Type} (F : nat -> nat -> A) (M N : nat) :
  has_shape M N (map (fun k => map (fun l => F k l) (seq 0 N)) (seq 0 M)).
Proof.
  split; [rewrite length_map, length_seq; reflexivity|].
  intros k Hk. rewrite nth_map_seq by assumption.
  rewrite length_map, length_seq. reflexivity.
Qed.

Lemma ncols_shape {A : Type} (M N : nat) (g : grid A) :
  has_shape M N g -> (0 < M)%nat -> ncols g = N.
Proof.
  intros [Hlen Hrows] HM. unfold ncols.
  specialize (Hrows 0%nat HM). destruct g; [simpl in Hlen; lia | exact Hrows].
Qed.

Lemma has_shape_map {A B : Type} (f : A -> B) (M N : nat) (g : grid A) :
  has_shape M N g -> has_shape M N (map (map f) g).
Proof.
  intros [Hlen Hrows]. split; [rewrite length_map; assumption|].
  intros k Hk. rewrite (nth_indep _ [] (map f [])) by (rewrite length_map; lia).
  rewrite map_nth, length_map. apply Hrows. assumption.
Qed.

Lemma at2_map {A B : Type} (f : A -> B) (M N i j : nat) (g : grid A) (d : A) (d' : B) :
  has_shape M N g -> (i < M)%nat -> (j < N)%nat ->
  at2 d' (map (map f) g) i j = f (at2 d g i j).
Proof.
  intros [Hlen Hrows] Hi Hj. unfold at2.
  rewrite (nth_indep _ [] (map f [])) by (rewrite length_map; lia).
  rewrite map_nth.
  rewrite (nth_indep _ d' (f d)) by (rewrite length_map, Hrows; assumption).
  apply map_nth.
Qed.

(** A grid is the table of its entries. *)
Lemma grid_tabulate {A : Type} (M N : nat) (g : grid A) (d : A) :
  has_shape M N g ->
  g = map (fun k => map (fun l => at2 d g k l) (seq 0 N)) (seq 0 M).
Proof.
  intros [Hlen Hrows].
  apply (nth_ext _ _ [] []).
  - rewrite length_map, length_seq. assumption.
  - intros k Hk. rewrite Hlen in Hk. rewrite nth_map_seq by assumption.
    apply (nth_ext _ _ d d).
    + rewrite length_map, length_seq. apply Hrows. assumption.
    + intros l Hl. rewrite Hrows in Hl by assumption.
      rewrite nth_map_seq by assumption. reflexivity.
Qed.

Lemma tabulate_ext {A : Type} (F G : nat -> nat -> A) (M N : nat) :
  (forall k l, (k < M)%nat -> (l < N)%nat -> F k l = G k l) ->
  map (fun k => map (fun l => F k l) (seq 0 N)) (seq 0 M)
  = map (fun k => map (fun l => G k l) (seq 0 N)) (seq 0 M).
Proof.
  intro H. apply map_ext_in. intros k Hk. apply in_seq in Hk.
  apply map_ext_in. intros l Hl. apply in_seq in Hl. apply H; lia.
Qed.

Lemma zip_with_map {A B D E : Type} (f : A -> B -> D) (F : E -> A) (G : E -> B)
    (l : list E) :
  zip_with f (map F l) (map G l) = map (fun i => f (F i) (G i)) l.
Proof. induction l as [|e l IH]; simpl; [reflexivity|]. rewrite IH. reflexivity. Qed.

(** The transform as a table. *)
Lemma dft2_tabulate (sgn : R) (a : grid C) (M N : nat) :
  has_shape M N a -> (0 < M)%nat ->
  dft2 sgn a
  = map (fun k =>
           map (fun l =>
                  Csum_n (fun m =>
                    Csum_n (fun n =>
                      Cmul (at2 C0 a m n)
                           (Cmul (twiddle sgn M (k * m)) (twiddle sgn N (l * n))))
                      N)
                    M)
               (seq 0 N))
        (seq 0 M).
Proof.
  intros Hshape HM. unfold dft2.
  rewrite (ncols_shape M N a Hshape HM). unfold nrows.
  destruct Hshape as [-> _]. reflexivity.
Qed.

(** ** The shift theorem *)

Lemma shifted_index_congr (N l t n : nat) :
  (0 < N)%nat -> (t < N)%nat ->
  ((l * t + l * ((n + (N - t)) mod N)) mod N = (l * n) mod N)%nat.
Proof.
  intros HN Ht.
  rewrite <- Nat.mul_add_distr_l.
  rewrite <- (Nat.Div0.mul_mod_idemp_r l (t + (n + (N - t)) mod N)).
  rewrite Nat.Div0.add_mod_idemp_r.
  replace (t + (n + (N - t)))%nat with (n + 1 * N)%nat by lia.
  rewrite Nat.Div0.mod_add.
  rewrite Nat.Div0.mul_mod_idemp_r. reflexivity.
Qed.

Lemma dft_shift_1d (g : nat -> C) (N l t : nat) :
  (0 < N)%nat -> (t < N)%nat ->
  Csum_n (fun n => Cmul (g ((n + (N - t)) mod N)%nat) (twiddle (- 1) N (l * n))) N
  = Cmul (twiddle (- 1) N (l * t))
         (Csum_n (fun i => Cmul (g i) (twiddle (- 1) N (l * i))) N).
Proof.
  intros HN Ht. rewrite <- Csum_n_mul_l.
  rewrite <- (Csum_n_rotate
                (fun i => Cmul (twiddle (- 1) N (l * t))
                               (Cmul (g i) (twiddle (- 1) N (l * i))))
                N (N - t)).
  apply Csum_n_ext. intros n Hn.
  rewrite <- (twiddle_congr (- 1) N _ _ (or_intror eq_refl) HN
                (shifted_index_congr N l t n HN Ht)).
  rewrite twiddle_plus. ring.
Qed.

Lemma circular_shift_tabulate (a : image) (M N s t : nat) :
  has_shape M N a -> (0 < M)%nat -> (s < M)%nat -> (t < N)%nat ->
  circular_shift s t a
  = map (fun m =>
           map (fun n => pixel a ((m + (M - s)) mod M) ((n + (N - t)) mod N))
               (seq 0 N))
        (seq 0 M).
Proof.
  intros Hshape HM Hs Ht. unfold circular_shift.
  rewrite (ncols_shape M N a Hshape HM). unfold nrows.
  destruct Hshape as [-> _].
  rewrite (Nat.mod_small s M), (Nat.mod_small t N) by assumption. reflexivity.
Qed.

Lemma has_shape_circular_shift (a : image) (M N s t : nat) :
  has_shape M N a -> (0 < M)%nat -> (s < M)%nat -> (t < N)%nat ->
  has_shape M N (circular_shift s t a).
Proof.
  intros Hshape HM Hs Ht.
  rewrite (circular_shift_tabulate a M N s t) by assumption.
  apply has_shape_tabulate.
Qed.

Lemma np_fft2_entry (a : image) (M N k l : nat) :
  has_shape M N a -> (0 < M)%nat -> (k < M)%nat -> (l < N)%nat ->
  at2 C0 (np_fft2 a) k l
  = Csum_n (fun m =>
      Csum_n (fun n =>
        Cmul (RtoC (pixel a m n))
             (Cmul (twiddle (- 1) M (k * m)) (twiddle (- 1) N (l * n))))
        N)
      M.
Proof.
  intros Hshape HM Hk Hl. unfold np_fft2.
  rewrite (dft2_tabulate (- 1) _ M N (has_shape_map RtoC M N a Hshape) HM).
  rewrite at2_tabulate by assumption.
  apply Csum_n_ext. intros m Hm. apply Csum_n_ext. intros n Hn.
  rewrite (at2_map RtoC M N m n a 0 C0) by assumption. reflexivity.
Qed.

(** Shifting an image circularly by [(s, t)] multiplies the bin [(k, l)] of
    its transform by [exp(-2 pi i (k s / M + l t / N))]. *)
Lemma fft2_circular_shift (a : image) (M N s t k l : nat) :
  has_shape M N a -> (0 < M)%nat -> (0 < N)%nat -> (s < M)%nat -> (t < N)%nat ->
  (k < M)%nat -> (l < N)%nat ->
  at2 C0 (np_fft2 (circular_shift s t a)) k l
  = Cmul (Cmul (twiddle (- 1) M (k * s)) (twiddle (- 1) N (l * t)))
         (at2 C0 (np_fft2 a) k l).
Proof.
  intros Hshape HM HN Hs Ht Hk Hl.
  rewrite (np_fft2_entry _ M N k l
             (has_shape_circular_shift a M N s t Hshape HM Hs Ht) HM Hk Hl).
  rewrite (np_fft2_entry a M N k l Hshape HM Hk Hl).
  set (H := fun j : nat =>
              Csum_n (fun i => Cmul (RtoC (pixel a j i)) (twiddle (- 1) N (l * i))) N).
  transitivity
    (Csum_n (fun m =>
       Cmul (Cmul (twiddle (- 1) N (l * t)) (H ((m + (M - s)) mod M)%nat))
            (twiddle (- 1) M (k * m))) M).
  - apply Csum_n_ext. intros m Hm. unfold H.
    rewrite <- (dft_shift_1d (fun i => RtoC (pixel a ((m + (M - s)) mod M) i))
                  N l t HN Ht).
    rewrite <- Csum_n_mul_r. apply Csum_n_ext. intros n Hn.
    rewrite (circular_shift_tabulate a M N s t) by assumption.
    unfold pixel at 1. rewrite at2_tabulate by assumption. ring.
  - rewrite (dft_shift_1d (fun j => Cmul (twiddle (- 1) N (l * t)) (H j)) M k s HM Hs).
    rewrite (Csum_n_ext
               (fun i => Cmul (Cmul (twiddle (- 1) N (l * t)) (H i))
                              (twiddle (- 1) M (k * i)))
               (fun i => Cmul (twiddle (- 1) N (l * t))
                              (Cmul (H i) (twiddle (- 1) M (k * i)))))
      by (intros; ring).
    rewrite Csum_n_mul_l.
    rewrite (Csum_n_ext
               (fun m => Csum_n (fun n =>
                  Cmul (RtoC (pixel a m n))
                       (Cmul (twiddle (- 1) M (k * m)) (twiddle (- 1) N (l * n)))) N)
               (fun i => Cmul (H i) (twiddle (- 1) M (k * i)))).
    + ring.
    + intros m Hm. unfold H. rewrite <- Csum_n_mul_r.
      apply Csum_n_ext. intros n Hn. ring.
Qed.

(** ** The correlation surface of a shifted image *)

Lemma map_tabulate {A B : Type} (f : A -> B) (F : nat -> nat -> A) (M N : nat) :
  map (map f) (map (fun k => map (fun l => F k l) (seq 0 N)) (seq 0 M))
  = map (fun k => map (fun l => f (F k l)) (seq 0 N)) (seq 0 M).
Proof.
  rewrite map_map. apply map_ext. intro k. rewrite map_map. reflexivity.
Qed.

Lemma has_shape_np_fft2 (a : image) (M N : nat) :
  has_shape M N a -> (0 < M)%nat -> has_shape M N (np_fft2 a).
Proof.
  intros Hshape HM. unfold np_fft2.
  rewrite (dft2_tabulate (- 1) _ M N (has_shape_map RtoC M N a Hshape) HM).
  apply has_shape_tabulate.
Qed.

Lemma cross_power_tabulate (img1 img2 : image) (M N : nat) :
  has_shape M N img1 -> has_shape M N img2 -> (0 < M)%nat ->
  cross_power img1 img2
  = map (fun k =>
           map (fun l => Cmul (at2 C0 (np_fft2 img2) k l)
                              (Cconj (at2 C0 (np_fft2 img1) k l)))
               (seq 0 N))
        (seq 0 M).
Proof.
  intros H1 H2 HM. unfold cross_power.
  pose proof (grid_tabulate M N (np_fft2 img1) C0 (has_shape_np_fft2 img1 M N H1 HM)) as E1.
  pose proof (grid_tabulate M N (np_fft2 img2) C0 (has_shape_np_fft2 img2 M N H2 HM)) as E2.
  set (F1 := np_fft2 img1) in *. set (F2 := np_fft2 img2) in *.
  rewrite E1 at 1. rewrite E2 at 1.
  rewrite zip_with_map. apply map_ext. intro k.
  apply (zip_with_map (fun b a => Cmul b (Cconj a))
           (fun l => at2 C0 F2 k l) (fun l => at2 C0 F1 k l)).
Qed.

(** A bin [w |F|^2] with [|w| = 1] and [F <> 0] is normalised to [w]. *)
Lemma normalize_phase (w F : C) :
  Cabs w = 1 -> F <> C0 ->
  normalize_bin (Cmul (Cmul w F) (Cconj F)) = CFinite w.
Proof.
  intros Hw HF. pose proof (Cnorm2_pos F HF) as Hr.
  set (r := fst F * fst F + snd F * snd F) in *.
  assert (Hp : Cmul (Cmul w F) (Cconj F) = Cscale r w).
  { replace (Cmul (Cmul w F) (Cconj F)) with (Cmul (Cmul F (Cconj F)) w) by ring.
    rewrite Cmul_conj. fold r. symmetry. apply Cscale_mul. }
  rewrite Hp. unfold normalize_bin.
  rewrite Cabs_scale, Hw, Rmult_1_r by lra.
  rewrite Reqb_false by lra. f_equal.
  destruct w as [u v]. unfold Cscale. simpl. f_equal; field; lra.
Qed.

Lemma forallb_tabulate_finite (w : nat -> nat -> C) (M N : nat) :
  forallb (forallb is_cfinite)
          (map (fun k => map (fun l => CFinite (w k l)) (seq 0 N)) (seq 0 M)) = true.
Proof.
  apply forallb_forall. intros row Hrow. apply in_map_iff in Hrow.
  destruct Hrow as [k [<- _]]. apply forallb_forall. intros z Hz.
  apply in_map_iff in Hz. destruct Hz as [l [<- _]]. reflexivity.
Qed.

(** The inverse transform of a pure phase ramp is a unit impulse. *)
Lemma inverse_of_phase_ramp (M N s t m n : nat) :
  (s < M)%nat -> (t < N)%nat -> (m < M)%nat -> (n < N)%nat ->
  Csum_n (fun k =>
    Csum_n (fun l =>
      Cmul (Cmul (twiddle (- 1) M (k * s)) (twiddle (- 1) N (l * t)))
           (Cmul (twiddle 1 M (m * k)) (twiddle 1 N (n * l))))
      N)
    M
  = if ((m =? s) && (n =? t))%nat then RtoC (INR M * INR N) else C0.
Proof.
  intros Hs Ht Hm Hn.
  rewrite (Csum_n_ext _
             (fun k => Csum_n (fun l =>
                Cmul (Cmul (twiddle (- 1) M (k * s)) (twiddle 1 M (m * k)))
                     (Cmul (twiddle (- 1) N (l * t)) (twiddle 1 N (n * l)))) N))
    by (intros k _; apply Csum_n_ext; intros l _; ring).
  rewrite (Csum_n_product
             (fun k => Cmul (twiddle (- 1) M (k * s)) (twiddle 1 M (m * k)))
             (fun l => Cmul (twiddle (- 1) N (l * t)) (twiddle 1 N (n * l)))).
  rewrite !twiddle_orthogonal by assumption.
  destruct (m =? s)%nat, (n =? t)%nat; simpl; try ring.
  apply RtoC_mul.
Qed.

Lemma nrows_tabulate {A : Type} (F : nat -> nat -> A) (M N : nat) :
  nrows (map (fun k => map (fun l => F k l) (seq 0 N)) (seq 0 M)) = M.
Proof. unfold nrows. rewrite length_map, length_seq. reflexivity. Qed.

Lemma ncols_tabulate {A : Type} (F : nat -> nat -> A) (M N : nat) :
  (0 < M)%nat ->
  ncols (map (fun k => map (fun l => F k l) (seq 0 N)) (seq 0 M)) = N.
Proof. intro HM. apply (ncols_shape M N); [apply has_shape_tabulate | assumption]. Qed.

Lemma correlation_surface_shift (a : image) (M N s t : nat) :
  has_shape M N a -> (0 < M)%nat -> (0 < N)%nat -> (s < M)%nat -> (t < N)%nat ->
  (forall k l, (k < M)%nat -> (l < N)%nat -> at2 C0 (np_fft2 a) k l <> C0) ->
  correlation_surface a (circular_shift s t a) = Ok (impulse M N s t).
Proof.
  intros Hshape HM HN Hs Ht Hspec.
  pose proof (has_shape_circular_shift a M N s t Hshape HM Hs Ht) as Hshape'.
  unfold correlation_surface.
  replace (nrows (circular_shift s t a)) with M by (symmetry; apply Hshape').
  rewrite (ncols_shape M N _ Hshape' HM).
  replace (nrows a) with M by (symmetry; apply Hshape).
  rewrite (ncols_shape M N _ Hshape HM).
  rewrite !Nat.eqb_refl.
  replace (M =? 0)%nat with false by (symmetry; apply Nat.eqb_neq; lia).
  replace (N =? 0)%nat with false by (symmetry; apply Nat.eqb_neq; lia).
  cbn [orb negb].
  rewrite (cross_power_tabulate a (circular_shift s t a) M N Hshape Hshape' HM).
  rewrite map_tabulate.
  rewrite (tabulate_ext _
             (fun k l => CFinite (Cmul (twiddle (- 1) M (k * s))
                                       (twiddle (- 1) N (l * t)))) M N).
  2:{ intros k l Hk Hl. rewrite (fft2_circular_shift a M N s t k l) by assumption.
      apply normalize_phase; [|apply Hspec; assumption].
      unfold twiddle. rewrite <- cis_plus. apply Cabs_cis. }
  unfold np_ifft2. rewrite forallb_tabulate_finite.
  rewrite (map_tabulate cvalue). cbn [cvalue].
  rewrite (map_ext _ (map (fun z => CFinite (Cscale (/ (INR M * INR N)) z)))).
  2:{ intro row. apply map_ext. intro z.
      rewrite nrows_tabulate, ncols_tabulate by assumption. reflexivity. }
  rewrite (dft2_tabulate 1 _ M N (has_shape_tabulate _ M N) HM).
  rewrite !map_tabulate. unfold impulse. apply f_equal.
  apply tabulate_ext. intros m n Hm Hn. cbn [np_abs]. f_equal.
  rewrite (Csum_n_ext _
             (fun k => Csum_n (fun l =>
                Cmul (Cmul (twiddle (- 1) M (k * s)) (twiddle (- 1) N (l * t)))
                     (Cmul (twiddle 1 M (m * k)) (twiddle 1 N (n * l)))) N)).
  2:{ intros k Hk. apply Csum_n_ext. intros l Hl.
      rewrite at2_tabulate by assumption. reflexivity. }
  rewrite inverse_of_phase_ramp by assumption.
  assert (HMN : 0 < INR M * INR N)
    by (apply Rmult_lt_0_compat; apply lt_0_INR; assumption).
  destruct ((m =? s) && (n =? t))%nat.
  - rewrite Cabs_scale by (left; apply Rinv_0_lt_compat; assumption).
    rewrite Cabs_RtoC by (left; exact HMN).
    apply Rinv_l. apply Rgt_not_eq. exact HMN.
  - rewrite Cabs_scale by (left; apply Rinv_0_lt_compat; assumption).
    replace (Cabs C0) with 0 by (symmetry; apply Cabs_zero_iff; reflexivity).
    ring.
Qed.

(** ** The peak of an impulse *)

Lemma filter_none {A : Type} (p : A -> bool) (l : list A) :
  (forall j, In j l -> p j = false) -> filter p l = [].
Proof.
  induction l as [|a l IH]; intro H; simpl; [reflexivity|].
  rewrite (H a) by (left; reflexivity). apply IH. intros j Hj. apply H. right. assumption.
Qed.

Lemma filter_unique {A : Type} (p : A -> bool) (l : list A) (t : A) :
  NoDup l -> In t l -> (forall j, In j l -> (p j = true <-> j = t)) ->
  filter p l = [t].
Proof.
  induction l as [|a l IH]; intros Hnd Hin Hp; [contradiction|].
  inversion Hnd as [|a' l' Hnotin Hnd']; subst. simpl.
  destruct Hin as [->|Hin].
  - assert (Ht : p t = true) by (apply Hp; [left|]; reflexivity).
    rewrite Ht. f_equal. apply filter_none. intros j Hj.
    destruct (p j) eqn:Hpj; [|reflexivity].
    apply Hp in Hpj; [|right; assumption]. subst. contradiction.
  - assert (Ha : p a = false).
    { destruct (p a) eqn:Hpa; [|reflexivity].
      apply Hp in Hpa; [|left; reflexivity]. subst. contradiction. }
    rewrite Ha. apply IH; try assumption.
    intros j Hj. apply Hp. right. assumption.
Qed.

Lemma flat_map_unique {A B : Type} (f : A -> list B) (l : list A) (s : A) :
  NoDup l -> In s l -> (forall i, In i l -> i <> s -> f i = []) ->
  flat_map f l = f s.
Proof.
  induction l as [|a l IH]; intros Hnd Hin Hf; [contradiction|].
  inversion Hnd as [|a' l' Hnotin Hnd']; subst. simpl.
  destruct Hin as [->|Hin].
  - replace (flat_map f l) with (@nil B); [apply app_nil_r|].
    symmetry. clear IH Hnd Hnd'. induction l as [|b l IH]; [reflexivity|].
    simpl. rewrite (Hf b); [|right; left; reflexivity|].
    + apply IH.
      * intro H. apply Hnotin. right. assumption.
      * intros i [->|Hi] Hne; apply Hf; try assumption;
          [left; reflexivity | right; right; assumption].
    + intros ->. apply Hnotin. left. reflexivity.
  - rewrite (Hf a); [|left; reflexivity|].
    + apply IH; try assumption. intros i Hi. apply Hf. right. assumption.
    + intros ->. contradiction.
Qed.

Lemma fold_maximum_unit (l : list npfloat) (x : R) :
  (forall e, In e l -> e = Finite 0 \/ e = Finite 1) ->
  x = 0 \/ x = 1 ->
  x = 1 \/ In (Finite 1) l ->
  fold_left np_maximum l (Finite x) = Finite 1.
Proof.
  revert x. induction l as [|e l IH]; intros x Hl Hx Hone.
  - destruct Hone as [->|[]]. reflexivity.
  - cbn [fold_left].
    assert (He : e = Finite 0 \/ e = Finite 1) by (apply Hl; left; reflexivity).
    assert (Hmax : exists y, np_maximum (Finite x) e = Finite y
                              /\ (y = 0 \/ y = 1)
                              /\ (x = 1 \/ e = Finite 1 -> y = 1)).
    { destruct He as [->| ->]; simpl np_maximum; eexists; (split; [reflexivity|]);
        unfold Rmax; destruct Hx as [->| ->]; destruct (Rle_dec _ _); split;
          try (left; reflexivity); try (right; reflexivity);
          try (intros [H|H]; try reflexivity; try lra; try (injection H; lra)). }
    destruct Hmax as [y [-> [Hy Hy1]]].
    apply IH; [intros e' He'; apply Hl; right; assumption | assumption |].
    destruct Hone as [Hx1|[He1|Hin]]; [left; apply Hy1; left; assumption
                                      | left; apply Hy1; right; assumption
                                      | right; assumption].
Qed.

Lemma impulse_entries (M N s t : nat) (e : npfloat) :
  In e (concat (impulse M N s t)) -> e = Finite 0 \/ e = Finite 1.
Proof.
  intro H. apply in_concat in H. destruct H as [row [Hrow He]].
  unfold impulse in Hrow. apply in_map_iff in Hrow. destruct Hrow as [m [<- _]].
  apply in_map_iff in He. destruct He as [n [<- _]].
  destruct ((m =? s) && (n =? t))%nat; [right | left]; reflexivity.
Qed.

Lemma impulse_has_one (M N s t : nat) :
  (s < M)%nat -> (t < N)%nat -> In (Finite 1) (concat (impulse M N s t)).
Proof.
  intros Hs Ht. apply in_concat.
  exists (map (fun n => Finite (if ((s =? s) && (n =? t))%nat then 1 else 0)) (seq 0 N)).
  split.
  - unfold impulse.
    apply (in_map (fun m => map (fun n => Finite (if ((m =? s) && (n =? t))%nat
                                                  then 1 else 0)) (seq 0 N))).
    apply in_seq. lia.
  - replace (Finite 1) with (Finite (if ((s =? s) && (t =? t))%nat then 1 else 0))
      by (rewrite !Nat.eqb_refl; reflexivity).
    apply (in_map (fun n => Finite (if ((s =? s) && (n =? t))%nat then 1 else 0))).
    apply in_seq. lia.
Qed.

Lemma np_amax_impulse (M N s t : nat) :
  (s < M)%nat -> (t < N)%nat -> np_amax (impulse M N s t) = Finite 1.
Proof.
  intros Hs Ht. unfold np_amax.
  pose proof (impulse_entries M N s t) as Hall.
  pose proof (impulse_has_one M N s t Hs Ht) as Hone.
  destruct (concat (impulse M N s t)) as [|v l]; [contradiction|].
  destruct (Hall v (or_introl eq_refl)) as [->| ->].
  - apply fold_maximum_unit.
    + intros e He. apply Hall. right. assumption.
    + left. reflexivity.
    + destruct Hone as [H|H]; [injection H; lra | right; assumption].
  - apply fold_maximum_unit.
    + intros e He. apply Hall. right. assumption.
    + right. reflexivity.
    + left. reflexivity.
Qed.

Lemma np_where_eq_impulse (M N s t : nat) :
  (s < M)%nat -> (t < N)%nat ->
  np_where_eq (impulse M N s t) (Finite 1) = [(s, t)].
Proof.
  intros Hs Ht. unfold np_where_eq.
  replace (length (impulse M N s t)) with M
    by (unfold impulse; rewrite length_map, length_seq; reflexivity).
  assert (Hrow : forall i, (i < M)%nat ->
            filter (fun j => npfloat_eqb (at2 NaN (impulse M N s t) i j) (Finite 1))
                   (seq 0 (length (nth i (impulse M N s t) [])))
            = if (i =? s)%nat then [t] else []).
  { intros i Hi.
    replace (length (nth i (impulse M N s t) [])) with N
      by (unfold impulse; rewrite nth_map_seq by assumption;
          rewrite length_map, length_seq; reflexivity).
    assert (Hval : forall j, In j (seq 0 N) ->
              npfloat_eqb (at2 NaN (impulse M N s t) i j) (Finite 1)
              = ((i =? s) && (j =? t))%nat).
    { intros j Hj. apply in_seq in Hj. unfold impulse.
      rewrite at2_tabulate by lia. cbn [npfloat_eqb].
      destruct ((i =? s) && (j =? t))%nat;
        [apply Reqb_true; reflexivity | apply Reqb_false; lra]. }
    destruct (Nat.eqb_spec i s) as [->|Hne].
    - apply filter_unique; [apply seq_NoDup | apply in_seq; lia |].
      intros j Hj. rewrite (Hval j Hj). cbn [andb]. apply Nat.eqb_eq.
    - apply filter_none. intros j Hj. rewrite (Hval j Hj). reflexivity. }
  rewrite (flat_map_unique _ (seq 0 M) s (seq_NoDup M 0)).
  - rewrite Hrow by assumption. rewrite Nat.eqb_refl. reflexivity.
  - apply in_seq. lia.
  - intros i Hi Hne. apply in_seq in Hi. rewrite Hrow by lia.
    apply Nat.eqb_neq in Hne. rewrite Hne. reflexivity.
Qed.

Lemma first_peak_impulse (M N s t : nat) :
  (s < M)%nat -> (t < N)%nat -> first_peak (impulse M N s t) = Ok (s, t).
Proof.
  intros Hs Ht. unfold first_peak.
  rewrite np_amax_impulse, np_where_eq_impulse by assumption. reflexivity.
Qed.

(** ** A zero-magnitude bin *)

Lemma normalize_bin_zero (p : C) : Cabs p = 0 -> normalize_bin p = CNaN.
Proof. intro H. unfold normalize_bin. rewrite Reqb_true by assumption. reflexivity. Qed.

Lemma normalize_bin_nonzero (p : C) :
  p <> C0 ->
  normalize_bin p = CFinite (Cscale (/ Cabs p) p)
  /\ Cabs (Cscale (/ Cabs p) p) = 1.
Proof.
  intro Hp.
  assert (Hne : Cabs p <> 0) by (intro H; apply Hp; apply Cabs_zero_iff; assumption).
  assert (Hpos : 0 < Cabs p).
  { unfold Cabs in *. pose proof (sqrt_pos (fst p * fst p + snd p * snd p)). lra. }
  split.
  - unfold normalize_bin. rewrite Reqb_false by assumption. reflexivity.
  - rewrite Cabs_scale by (left; apply Rinv_0_lt_compat; assumption).
    apply Rinv_l. assumption.
Qed.

Lemma at2_all_nan (g : grid npfloat) (i j : nat) :
  (forall row e, In row g -> In e row -> e = NaN) -> at2 NaN g i j = NaN.
Proof.
  intro H. unfold at2.
  destruct (nth_in_or_default i g []) as [Hrow|Hrow].
  - destruct (nth_in_or_default j (nth i g []) NaN) as [He|He]; [|assumption].
    apply (H _ _ Hrow He).
  - rewrite Hrow. destruct j; reflexivity.
Qed.

Lemma first_peak_all_nan (g : grid npfloat) :
  (forall row e, In row g -> In e row -> e = NaN) -> first_peak g = Raise IndexError.
Proof.
  intro H. unfold first_peak.
  replace (np_where_eq g (np_amax g)) with (@nil (nat * nat)); [reflexivity|].
  symmetry. unfold np_where_eq.
  induction (seq 0 (length g)) as [|i l IH]; [reflexivity|].
  simpl. rewrite IH, app_nil_r.
  rewrite filter_none; [reflexivity|].
  intros j _. rewrite (at2_all_nan g i j H). reflexivity.
Qed.

(** One zero-magnitude bin makes the whole correlation surface NaN. *)
Lemma surface_all_nan (p : grid C) (M N k l : nat) :
  has_shape M N p -> (k < M)%nat -> (l < N)%nat -> Cabs (at2 C0 p k l) = 0 ->
  map (map np_abs) (np_ifft2 (map (map normalize_bin) p))
  = map (map (fun _ => NaN)) p.
Proof.
  intros Hshape Hk Hl Hzero. unfold np_ifft2.
  destruct (forallb (forallb is_cfinite) (map (map normalize_bin) p)) eqn:Hall.
  - exfalso.
    pose proof (has_shape_map normalize_bin M N p Hshape) as [Hlen Hrows].
    assert (Hrow : In (nth k (map (map normalize_bin) p) []) (map (map normalize_bin) p))
      by (apply nth_In; lia).
    assert (Hbin : In (at2 CNaN (map (map normalize_bin) p) k l)
                      (nth k (map (map normalize_bin) p) []))
      by (unfold at2; apply nth_In; rewrite Hrows by assumption; assumption).
    rewrite forallb_forall in Hall. specialize (Hall _ Hrow).
    rewrite forallb_forall in Hall. specialize (Hall _ Hbin).
    rewrite (at2_map normalize_bin M N k l p C0 CNaN Hshape Hk Hl) in Hall.
    rewrite (normalize_bin_zero _ Hzero) in Hall. discriminate.
  - rewrite !map_map. apply map_ext. intro row. rewrite !map_map. reflexivity.
Qed.

Lemma has_shape_cross_power (img1 img2 : image) (M N : nat) :
  has_shape M N img1 -> has_shape M N img2 -> (0 < M)%nat ->
  has_shape M N (cross_power img1 img2).
Proof.
  intros H1 H2 HM. rewrite (cross_power_tabulate img1 img2 M N H1 H2 HM).
  apply has_shape_tabulate.
Qed.

Lemma correlation_surface_guard (img1 img2 : image) (M N : nat) :
  has_shape M N img1 -> has_shape M N img2 -> (0 < M)%nat -> (0 < N)%nat ->
  correlation_surface img1 img2
  = Ok (map (map np_abs)
            (np_ifft2 (map (map normalize_bin) (cross_power img1 img2)))).
Proof.
  intros H1 H2 HM HN. unfold correlation_surface.
  replace (nrows img1) with M by (symmetry; apply H1).
  replace (nrows img2) with M by (symmetry; apply H2).
  rewrite (ncols_shape M N _ H1 HM), (ncols_shape M N _ H2 HM).
  rewrite !Nat.eqb_refl.
  replace (M =? 0)%nat with false by (symmetry; apply Nat.eqb_neq; lia).
  replace (N =? 0)%nat with false by (symmetry; apply Nat.eqb_neq; lia).
  reflexivity.
Qed.

(** With a zero-magnitude bin in the cross-power spectrum the surface is
    NaN everywhere and the peak search finds no position. *)
Lemma zero_bin_raises (img1 img2 : image) (M N k l : nat) :
  has_shape M N img1 -> has_shape M N img2 -> (0 < M)%nat -> (0 < N)%nat ->
  (k < M)%nat -> (l < N)%nat ->
  Cabs (at2 C0 (cross_power img1 img2) k l) = 0 ->
  correlation_surface img1 img2
  = Ok (map (map (fun _ => NaN)) (cross_power img1 img2))
  /\ (forall azimuth_step : R,
         estimate_rotation img1 img2 azimuth_step = Raise IndexError)
  /\ (forall (cart_width2 : Z) (cart_res2 : R),
         estimate_translation img1 img2 cart_width2 cart_res2 = Raise IndexError).
Proof.
  intros H1 H2 HM HN Hk Hl Hzero.
  assert (Hsurf : correlation_surface img1 img2
                  = Ok (map (map (fun _ => NaN)) (cross_power img1 img2))).
  { rewrite (correlation_surface_guard img1 img2 M N H1 H2 HM HN). f_equal.
    apply (surface_all_nan _ M N k l (has_shape_cross_power _ _ M N H1 H2 HM) Hk Hl Hzero). }
  assert (Hpeak : first_peak (map (map (fun _ : C => NaN)) (cross_power img1 img2))
                  = Raise IndexError).
  { apply first_peak_all_nan. intros row e Hrow He.
    apply in_map_iff in Hrow. destruct Hrow as [r [<- _]].
    apply in_map_iff in He. destruct He as [z [<- _]]. reflexivity. }
  split; [assumption|]. split.
  - intro azimuth_step. unfold estimate_rotation. rewrite Hsurf. cbn [bind].
    rewrite Hpeak. reflexivity.
  - intros cart_width2 cart_res2. unfold estimate_translation. rewrite Hsurf.
    cbn [bind]. rewrite Hpeak. reflexivity.
Qed.

(** ** Concrete images *)

Lemma pixel_zeros (M N m n : nat) : pixel (repeat (repeat 0 N) M) m n = 0.
Proof.
  unfold pixel, at2.
  destruct (nth_in_or_default m (repeat (repeat 0 N) M) []) as [Hrow|Hrow].
  - apply repeat_spec in Hrow. rewrite Hrow.
    destruct (nth_in_or_default n (repeat 0 N) 0) as [He|He]; [|assumption].
    apply repeat_spec in He. assumption.
  - rewrite Hrow. destruct n; reflexivity.
Qed.

Lemma np_fft2_zeros (M N k l : nat) :
  (0 < M)%nat -> (k < M)%nat -> (l < N)%nat ->
  at2 C0 (np_fft2 (repeat (repeat 0 N) M)) k l = C0.
Proof.
  intros HM Hk Hl.
  rewrite (np_fft2_entry _ M N k l (has_shape_repeat M N 0) HM Hk Hl).
  rewrite (Csum_n_ext _ (fun _ => C0)); [apply Csum_n_zero|].
  intros m Hm. rewrite (Csum_n_ext _ (fun _ => C0)); [apply Csum_n_zero|].
  intros n Hn. rewrite pixel_zeros. unfold RtoC, Cmul, C0. simpl. f_equal; ring.
Qed.

Lemma cross_power_entry (img1 img2 : image) (M N k l : nat) :
  has_shape M N img1 -> has_shape M N img2 -> (0 < M)%nat ->
  (k < M)%nat -> (l < N)%nat ->
  at2 C0 (cross_power img1 img2) k l
  = Cmul (at2 C0 (np_fft2 img2) k l) (Cconj (at2 C0 (np_fft2 img1) k l)).
Proof.
  intros H1 H2 HM Hk Hl. rewrite (cross_power_tabulate img1 img2 M N H1 H2 HM).
  apply (at2_tabulate
           (fun k l => Cmul (at2 C0 (np_fft2 img2) k l)
                            (Cconj (at2 C0 (np_fft2 img1) k l))));
    assumption.
Qed.

(** An image without detection against any image of its shape. *)
Lemma cross_power_zeros (img2 : image) (M N k l : nat) :
  has_shape M N img2 -> (0 < M)%nat -> (k < M)%nat -> (l < N)%nat ->
  Cabs (at2 C0 (cross_power (repeat (repeat 0 N) M) img2) k l) = 0.
Proof.
  intros H2 HM Hk Hl.
  rewrite (cross_power_entry _ _ M N k l (has_shape_repeat M N 0) H2 HM Hk Hl).
  rewrite np_fft2_zeros by assumption. apply Cabs_zero_iff.
  unfold Cmul, Cconj, C0. simpl. f_equal; ring.
Qed.

(** C4, as stated, fails: the bin [0 + 0j] of the cross-power spectrum is
    divided by its magnitude 0 and becomes NaN; for two 2 x 2 images without
    detection the correlation surface is NaN everywhere and the rotation
    estimate ends in an index error. *)
Lemma zero_bin_is_not_guarded :
  Cabs C0 = 0
  /\ normalize_bin C0 = CNaN
  /\ correlation_surface [[0; 0]; [0; 0]] [[0; 0]; [0; 0]]
     = Ok [[NaN; NaN]; [NaN; NaN]]
  /\ estimate_rotation [[0; 0]; [0; 0]] [[0; 0]; [0; 0]] (PI / 2) = Raise IndexError.
Proof.
  assert (Hz : Cabs C0 = 0) by (apply Cabs_zero_iff; reflexivity).
  pose proof (has_shape_repeat 2 2 0) as Hshape.
  assert (H0 : Cabs (at2 C0 (cross_power (repeat (repeat 0 2%nat) 2%nat)
                                         (repeat (repeat 0 2%nat) 2%nat)) 0 0) = 0)
    by (apply (cross_power_zeros _ 2 2 0 0); try assumption; lia).
  destruct (zero_bin_raises _ _ 2 2 0 0 Hshape Hshape ltac:(lia) ltac:(lia)
              ltac:(lia) ltac:(lia) H0) as [Hsurf [Hrot _]].
  split; [assumption|]. split; [apply normalize_bin_zero; assumption|].
  split.
  - change [[0; 0]; [0; 0]] with (repeat (repeat 0 2%nat) 2%nat).
    rewrite Hsurf. rewrite (cross_power_tabulate _ _ 2 2 Hshape Hshape) by lia.
    reflexivity.
  - apply Hrot.
Qed.

(** C4, amended: the normalisation divides every bin by its magnitude with
    no guard.  A nonzero bin is mapped to [p / |p|], of magnitude 1.  A
    zero-magnitude bin is divided by zero and becomes NaN; it does not
    contribute zero: the inverse transform spreads the NaN over the whole
    correlation surface, no position compares equal to the maximum, and the
    rotation and translation estimates of the frame end in an index
    error. *)
Theorem normalization_divides_unguarded :
  (forall p : C,
      p <> C0 ->
      normalize_bin p = CFinite (Cscale (/ Cabs p) p)
      /\ Cabs (Cscale (/ Cabs p) p) = 1)
  /\ (forall p : C, Cabs p = 0 -> normalize_bin p = CNaN)
  /\ (forall (img1 img2 : image) (M N k l : nat),
         has_shape M N img1 -> has_shape M N img2 -> (0 < M)%nat -> (0 < N)%nat ->
         (k < M)%nat -> (l < N)%nat ->
         Cabs (at2 C0 (cross_power img1 img2) k l) = 0 ->
         correlation_surface img1 img2
         = Ok (map (map (fun _ => NaN)) (cross_power img1 img2))
         /\ (forall azimuth_step : R,
                estimate_rotation img1 img2 azimuth_step = Raise IndexError)
         /\ (forall (cart_width2 : Z) (cart_res2 : R),
                estimate_translation img1 img2 cart_width2 cart_res2
                = Raise IndexError)).
Proof.
  split; [exact normalize_bin_nonzero|].
  split; [exact normalize_bin_zero|].
  exact zero_bin_raises.
Qed.

Lemma normalization_divides_unguarded_witness :
  normalize_bin (RtoC 3) = CFinite (Cscale (/ Cabs (RtoC 3)) (RtoC 3))
  /\ estimate_translation (repeat (repeat 0 2%nat) 2%nat)
                          (repeat (repeat 0 2%nat) 2%nat) 2 1
     = Raise IndexError.
Proof.
  destruct normalization_divides_unguarded as [Hnz [_ Hz]].
  split.
  - apply Hnz. unfold RtoC, C0. intro H. injection H. lra.
  - apply (Hz _ _ 2%nat 2%nat 0%nat 0%nat);
      try apply has_shape_repeat; try lia.
    apply (cross_power_zeros _ 2 2 0 0); try apply has_shape_repeat; lia.
Defined.

Lemma has_shape_one_detection : has_shape 10 10 one_detection.
Proof. apply has_shape_set2. apply has_shape_repeat. Qed.

Lemma pixel_one_detection (m n : nat) :
  pixel one_detection m n = if ((m =? 1) && (n =? 1))%nat then 255 else 0.
Proof.
  unfold one_detection, pixel.
  destruct (Nat.eqb_spec m 1) as [->|Hm]; [destruct (Nat.eqb_spec n 1) as [->|Hn]|];
    cbn [andb].
  - reflexivity.
  - rewrite at2_set2_other by congruence. apply pixel_zeros.
  - rewrite at2_set2_other by congruence. apply pixel_zeros.
Qed.

Lemma Cmul_RtoC_0 (z : C) : Cmul (RtoC 0) z = C0.
Proof. destruct z. unfold Cmul, RtoC, C0. simpl. f_equal; ring. Qed.

Lemma one_detection_spectrum (k l : nat) :
  (k < 10)%nat -> (l < 10)%nat ->
  at2 C0 (np_fft2 one_detection) k l
  = Cmul (RtoC 255) (Cmul (twiddle (- 1) 10 (k * 1)) (twiddle (- 1) 10 (l * 1))).
Proof.
  intros Hk Hl.
  rewrite (np_fft2_entry _ 10 10 k l has_shape_one_detection ltac:(lia) Hk Hl).
  rewrite (Csum_n_single _ 10 1); [|lia|].
  - rewrite (Csum_n_single _ 10 1); [|lia|].
    + rewrite pixel_one_detection. reflexivity.
    + intros n Hn Hne. rewrite pixel_one_detection.
      apply Nat.eqb_neq in Hne. rewrite Hne. apply Cmul_RtoC_0.
  - intros m Hm Hne. rewrite (Csum_n_ext _ (fun _ => C0)); [apply Csum_n_zero|].
    intros n Hn. rewrite pixel_one_detection.
    apply Nat.eqb_neq in Hne. rewrite Hne. apply Cmul_RtoC_0.
Qed.

Lemma one_detection_spectrum_nonzero (k l : nat) :
  (k < 10)%nat -> (l < 10)%nat -> at2 C0 (np_fft2 one_detection) k l <> C0.
Proof.
  intros Hk Hl Hzero. rewrite one_detection_spectrum in Hzero by assumption.
  apply Cabs_zero_iff in Hzero.
  rewrite <- Cscale_mul, Cabs_scale in Hzero by lra.
  unfold twiddle in Hzero. rewrite <- cis_plus, Cabs_cis in Hzero. lra.
Qed.

Lemma has_shape_two_detections : has_shape 10 10 two_detections.
Proof. do 2 apply has_shape_set2. apply has_shape_repeat. Qed.

Lemma pixel_two_detections (m n : nat) :
  pixel two_detections m n
  = if ((m =? 1) && ((n =? 1) || (n =? 6)))%nat then 255 else 0.
Proof.
  unfold two_detections, pixel.
  destruct (Nat.eqb_spec m 1) as [->|Hm]; cbn [andb].
  - destruct (Nat.eqb_spec n 6) as [->|Hn6]; [reflexivity|].
    rewrite at2_set2_other by congruence.
    destruct (Nat.eqb_spec n 1) as [->|Hn1]; [reflexivity|].
    rewrite at2_set2_other by congruence. apply pixel_zeros.
  - rewrite !at2_set2_other by congruence. apply pixel_zeros.
Qed.

Lemma twiddle_half_turn : twiddle (- 1) 10 5 = Copp C1.
Proof.
  unfold twiddle, cis, Copp, C1.
  replace (-1 * (2 * PI * INR 5 / INR 10)) with (- PI) by (simpl; field).
  rewrite cos_neg, sin_neg, cos_PI, sin_PI. simpl. f_equal; ring.
Qed.

(** The two detections cancel in the bin [(0, 1)] of the transform. *)
Lemma two_detections_zero_bin : at2 C0 (np_fft2 two_detections) 0 1 = C0.
Proof.
  rewrite (np_fft2_entry _ 10 10 0 1 has_shape_two_detections) by lia.
  rewrite (Csum_n_single _ 10 1); [|lia|].
  - cbn [Csum_n]. rewrite !pixel_two_detections. cbn [Nat.eqb andb orb].
    rewrite !Cmul_RtoC_0.
    change (1 * 6)%nat with (1 + 5)%nat. change (1 * 1)%nat with 1%nat.
    rewrite twiddle_plus, twiddle_half_turn. ring.
  - intros m Hm Hne. rewrite (Csum_n_ext _ (fun _ => C0)); [apply Csum_n_zero|].
    intros n Hn. rewrite pixel_two_detections.
    apply Nat.eqb_neq in Hne. rewrite Hne. apply Cmul_RtoC_0.
Qed.

Lemma cross_power_zero_bin (img1 img2 : image) (M N k l : nat) :
  has_shape M N img1 -> has_shape M N img2 -> (0 < M)%nat ->
  (k < M)%nat -> (l < N)%nat ->
  at2 C0 (np_fft2 img1) k l = C0 ->
  Cabs (at2 C0 (cross_power img1 img2) k l) = 0.
Proof.
  intros H1 H2 HM Hk Hl Hzero.
  rewrite (cross_power_entry _ _ M N k l H1 H2 HM Hk Hl), Hzero.
  apply Cabs_zero_iff. unfold Cmul, Cconj, C0. simpl. f_equal; ring.
Qed.

(** ** Registration of a circularly shifted image *)

Lemma fold_shift_cases (delta : nat) (cart_width2 : Z) :
  (INR delta <= IZR cart_width2 / 2 -> fold_shift delta cart_width2 = Z.of_nat delta)
  /\ (IZR cart_width2 / 2 < INR delta ->
      fold_shift delta cart_width2 = (Z.of_nat delta - cart_width2)%Z).
Proof.
  unfold fold_shift. split; intro H.
  - rewrite Rltb_false by assumption. reflexivity.
  - rewrite Rltb_true by assumption. reflexivity.
Qed.

(** C9, as stated, fails.  For two 10 x 10 occupancy images without
    detection, the second being the first shifted by 2 columns, every bin of
    the cross-power spectrum is zero, and neither estimate returns a shift.
    The same happens with detections: for the image with two detections in
    one row, five columns apart, the bin [(0, 1)] of the transform is zero
    in exact arithmetic, and the registration against its shift by 2 columns
    returns no shift. *)
Lemma registration_fails_without_detection :
  estimate_translation (repeat (repeat 0 10%nat) 10%nat)
                       (circular_shift 0 2 (repeat (repeat 0 10%nat) 10%nat)) 10 1
  = Raise IndexError
  /\ estimate_rotation (repeat (repeat 0 10%nat) 10%nat)
                       (circular_shift 0 2 (repeat (repeat 0 10%nat) 10%nat))
                       (2 * PI / 10)
     = Raise IndexError
  /\ pixel two_detections 1 1 = 255
  /\ pixel two_detections 1 6 = 255
  /\ estimate_translation two_detections (circular_shift 0 2 two_detections) 10 1
     = Raise IndexError.
Proof.
  pose proof (has_shape_repeat 10 10 0) as Hshape.
  pose proof (has_shape_circular_shift _ 10 10 0 2 Hshape
                ltac:(lia) ltac:(lia) ltac:(lia)) as Hshape'.
  destruct (zero_bin_raises _ _ 10 10 0 0 Hshape Hshape'
              ltac:(lia) ltac:(lia) ltac:(lia) ltac:(lia)
              (cross_power_zeros _ 10 10 0 0 Hshape' ltac:(lia) ltac:(lia) ltac:(lia)))
    as [_ [Hrot Htrans]].
  split; [apply Htrans|]. split; [apply Hrot|].
  split; [reflexivity|]. split; [reflexivity|].
  pose proof has_shape_two_detections as Htwo.
  pose proof (has_shape_circular_shift _ 10 10 0 2 Htwo
                ltac:(lia) ltac:(lia) ltac:(lia)) as Htwo'.
  apply (zero_bin_raises _ _ 10 10 0 1 Htwo Htwo'); try lia.
  apply (cross_power_zero_bin _ _ 10 10 0 1 Htwo Htwo'); try lia.
  apply two_detections_zero_bin.
Qed.

(** C9, amended: for every image [a] of [M] rows and [N] columns whose
    transform has no zero bin, and its circular shift [b] by
    [(s_row, s_col)] with [s_row < M] and [s_col < N], the correlation
    surface is 1 at [(s_row, s_col)] and 0 elsewhere, so that position is its
    global maximum, found first; the rotation estimate is the folded
    [s_row * azimuth_step], and the translation estimate is
    [(fold s_row, fold s_col)] scaled by the resolution, where an index past
    half the width is folded by subtracting the width.  In particular, for
    10 x 10 images and a shift of 2 columns the translation estimate is a
    row shift of 0 and a column shift of 2 (times the resolution). *)
Theorem phase_correlation_recovers_shift :
  forall (a : image) (M N s_row s_col : nat),
    has_shape M N a -> (0 < M)%nat -> (0 < N)%nat ->
    (s_row < M)%nat -> (s_col < N)%nat ->
    (forall k l, (k < M)%nat -> (l < N)%nat -> at2 C0 (np_fft2 a) k l <> C0) ->
    correlation_surface a (circular_shift s_row s_col a)
    = Ok (impulse M N s_row s_col)
    /\ (forall m n, (m < M)%nat -> (n < N)%nat ->
          at2 NaN (impulse M N s_row s_col) m n
          = Finite (if ((m =? s_row) && (n =? s_col))%nat then 1 else 0))
    /\ np_amax (impulse M N s_row s_col) = Finite 1
    /\ first_peak (impulse M N s_row s_col) = Ok (s_row, s_col)
    /\ (forall azimuth_step : R,
           estimate_rotation a (circular_shift s_row s_col a) azimuth_step
           = Ok (rotation_of_index s_row azimuth_step))
    /\ (forall (cart_width2 : Z) (cart_res2 : R),
           estimate_translation a (circular_shift s_row s_col a) cart_width2 cart_res2
           = Ok (IZR (fold_shift s_row cart_width2) * cart_res2,
                 IZR (fold_shift s_col cart_width2) * cart_res2))
    /\ (forall (delta : nat) (cart_width2 : Z),
           (INR delta <= IZR cart_width2 / 2 ->
            fold_shift delta cart_width2 = Z.of_nat delta)
           /\ (IZR cart_width2 / 2 < INR delta ->
               fold_shift delta cart_width2 = (Z.of_nat delta - cart_width2)%Z))
    /\ (M = 10%nat -> N = 10%nat -> s_row = 0%nat -> s_col = 2%nat ->
        forall cart_res2 : R,
          estimate_translation a (circular_shift s_row s_col a) 10 cart_res2
          = Ok (0 * cart_res2, 2 * cart_res2)).
Proof.
  intros a M N s_row s_col Hshape HM HN Hs Ht Hspec.
  pose proof (correlation_surface_shift a M N s_row s_col Hshape HM HN Hs Ht Hspec)
    as Hsurf.
  pose proof (first_peak_impulse M N s_row s_col Hs Ht) as Hpeak.
  split; [assumption|].
  split; [intros m n Hm Hn; unfold impulse; apply at2_tabulate; assumption|].
  split; [apply np_amax_impulse; assumption|].
  split; [assumption|].
  split; [|split; [|split]].
  - intro azimuth_step. unfold estimate_rotation. rewrite Hsurf. cbn [bind].
    rewrite Hpeak. reflexivity.
  - intros cart_width2 cart_res2. unfold estimate_translation. rewrite Hsurf.
    cbn [bind]. rewrite Hpeak. reflexivity.
  - exact fold_shift_cases.
  - intros HM10 HN10 Hs0 Ht2 cart_res2. unfold estimate_translation.
    rewrite Hsurf. cbn [bind]. rewrite Hpeak. cbn [bind fst snd]. subst s_row s_col.
    rewrite (proj1 (fold_shift_cases 0 10)) by (simpl; lra).
    rewrite (proj1 (fold_shift_cases 2 10)) by (simpl; lra).
    reflexivity.
Qed.

(** Two 10 x 10 images with one detection, the second shifted by 2 columns:
    a row shift of 0 and a column shift of 2. *)
Lemma phase_correlation_recovers_shift_witness :
  has_shape 10 10 one_detection
  /\ (forall k l, (k < 10)%nat -> (l < 10)%nat ->
                  at2 C0 (np_fft2 one_detection) k l <> C0)
  /\ estimate_translation one_detection (circular_shift 0 2 one_detection) 10 1
     = Ok (0 * 1, 2 * 1)
  /\ estimate_rotation one_detection (circular_shift 0 2 one_detection) (2 * PI / 10)
     = Ok 0.
Proof.
  split; [exact has_shape_one_detection|].
  split; [exact one_detection_spectrum_nonzero|].
  destruct (phase_correlation_recovers_shift one_detection 10 10 0 2
              has_shape_one_detection ltac:(lia) ltac:(lia) ltac:(lia) ltac:(lia)
              one_detection_spectrum_nonzero)
    as [_ [_ [_ [_ [Hrot [Htrans [Hfold _]]]]]]].
  split.
  - rewrite Htrans.
    destruct (Hfold 0%nat 10%Z) as [H0 _]. destruct (Hfold 2%nat 10%Z) as [H2 _].
    rewrite H0 by (simpl; lra). rewrite H2 by (simpl; lra). reflexivity.
  - rewrite Hrot. unfold rotation_of_index. simpl INR. rewrite Rmult_0_l.
    unfold fold_rotation. rewrite Rltb_false by (pose proof PI_RGT_0; lra).
    reflexivity.
Defined.

(** * Further properties of the program *)

(** ** Rasterising loops *)

Lemma for_each_ext {A S : Type} (body body' : A -> S -> result S) (l : list A) (s : S) :
  (forall a t, In a l -> body a t = body' a t) ->
  for_each body l s = for_each body' l s.
Proof.
  revert s. induction l as [|a l IH]; intros s H; [reflexivity|].
  simpl. rewrite (H a s (or_introl eq_refl)).
  destruct (body' a s) as [s'|e]; [|reflexivity]. simpl.
  apply IH. intros b t Hb. apply H. right. assumption.
Qed.

Lemma grid_ext (n m : nat) (g g' : image) :
  has_shape n m g -> has_shape n m g' ->
  (forall i j, (i < n)%nat -> (j < m)%nat -> pixel g i j = pixel g' i j) ->
  g = g'.
Proof.
  intros Hg Hg' H.
  rewrite (grid_tabulate n m g 0 Hg), (grid_tabulate n m g' 0 Hg').
  apply tabulate_ext. exact H.
Qed.

Lemma pixel_outside (n m i j : nat) (g : image) :
  has_shape n m g -> (n <= i)%nat \/ (m <= j)%nat -> pixel g i j = 0.
Proof.
  intros [Hlen Hrows] H. unfold pixel, at2.
  destruct (Nat.lt_ge_cases i n) as [Hi|Hi].
  - destruct H as [H|H]; [lia|]. apply nth_overflow. rewrite Hrows by assumption. assumption.
  - rewrite (nth_overflow g) by lia. destruct j; reflexivity.
Qed.

(** A loop whose iterations paint at most one cell each: when it ends, a
    cell holds 255 if an iteration painted it and its initial value
    otherwise. *)
Lemma paint_loop {A : Type} (cell : A -> result (option (nat * nat))) (n m : nat) :
  forall (l : list A) (s0 s : image),
    for_each (fun a t => c <- cell a ;; Ok (paint c t)) l s0 = Ok s ->
    has_shape n m s0 ->
    (forall a i j, In a l -> cell a = Ok (Some (i, j)) -> (i < n)%nat /\ (j < m)%nat) ->
    has_shape n m s
    /\ (forall a, In a l -> exists c, cell a = Ok c)
    /\ (forall i j,
           (exists a, In a l /\ cell a = Ok (Some (i, j))) -> pixel s i j = 255)
    /\ (forall i j,
           ~ (exists a, In a l /\ cell a = Ok (Some (i, j))) ->
           pixel s i j = pixel s0 i j).
Proof.
  induction l as [|a l IH]; intros s0 s Hrun Hshape Hrange.
  - simpl in Hrun. injection Hrun as <-.
    split; [assumption|]. split; [intros a []|].
    split; [intros i j [a [[] _]] | reflexivity].
  - simpl in Hrun. destruct (cell a) as [c|e] eqn:Hc; [|discriminate].
    cbn [bind] in Hrun.
    assert (Hshape1 : has_shape n m (paint c s0)).
    { destruct c as [[i j]|]; [apply has_shape_set2|]; assumption. }
    destruct (IH (paint c s0) s Hrun Hshape1
                 (fun b i j Hb => Hrange b i j (or_intror Hb)))
      as [Hs [Hok [Hlit Hkeep]]].
    split; [assumption|]. split; [|split].
    + intros b [<-|Hb]; [exists c; assumption | apply Hok; assumption].
    + intros i j [b [[<-|Hb] Hcell]].
      * destruct (Classical_Prop.classic
                    (exists b, In b l /\ cell b = Ok (Some (i, j)))) as [Hex|Hnex].
        -- apply Hlit. assumption.
        -- rewrite (Hkeep i j Hnex). rewrite Hc in Hcell. injection Hcell as ->.
           destruct (Hrange a i j (or_introl eq_refl) Hc) as [Hi Hj].
           destruct Hshape as [Hn Hm]. unfold pixel. cbn [paint].
           apply at2_set2_same; [lia | rewrite Hm by assumption; assumption].
      * apply Hlit. exists b. auto.
    + intros i j Hnone.
      rewrite (Hkeep i j).
      * destruct c as [[i' j']|]; [|reflexivity]. unfold pixel. cbn [paint].
        apply at2_set2_other. intro Heq. injection Heq as -> ->.
        apply Hnone. exists a. split; [left; reflexivity | assumption].
      * intros [b [Hb Hcell]]. apply Hnone. exists b. split; [right|]; assumption.
Qed.

(** ** The cartesian rasteriser, cell by cell *)

Lemma cartesian_step_paint (w : Z) (res : R) (p : point) (img : image) :
  cartesian_step w res p img = (c <- cartesian_cell w res p ;; Ok (paint c img)).
Proof.
  destruct p as [[p0 p1] p2]. unfold cartesian_step, cartesian_cell.
  destruct (out_of_band p2); [reflexivity|].
  destruct (py_int _) as [u|e]; [|reflexivity]. cbn [bind].
  destruct (py_int _) as [v|e]; [|reflexivity]. cbn [bind].
  destruct (strictly_inside u w v w); reflexivity.
Qed.

Lemma strictly_inside_spec (i n j m : Z) :
  strictly_inside i n j m = true <-> (0 < i < n /\ 0 < j < m)%Z.
Proof.
  unfold strictly_inside. rewrite !andb_true_iff, !Z.ltb_lt. lia.
Qed.

(** A cell the cartesian loop paints is inside the image, off its first row
    and first column. *)
Lemma cartesian_cell_range (w : Z) (res : R) (p : point) (i j : nat) :
  cartesian_cell w res p = Ok (Some (i, j)) ->
  (0 < i < Z.to_nat w)%nat /\ (0 < j < Z.to_nat w)%nat.
Proof.
  destruct p as [[p0 p1] p2]. unfold cartesian_cell.
  destruct (out_of_band p2); [discriminate|].
  destruct (py_int _) as [u|e]; [|discriminate]. cbn [bind].
  destruct (py_int _) as [v|e]; [|discriminate]. cbn [bind].
  destruct (strictly_inside u w v w) eqn:Hin; [|discriminate].
  intro H. injection H as <- <-. apply strictly_inside_spec in Hin. lia.
Qed.

Lemma cartesian_image_paint (pc : cloud) (w : Z) (res : R) (img : image) :
  lidar_to_cartesian_image pc w res = Ok img ->
  (0 <= w)%Z
  /\ for_each (fun p t => c <- cartesian_cell w res p ;; Ok (paint c t)) pc
              (repeat (repeat 0 (Z.to_nat w)) (Z.to_nat w)) = Ok img.
Proof.
  unfold lidar_to_cartesian_image. intro H.
  destruct (np_zeros w w) as [img0|e] eqn:Hz; [|discriminate].
  apply np_zeros_inv in Hz. destruct Hz as [Hw [_ ->]]. cbn [bind] in H.
  split; [assumption|]. rewrite <- H. symmetry.
  apply for_each_ext. intros p t _. apply cartesian_step_paint.
Qed.

Lemma cartesian_image_pixels (pc : cloud) (w : Z) (res : R) (img : image) :
  lidar_to_cartesian_image pc w res = Ok img ->
  has_shape (Z.to_nat w) (Z.to_nat w) img
  /\ (forall i j,
         (exists p, In p pc /\ cartesian_cell w res p = Ok (Some (i, j))) ->
         pixel img i j = 255)
  /\ (forall i j,
         ~ (exists p, In p pc /\ cartesian_cell w res p = Ok (Some (i, j))) ->
         pixel img i j = 0).
Proof.
  intro H. apply cartesian_image_paint in H. destruct H as [Hw Hrun].
  destruct (paint_loop (cartesian_cell w res) (Z.to_nat w) (Z.to_nat w) pc _ img Hrun
              (has_shape_repeat _ _ 0)) as [Hshape [_ [Hlit Hkeep]]].
  { intros p i j _ Hc. apply cartesian_cell_range in Hc. lia. }
  split; [assumption|]. split; [assumption|].
  intros i j Hnone. rewrite (Hkeep i j Hnone). apply pixel_zeros.
Qed.

From Stdlib Require Import Permutation.

Lemma cartesian_cell_spec (w : Z) (res p0 p1 p2 : R) (i j : nat) :
  res <> 0 ->
  (cartesian_cell w res (p0, p1, p2) = Ok (Some (i, j))
   <-> 0 <= p2 <= 0.5
       /\ (0 < Rtrunc ((cart_min_range w res - p1) / res) < w)%Z
       /\ (0 < Rtrunc ((cart_min_range w res - p0) / res) < w)%Z
       /\ i = Z.to_nat (Rtrunc ((cart_min_range w res - p0) / res))
       /\ j = Z.to_nat (Rtrunc ((cart_min_range w res - p1) / res))).
Proof.
  intro Hres. unfold cartesian_cell.
  rewrite !py_int_divide_ok by assumption. cbn [bind].
  destruct (out_of_band p2) eqn:Hband.
  - split; [discriminate|]. intros [Hz _]. apply in_band_spec in Hz. congruence.
  - apply in_band_spec in Hband.
    destruct (strictly_inside _ w _ w) eqn:Hin.
    + apply strictly_inside_spec in Hin. split.
      * intro H. injection H as <- <-. tauto.
      * intros [_ [_ [_ [-> ->]]]]. reflexivity.
    + split; [discriminate|]. intros [_ [Hu [Hv _]]].
      assert (strictly_inside (Rtrunc ((cart_min_range w res - p1) / res)) w
                              (Rtrunc ((cart_min_range w res - p0) / res)) w = true)
        by (apply strictly_inside_spec; tauto).
      congruence.
Qed.

(** X1: an image returned by [lidar_to_cartesian_image] is square, of the
    requested (non-negative) width, and every cell of it is 0 or 255. *)
Theorem cartesian_image_is_binary :
  forall (pc : cloud) (cart_pixel_width : Z) (cart_resolution : R) (img : image),
    lidar_to_cartesian_image pc cart_pixel_width cart_resolution = Ok img ->
    (0 <= cart_pixel_width)%Z
    /\ has_shape (Z.to_nat cart_pixel_width) (Z.to_nat cart_pixel_width) img
    /\ forall i j : nat, pixel img i j = 0 \/ pixel img i j = 255.
Proof.
  intros pc w res img H.
  destruct (cartesian_image_pixels pc w res img H) as [Hshape [Hlit Hdark]].
  split; [apply (cartesian_image_paint pc w res img H)|].
  split; [assumption|]. intros i j.
  destruct (Classical_Prop.classic
              (exists p, In p pc /\ cartesian_cell w res p = Ok (Some (i, j))))
    as [Hex|Hnex]; [right; apply Hlit | left; apply Hdark]; assumption.
Qed.

Lemma cartesian_image_is_binary_witness :
  lidar_to_cartesian_image [(1.0, 0.0, 0.0)] 10 0.5
  = Ok (set2 2 4 255 (repeat (repeat 0 10%nat) 10%nat))
  /\ has_shape 10 10 (set2 2 4 255 (repeat (repeat 0 10%nat) 10%nat)).
Proof.
  split; [apply cartesian_scenario_value|].
  apply (cartesian_image_is_binary [(1.0, 0.0, 0.0)] 10 0.5 _ cartesian_scenario_value).
Defined.

(** X2: the first row and the first column of an image returned by
    [lidar_to_cartesian_image] are never lit: a point whose row or column
    index is 0 is dropped by the strict test [0 < u and 0 < v]. *)
Theorem cartesian_image_border_dark :
  forall (pc : cloud) (cart_pixel_width : Z) (cart_resolution : R) (img : image),
    lidar_to_cartesian_image pc cart_pixel_width cart_resolution = Ok img ->
    forall k : nat, pixel img 0 k = 0 /\ pixel img k 0 = 0.
Proof.
  intros pc w res img H k.
  destruct (cartesian_image_pixels pc w res img H) as [_ [_ Hdark]].
  split; apply Hdark; intros [p [_ Hc]]; apply cartesian_cell_range in Hc; lia.
Qed.

Lemma cartesian_image_border_dark_witness :
  pixel (set2 2 4 255 (repeat (repeat 0 10%nat) 10%nat)) 0 4 = 0
  /\ pixel (set2 2 4 255 (repeat (repeat 0 10%nat) 10%nat)) 2 0 = 0.
Proof.
  split.
  - apply (cartesian_image_border_dark [(1.0, 0.0, 0.0)] 10 0.5 _
             cartesian_scenario_value 4%nat).
  - apply (cartesian_image_border_dark [(1.0, 0.0, 0.0)] 10 0.5 _
             cartesian_scenario_value 2%nat).
Defined.

(** X3: with a non-negative width and a nonzero resolution,
    [lidar_to_cartesian_image] returns an image in which the cell at row
    [i], column [j] is 255 exactly when some point of the cloud lies in the
    height band [[0, 0.5]], has its row index [int((min_range - p0) / res)]
    equal to [i] and its column index [int((min_range - p1) / res)] equal to
    [j], both strictly between 0 and the width. *)
Theorem cartesian_image_lit_iff :
  forall (pc : cloud) (cart_pixel_width : Z) (cart_resolution : R),
    (0 <= cart_pixel_width)%Z -> cart_resolution <> 0 ->
    exists img : image,
      lidar_to_cartesian_image pc cart_pixel_width cart_resolution = Ok img
      /\ forall i j : nat,
          pixel img i j = 255
          <-> exists p0 p1 p2 : R,
                In (p0, p1, p2) pc
                /\ 0 <= p2 <= 0.5
                /\ (0 < Rtrunc ((cart_min_range cart_pixel_width cart_resolution - p1)
                                / cart_resolution) < cart_pixel_width)%Z
                /\ (0 < Rtrunc ((cart_min_range cart_pixel_width cart_resolution - p0)
                                / cart_resolution) < cart_pixel_width)%Z
                /\ i = Z.to_nat (Rtrunc ((cart_min_range cart_pixel_width
                                                         cart_resolution - p0)
                                         / cart_resolution))
                /\ j = Z.to_nat (Rtrunc ((cart_min_range cart_pixel_width
                                                         cart_resolution - p1)
                                         / cart_resolution)).
Proof.
  intros pc w res Hw Hres.
  destruct (lidar_to_cartesian_image_total pc w res Hw Hres) as [img [Himg _]].
  exists img. split; [assumption|].
  destruct (cartesian_image_pixels pc w res img Himg) as [_ [Hlit Hdark]].
  intros i j. split.
  - intro Hpix.
    destruct (Classical_Prop.classic
                (exists p, In p pc /\ cartesian_cell w res p = Ok (Some (i, j))))
      as [[[[p0 p1] p2] [Hin Hc]]|Hnex].
    + exists p0, p1, p2. split; [assumption|].
      apply (cartesian_cell_spec w res p0 p1 p2 i j Hres). assumption.
    + rewrite (Hdark i j Hnex) in Hpix. lra.
  - intros [p0 [p1 [p2 [Hin Hc]]]]. apply Hlit. exists (p0, p1, p2).
    split; [assumption|]. apply (cartesian_cell_spec w res p0 p1 p2 i j Hres). assumption.
Qed.

Lemma cartesian_image_lit_iff_witness :
  (0 <= 10)%Z /\ 0.5 <> 0
  /\ exists img : image,
      lidar_to_cartesian_image [(1.0, 0.0, 0.0)] 10 0.5 = Ok img.
Proof.
  split; [lia|]. split; [lra|].
  destruct (cartesian_image_lit_iff [(1.0, 0.0, 0.0)] 10 0.5 ltac:(lia) ltac:(lra))
    as [img [Himg _]].
  exists img. exact Himg.
Defined.

(** X4: for a nonzero resolution the image does not depend on the order of
    the points, nor on how often a point occurs: two clouds with the same
    points give the same result. *)
Theorem cartesian_image_order_independent :
  forall (pc pc' : cloud) (cart_pixel_width : Z) (cart_resolution : R),
    cart_resolution <> 0 ->
    (forall p : point, In p pc <-> In p pc') ->
    lidar_to_cartesian_image pc cart_pixel_width cart_resolution
    = lidar_to_cartesian_image pc' cart_pixel_width cart_resolution.
Proof.
  intros pc pc' w res Hres Hsame.
  destruct (Z.lt_ge_cases w 0) as [Hneg|Hw].
  - unfold lidar_to_cartesian_image, np_zeros.
    destruct (Z.ltb_spec w 0); [reflexivity | lia].
  - destruct (lidar_to_cartesian_image_total pc w res Hw Hres) as [img [Himg Hs]].
    destruct (lidar_to_cartesian_image_total pc' w res Hw Hres) as [img' [Himg' Hs']].
    rewrite Himg, Himg'. f_equal.
    destruct (cartesian_image_pixels pc w res img Himg) as [_ [Hlit Hdark]].
    destruct (cartesian_image_pixels pc' w res img' Himg') as [_ [Hlit' Hdark']].
    apply (grid_ext _ _ img img' Hs Hs'). intros i j _ _.
    destruct (Classical_Prop.classic
                (exists p, In p pc /\ cartesian_cell w res p = Ok (Some (i, j))))
      as [Hex|Hnex].
    + rewrite (Hlit i j Hex). symmetry. apply Hlit'.
      destruct Hex as [p [Hin Hc]]. exists p. split; [apply Hsame|]; assumption.
    + rewrite (Hdark i j Hnex). symmetry. apply Hdark'.
      intros [p [Hin Hc]]. apply Hnex. exists p. split; [apply Hsame|]; assumption.
Qed.

Lemma cartesian_image_order_independent_witness :
  lidar_to_cartesian_image [(1, 0, 0); (0.3, 0.7, 0.1)] 10 0.5
  = lidar_to_cartesian_image [(0.3, 0.7, 0.1); (1, 0, 0); (0.3, 0.7, 0.1)] 10 0.5.
Proof.
  apply cartesian_image_order_independent; [lra|].
  intro p. simpl. tauto.
Defined.

(** ** The polar rasteriser, cell by cell *)

Lemma polar_step_paint (x : option cloud) (rr ar : R) (rb ab : Z) (i : nat)
    (polar : image) :
  polar_step x rr ar rb ab i polar
  = (c <- polar_cell x rr ar rb ab i ;; Ok (paint c polar)).
Proof.
  unfold polar_step, polar_cell. destruct x as [xs|]; [|reflexivity].
  destruct (nth_error xs i) as [[[x0 x1] x2]|]; [|reflexivity].
  destruct (out_of_band x2); [reflexivity|].
  destruct (polar_range_bin x0 x1 rr) as [r|e]; [|reflexivity]. cbn [bind].
  destruct (polar_azimuth_bin x0 x1 ar) as [a|e]; [|reflexivity]. cbn [bind].
  destruct (strictly_inside r rb a ab); reflexivity.
Qed.

Lemma polar_cell_range (x : option cloud) (rr ar : R) (rb ab : Z) (k i j : nat) :
  polar_cell x rr ar rb ab k = Ok (Some (i, j)) ->
  (0 < i < Z.to_nat ab)%nat /\ (0 < j < Z.to_nat rb)%nat.
Proof.
  unfold polar_cell. destruct x as [xs|]; [|discriminate].
  destruct (nth_error xs k) as [[[x0 x1] x2]|]; [|discriminate].
  destruct (out_of_band x2); [discriminate|].
  destruct (polar_range_bin x0 x1 rr) as [r|e]; [|discriminate]. cbn [bind].
  destruct (polar_azimuth_bin x0 x1 ar) as [a|e]; [|discriminate]. cbn [bind].
  destruct (strictly_inside r rb a ab) eqn:Hin; [|discriminate].
  intro H. injection H as <- <-. apply strictly_inside_spec in Hin. lia.
Qed.

Lemma polar_fill_pixels (x : option cloud) (pc : cloud) (rr ar : R) (rb ab : Z)
    (filled : image) :
  polar_fill x pc rr ar rb ab = Ok filled ->
  has_shape (Z.to_nat ab) (Z.to_nat rb) filled
  /\ (forall i j,
         (exists k, (k < length pc)%nat
                    /\ polar_cell x rr ar rb ab k = Ok (Some (i, j))) ->
         pixel filled i j = 255)
  /\ (forall i j,
         ~ (exists k, (k < length pc)%nat
                      /\ polar_cell x rr ar rb ab k = Ok (Some (i, j))) ->
         pixel filled i j = 0).
Proof.
  unfold polar_fill. intro H.
  destruct (np_zeros ab rb) as [img0|e] eqn:Hz; [|discriminate].
  apply np_zeros_inv in Hz. destruct Hz as [Hab [Hrb ->]]. cbn [bind] in H.
  rewrite (for_each_ext _ (fun k t => c <- polar_cell x rr ar rb ab k ;; Ok (paint c t)))
    in H by (intros k t _; apply polar_step_paint).
  destruct (paint_loop (polar_cell x rr ar rb ab) (Z.to_nat ab) (Z.to_nat rb)
              _ _ filled H (has_shape_repeat _ _ 0)) as [Hshape [_ [Hlit Hkeep]]].
  { intros k i j _ Hc. apply polar_cell_range in Hc. lia. }
  split; [assumption|]. split.
  - intros i j [k [Hk Hc]]. apply Hlit. exists k. split; [apply in_seq; lia | assumption].
  - intros i j Hnone. rewrite (Hkeep i j); [apply pixel_zeros|].
    intros [k [Hk Hc]]. apply Hnone. exists k. apply in_seq in Hk. split; [lia | assumption].
Qed.

Lemma pixel_flip (n m i j : nat) (g : image) :
  has_shape n m g -> (i < n)%nat ->
  pixel (np_flip0 g) i j = pixel g (n - 1 - i) j.
Proof.
  intros [Hlen _] Hi. unfold pixel, at2, np_flip0.
  rewrite rev_nth by lia. rewrite Hlen. f_equal. f_equal. lia.
Qed.

Lemma has_shape_flip (n m : nat) (g : image) :
  has_shape n m g -> has_shape n m (np_flip0 g).
Proof.
  intros [Hlen Hrows]. unfold np_flip0. split; [rewrite length_rev; assumption|].
  intros k Hk. rewrite rev_nth by lia. apply Hrows. lia.
Qed.

Lemma polar_image_inv (x : option cloud) (pc : cloud) (rr ar : R) (rb ab : Z)
    (img : image) :
  lidar_to_polar_image x pc rr ar rb ab = Ok img ->
  exists filled : image,
    polar_fill x pc rr ar rb ab = Ok filled /\ img = np_flip0 filled.
Proof.
  unfold lidar_to_polar_image. intro H.
  destruct (polar_fill x pc rr ar rb ab) as [filled|e]; [|discriminate].
  injection H as <-. exists filled. auto.
Qed.

(** X6: an image returned by [lidar_to_polar_image] has [azimuth_bins] rows
    and [range_bins] columns, and every cell of it is 0 or 255. *)
Theorem polar_image_is_binary :
  forall (x : option cloud) (pc : cloud) (range_resolution azimuth_resolution : R)
         (range_bins azimuth_bins : Z) (img : image),
    lidar_to_polar_image x pc range_resolution azimuth_resolution
                         range_bins azimuth_bins = Ok img ->
    has_shape (Z.to_nat azimuth_bins) (Z.to_nat range_bins) img
    /\ forall i j : nat, pixel img i j = 0 \/ pixel img i j = 255.
Proof.
  intros x pc rr ar rb ab img H.
  destruct (polar_image_inv _ _ _ _ _ _ _ H) as [filled [Hfill ->]].
  destruct (polar_fill_pixels _ _ _ _ _ _ _ Hfill) as [Hshape [Hlit Hdark]].
  split; [apply has_shape_flip; assumption|].
  intros i j. destruct (Nat.lt_ge_cases i (Z.to_nat ab)) as [Hi|Hi].
  - rewrite (pixel_flip _ _ i j filled Hshape Hi).
    destruct (Classical_Prop.classic
                (exists k, (k < length pc)%nat
                           /\ polar_cell x rr ar rb ab k
                              = Ok (Some ((Z.to_nat ab - 1 - i)%nat, j))))
      as [Hex|Hnex]; [right; apply Hlit | left; apply Hdark]; assumption.
  - left. apply (pixel_outside _ _ i j _ (has_shape_flip _ _ _ Hshape)). left. assumption.
Qed.

Lemma polar_image_is_binary_witness :
  has_shape 8 5 (np_flip0 (set2 2 3 255 (repeat (repeat 0 5%nat) 8%nat))).
Proof.
  apply (polar_image_is_binary (Some [(0, 3, 0.25)]) [(0, 3, 0.25)] 1 (PI / 4) 5 8).
  unfold lidar_to_polar_image. rewrite polar_fill_example. reflexivity.
Defined.

(** X7: the last row and the first column of an image returned by
    [lidar_to_polar_image] are never lit: azimuth bin 0 (flipped to the last
    row) and range bin 0 are dropped by the strict test
    [0 < range_bin and 0 < azimuth_bin]. *)
Theorem polar_image_dark_band :
  forall (x : option cloud) (pc : cloud) (range_resolution azimuth_resolution : R)
         (range_bins azimuth_bins : Z) (img : image),
    lidar_to_polar_image x pc range_resolution azimuth_resolution
                         range_bins azimuth_bins = Ok img ->
    forall k : nat,
      pixel img (Z.to_nat azimuth_bins - 1) k = 0 /\ pixel img k 0 = 0.
Proof.
  intros x pc rr ar rb ab img H k.
  destruct (polar_image_inv _ _ _ _ _ _ _ H) as [filled [Hfill ->]].
  destruct (polar_fill_pixels _ _ _ _ _ _ _ Hfill) as [Hshape [_ Hdark]].
  assert (Hrow0 : forall j, pixel filled 0 j = 0).
  { intro j. apply Hdark. intros [i [_ Hc]]. apply polar_cell_range in Hc. lia. }
  assert (Hcol0 : forall i, pixel filled i 0 = 0).
  { intro i. apply Hdark. intros [i' [_ Hc]]. apply polar_cell_range in Hc. lia. }
  split.
  - destruct (Nat.eq_dec (Z.to_nat ab) 0) as [Hz|Hnz].
    + apply (pixel_outside _ _ _ _ _ (has_shape_flip _ _ _ Hshape)). left. lia.
    + rewrite (pixel_flip _ _ _ k filled Hshape) by lia.
      replace (Z.to_nat ab - 1 - (Z.to_nat ab - 1))%nat with 0%nat by lia.
      apply Hrow0.
  - destruct (Nat.lt_ge_cases k (Z.to_nat ab)) as [Hk|Hk].
    + rewrite (pixel_flip _ _ k 0 filled Hshape Hk). apply Hcol0.
    + apply (pixel_outside _ _ _ _ _ (has_shape_flip _ _ _ Hshape)). left. assumption.
Qed.

Lemma polar_image_dark_band_witness :
  pixel (np_flip0 (set2 2 3 255 (repeat (repeat 0 5%nat) 8%nat))) (Z.to_nat 8 - 1) 3 = 0
  /\ pixel (np_flip0 (set2 2 3 255 (repeat (repeat 0 5%nat) 8%nat))) 5 0 = 0.
Proof.
  split.
  - apply (polar_image_dark_band (Some [(0, 3, 0.25)]) [(0, 3, 0.25)] 1 (PI / 4) 5 8 _
             ltac:(unfold lidar_to_polar_image; rewrite polar_fill_example; reflexivity)
             3%nat).
  - apply (polar_image_dark_band (Some [(0, 3, 0.25)]) [(0, 3, 0.25)] 1 (PI / 4) 5 8 _
             ltac:(unfold lidar_to_polar_image; rewrite polar_fill_example; reflexivity)
             5%nat).
Defined.

(** ** Azimuth and range bins *)

Lemma np_arctan2_range (y x : R) : - PI < np_arctan2 y x <= PI.
Proof.
  pose proof PI_RGT_0 as Hpi. unfold np_arctan2.
  pose proof (atan_bound (y / x)) as Hb.
  destruct (Rltb 0 x) eqn:Hx; [lra|].
  destruct (Rltb x 0) eqn:Hx'.
  - apply Rltb_spec in Hx'.
    assert (Hinv : / x < 0) by (apply Rinv_lt_0_compat; assumption).
    destruct (Rltb y 0) eqn:Hy.
    + apply Rltb_spec in Hy.
      assert (0 < y / x) by (unfold Rdiv; nra).
      pose proof (atan_increasing 0 (y / x) ltac:(assumption)) as Hinc.
      rewrite atan_0 in Hinc. lra.
    + assert (Hy' : 0 <= y).
      { destruct (Rlt_dec y 0) as [H|H]; [apply Rltb_spec in H; congruence | lra]. }
      destruct (Req_dec y 0) as [->|Hne].
      * unfold Rdiv. rewrite Rmult_0_l, atan_0. lra.
      * assert (y / x < 0) by (unfold Rdiv; nra).
        pose proof (atan_increasing (y / x) 0 ltac:(assumption)) as Hinc.
        rewrite atan_0 in Hinc. lra.
  - destruct (Rltb 0 y); [lra|]. destruct (Rltb y 0); lra.
Qed.

Lemma Rtrunc_bounds (r : R) (n : Z) :
  0 <= r -> r < IZR n -> (0 <= Rtrunc r < n)%Z.
Proof.
  intros H0 Hn. unfold Rtrunc. rewrite Rltb_false by assumption.
  destruct (base_Int_part r) as [Hle Hgt]. split.
  - assert (H : (-1 < Int_part r)%Z) by (apply lt_IZR; lra). lia.
  - apply lt_IZR. lra.
Qed.

(** X8: when the azimuth resolution is a full turn divided by a positive
    number of azimuth bins, every point has an azimuth bin in
    [[0, azimuth_bins)] (the angle is normalised into [[0, 2 pi)]), and for a
    positive range resolution its range bin is never negative: the only
    points the bounds tests drop are those in azimuth bin 0, in range bin 0
    or beyond the last range bin. *)
Theorem polar_bins_in_range :
  forall (x0 x1 range_resolution : R) (azimuth_bins : Z),
    (0 < azimuth_bins)%Z -> 0 < range_resolution ->
    (exists azimuth_bin : Z,
        polar_azimuth_bin x0 x1 (2 * PI / IZR azimuth_bins) = Ok azimuth_bin
        /\ (0 <= azimuth_bin < azimuth_bins)%Z)
    /\ (exists range_bin : Z,
           polar_range_bin x0 x1 range_resolution = Ok range_bin
           /\ (0 <= range_bin)%Z
           /\ IZR range_bin * range_resolution <= sqrt (x0 ^ 2 + x1 ^ 2)
              < (IZR range_bin + 1) * range_resolution).
Proof.
  intros x0 x1 rr ab Hab Hrr. pose proof PI_RGT_0 as Hpi.
  assert (Habr : 0 < IZR ab) by (apply IZR_lt; assumption).
  split.
  - unfold polar_azimuth_bin.
    pose proof (np_arctan2_range x1 x0) as Hrange.
    set (theta := if Rltb (np_arctan2 x1 x0) 0
                  then np_arctan2 x1 x0 + 2 * PI else np_arctan2 x1 x0).
    assert (Htheta : 0 <= theta < 2 * PI).
    { unfold theta. destruct (Rltb (np_arctan2 x1 x0) 0) eqn:Hneg.
      - apply Rltb_spec in Hneg. lra.
      - destruct (Rlt_dec (np_arctan2 x1 x0) 0) as [H|H];
          [apply Rltb_spec in H; congruence | lra]. }
    assert (Har : 2 * PI / IZR ab <> 0).
    { unfold Rdiv. apply Rmult_integral_contrapositive_currified; [lra|].
      apply Rinv_neq_0_compat. lra. }
    rewrite py_int_divide_ok by assumption. eexists. split; [reflexivity|].
    replace (theta / (2 * PI / IZR ab)) with (theta / (2 * PI) * IZR ab)
      by (field; lra).
    assert (Hq : 0 <= theta / (2 * PI) < 1).
    { split.
      - apply Rmult_le_pos; [lra|]. left. apply Rinv_0_lt_compat. lra.
      - apply Rmult_lt_reg_r with (2 * PI); [lra|].
        unfold Rdiv. rewrite Rmult_assoc, Rinv_l by lra. lra. }
    apply Rtrunc_bounds; nra.
  - unfold polar_range_bin. rewrite py_int_divide_ok by lra.
    eexists. split; [reflexivity|].
    pose proof (sqrt_pos (x0 ^ 2 + x1 ^ 2)) as Hs.
    set (r := sqrt (x0 ^ 2 + x1 ^ 2)) in *.
    assert (Hq : 0 <= r / rr).
    { apply Rmult_le_pos; [assumption|]. left. apply Rinv_0_lt_compat. assumption. }
    unfold Rtrunc. rewrite Rltb_false by assumption.
    destruct (base_Int_part (r / rr)) as [Hle Hgt].
    assert (Hr : r = r / rr * rr) by (field; lra).
    split.
    + assert (H : (-1 < Int_part (r / rr))%Z) by (apply lt_IZR; lra). lia.
    + assert (H1 : IZR (Int_part (r / rr)) * rr <= r / rr * rr)
        by (apply Rmult_le_compat_r; lra).
      assert (H2 : r / rr * rr < (IZR (Int_part (r / rr)) + 1) * rr)
        by (apply Rmult_lt_compat_r; lra).
      rewrite <- Hr in H1, H2. split; assumption.
Qed.

Lemma polar_bins_in_range_witness :
  (0 < 8)%Z /\ 0 < 1
  /\ exists azimuth_bin : Z,
      polar_azimuth_bin 0 3 (2 * PI / IZR 8) = Ok azimuth_bin
      /\ (0 <= azimuth_bin < 8)%Z.
Proof.
  split; [lia|]. split; [lra|].
  apply (polar_bins_in_range 0 3 1 8); [lia | lra].
Defined.

Lemma polar_cell_spec (xs : cloud) (rr ar : R) (rb ab : Z) (k i j : nat) :
  polar_cell (Some xs) rr ar rb ab k = Ok (Some (i, j))
  <-> exists (x0 x1 x2 : R) (range_bin azimuth_bin : Z),
        nth_error xs k = Some (x0, x1, x2)
        /\ 0 <= x2 <= 0.5
        /\ polar_range_bin x0 x1 rr = Ok range_bin
        /\ polar_azimuth_bin x0 x1 ar = Ok azimuth_bin
        /\ (0 < range_bin < rb)%Z /\ (0 < azimuth_bin < ab)%Z
        /\ i = Z.to_nat azimuth_bin /\ j = Z.to_nat range_bin.
Proof.
  unfold polar_cell. split.
  - destruct (nth_error xs k) as [[[x0 x1] x2]|]; [|discriminate].
    destruct (out_of_band x2) eqn:Hband; [discriminate|].
    destruct (polar_range_bin x0 x1 rr) as [r|e] eqn:Hr; [|discriminate]. cbn [bind].
    destruct (polar_azimuth_bin x0 x1 ar) as [a|e] eqn:Ha; [|discriminate]. cbn [bind].
    destruct (strictly_inside r rb a ab) eqn:Hin; [|discriminate].
    intro H. injection H as <- <-. apply strictly_inside_spec in Hin.
    apply in_band_spec in Hband. exists x0, x1, x2, r, a.
    repeat split; try reflexivity; try tauto; lia.
  - intros (x0 & x1 & x2 & r & a & -> & Hz & -> & -> & Hr & Ha & -> & ->).
    replace (out_of_band x2) with false by (symmetry; apply in_band_spec; assumption).
    cbn [bind].
    replace (strictly_inside r rb a ab) with true
      by (symmetry; apply strictly_inside_spec; tauto).
    reflexivity.
Qed.

(** X9: in an image returned by [lidar_to_polar_image] the cell at row [i],
    column [j] is 255 exactly when one of the first [len(pc)] columns of the
    module-level [x] lies in the height band and is binned into a range bin
    [j] and an azimuth bin [a] with [i = azimuth_bins - 1 - a], both
    strictly inside their bin counts; no other cell is lit. *)
Theorem polar_image_lit_iff :
  forall (xs pc : cloud) (range_resolution azimuth_resolution : R)
         (range_bins azimuth_bins : Z) (img : image),
    lidar_to_polar_image (Some xs) pc range_resolution azimuth_resolution
                         range_bins azimuth_bins = Ok img ->
    forall i j : nat,
      pixel img i j = 255
      <-> exists (k : nat) (x0 x1 x2 : R) (range_bin azimuth_bin : Z),
            (k < length pc)%nat
            /\ nth_error xs k = Some (x0, x1, x2)
            /\ 0 <= x2 <= 0.5
            /\ polar_range_bin x0 x1 range_resolution = Ok range_bin
            /\ polar_azimuth_bin x0 x1 azimuth_resolution = Ok azimuth_bin
            /\ (0 < range_bin < range_bins)%Z
            /\ (0 < azimuth_bin < azimuth_bins)%Z
            /\ i = (Z.to_nat azimuth_bins - 1 - Z.to_nat azimuth_bin)%nat
            /\ j = Z.to_nat range_bin.
Proof.
  intros xs pc rr ar rb ab img H i j.
  destruct (polar_image_inv _ _ _ _ _ _ _ H) as [filled [Hfill ->]].
  destruct (polar_fill_pixels _ _ _ _ _ _ _ Hfill) as [Hshape [Hlit Hdark]].
  split.
  - intro Hpix.
    destruct (Nat.lt_ge_cases i (Z.to_nat ab)) as [Hi|Hi].
    + rewrite (pixel_flip _ _ i j filled Hshape Hi) in Hpix.
      destruct (Classical_Prop.classic
                  (exists k, (k < length pc)%nat
                             /\ polar_cell (Some xs) rr ar rb ab k
                                = Ok (Some ((Z.to_nat ab - 1 - i)%nat, j))))
        as [[k [Hk Hc]]|Hnex].
      * apply polar_cell_spec in Hc.
        destruct Hc as (x0 & x1 & x2 & r & a & Hn & Hz & Hr & Ha & Hrr & Haa & Hi' & Hj).
        exists k, x0, x1, x2, r, a. repeat (split; [assumption|]).
        split; [lia | assumption].
      * rewrite (Hdark _ _ Hnex) in Hpix. lra.
    + rewrite (pixel_outside _ _ i j _ (has_shape_flip _ _ _ Hshape)) in Hpix
        by (left; assumption). lra.
  - intros (k & x0 & x1 & x2 & r & a & Hk & Hn & Hz & Hr & Ha & Hrr & Haa & -> & ->).
    rewrite (pixel_flip _ _ _ _ filled Hshape) by lia.
    apply Hlit. exists k. split; [assumption|].
    apply polar_cell_spec. exists x0, x1, x2, r, a.
    repeat (split; [assumption|]). split; [lia | reflexivity].
Qed.

Lemma polar_image_lit_iff_witness :
  lidar_to_polar_image (Some [(0, 3, 0.25)]) [(0, 3, 0.25)] 1 (PI / 4) 5 8
  = Ok (np_flip0 (set2 2 3 255 (repeat (repeat 0 5%nat) 8%nat)))
  /\ pixel (np_flip0 (set2 2 3 255 (repeat (repeat 0 5%nat) 8%nat))) 5 3 = 255.
Proof.
  assert (Himg : lidar_to_polar_image (Some [(0, 3, 0.25)]) [(0, 3, 0.25)] 1 (PI / 4) 5 8
                 = Ok (np_flip0 (set2 2 3 255 (repeat (repeat 0 5%nat) 8%nat))))
    by (unfold lidar_to_polar_image; rewrite polar_fill_example; reflexivity).
  split; [exact Himg|].
  apply (polar_image_lit_iff [(0, 3, 0.25)] [(0, 3, 0.25)] 1 (PI / 4) 5 8 _ Himg
           5%nat 3%nat).
  exists 0%nat, 0, 3, 0.25, 3%Z, 2%Z.
  split; [simpl; lia|]. split; [reflexivity|]. split; [lra|].
  split; [apply polar_range_bin_example|].
  split; [apply polar_azimuth_bin_example|].
  split; [lia|]. split; [lia|]. split; reflexivity.
Defined.

(** ** The radar target image *)

Definition targets_cell (rows cols : nat) (target : Z * Z)
  : result (option (nat * nat)) :=
  i <- np_index rows (fst target) ;;
  j <- np_index cols (snd target) ;;
  Ok (Some (i, j)).

(** A target the image can hold: both indices in [[-n, n)] of their axis. *)
Definition target_in_bounds (rows cols : Z) (target : Z * Z) : Prop :=
  (- rows <= fst target < rows)%Z /\ (- cols <= snd target < cols)%Z.

Lemma np_index_ok (n : nat) (i : Z) :
  (- Z.of_nat n <= i < Z.of_nat n)%Z ->
  np_index n i = Ok (Z.to_nat (i mod Z.of_nat n)).
Proof.
  intro H. unfold np_index.
  destruct (Z.leb_spec 0 i) as [Hpos|Hneg]; destruct (Z.ltb_spec i (Z.of_nat n));
    cbn [andb]; try lia.
  - rewrite Z.mod_small by lia. reflexivity.
  - destruct (Z.leb_spec (- Z.of_nat n) i); destruct (Z.ltb_spec i 0); cbn [andb]; try lia.
    f_equal. f_equal.
    apply (Z.mod_unique_pos i (Z.of_nat n) (-1)); lia.
Qed.

Lemma np_index_error (n : nat) (i : Z) :
  ~ (- Z.of_nat n <= i < Z.of_nat n)%Z -> np_index n i = Raise IndexError.
Proof.
  intro H. unfold np_index.
  destruct (Z.leb_spec 0 i); destruct (Z.ltb_spec i (Z.of_nat n)); cbn [andb]; try lia;
    destruct (Z.leb_spec (- Z.of_nat n) i); destruct (Z.ltb_spec i 0); cbn [andb];
      try lia; reflexivity.
Qed.

Lemma np_index_range (n : nat) (i : Z) (k : nat) :
  np_index n i = Ok k -> (k < n)%nat /\ (- Z.of_nat n <= i < Z.of_nat n)%Z.
Proof.
  intro H.
  destruct (Classical_Prop.classic (- Z.of_nat n <= i < Z.of_nat n)%Z) as [Hin|Hout].
  - rewrite (np_index_ok n i Hin) in H. injection H as <-.
    split; [|assumption].
    pose proof (Z.mod_pos_bound i (Z.of_nat n) ltac:(lia)). lia.
  - rewrite (np_index_error n i Hout) in H. discriminate.
Qed.

Lemma targets_step_paint (rows cols : nat) (target : Z * Z) (polar : image) :
  has_shape rows cols polar ->
  targets_step target polar
  = (c <- targets_cell rows cols target ;; Ok (paint c polar)).
Proof.
  intros Hshape. unfold targets_step, targets_cell.
  replace (nrows polar) with rows by (symmetry; apply Hshape).
  destruct (np_index rows (fst target)) as [i|e] eqn:Hi; [|reflexivity]. cbn [bind].
  apply np_index_range in Hi.
  rewrite (ncols_shape rows cols polar Hshape) by lia.
  destruct (np_index cols (snd target)) as [j|e]; reflexivity.
Qed.

Lemma targets_cell_range (rows cols : nat) (target : Z * Z) (i j : nat) :
  targets_cell rows cols target = Ok (Some (i, j)) -> (i < rows)%nat /\ (j < cols)%nat.
Proof.
  unfold targets_cell.
  destruct (np_index rows (fst target)) as [i'|e] eqn:Hi; [|discriminate]. cbn [bind].
  destruct (np_index cols (snd target)) as [j'|e] eqn:Hj; [|discriminate]. cbn [bind].
  intro H. injection H as <- <-.
  apply np_index_range in Hi, Hj. tauto.
Qed.

Lemma for_each_ext_shape {A : Type} (n m : nat)
    (body body' : A -> image -> result image) (l : list A) (s : image) :
  (forall a t, has_shape n m t -> body a t = body' a t) ->
  (forall a t t', has_shape n m t -> body' a t = Ok t' -> has_shape n m t') ->
  has_shape n m s ->
  for_each body l s = for_each body' l s.
Proof.
  intros Heq Hinv. revert s. induction l as [|a l IH]; intros s Hs; [reflexivity|].
  simpl. rewrite (Heq a s Hs).
  destruct (body' a s) as [s'|e] eqn:Hb; [|reflexivity]. cbn [bind].
  apply IH. apply (Hinv a s s' Hs Hb).
Qed.

Lemma targets_image_paint (targets : list (Z * Z)) (rows cols : Z) :
  (0 <= rows)%Z -> (0 <= cols)%Z ->
  targets_to_polar_image targets (rows, cols)
  = for_each (fun t s => c <- targets_cell (Z.to_nat rows) (Z.to_nat cols) t ;;
                         Ok (paint c s))
             targets (repeat (repeat 0 (Z.to_nat cols)) (Z.to_nat rows)).
Proof.
  intros Hr Hc. unfold targets_to_polar_image. cbn [fst snd].
  rewrite np_zeros_ok by assumption. cbn [bind].
  apply (for_each_ext_shape (Z.to_nat rows) (Z.to_nat cols)).
  - intros t s Hs. apply targets_step_paint. assumption.
  - intros t s s' Hs Hb.
    destruct (targets_cell (Z.to_nat rows) (Z.to_nat cols) t) as [[[i j]|]|e];
      cbn [bind paint] in Hb; try discriminate; injection Hb as <-;
      [apply has_shape_set2|]; assumption.
  - apply has_shape_repeat.
Qed.

Lemma targets_cell_ok (rows cols : Z) (target : Z * Z) :
  (0 <= rows)%Z -> (0 <= cols)%Z -> target_in_bounds rows cols target ->
  targets_cell (Z.to_nat rows) (Z.to_nat cols) target
  = Ok (Some (Z.to_nat (fst target mod rows), Z.to_nat (snd target mod cols))).
Proof.
  intros Hr Hc [Hi Hj]. unfold targets_cell.
  rewrite (np_index_ok (Z.to_nat rows) (fst target)) by lia. cbn [bind].
  rewrite (np_index_ok (Z.to_nat cols) (snd target)) by lia. cbn [bind].
  rewrite !Z2Nat.id by assumption. reflexivity.
Qed.

(** X10: when every target index lies in [[-n, n)] of its axis,
    [targets_to_polar_image] returns an image of the requested shape whose
    cells are 0 or 255, and the cell at row [i], column [j] is 255 exactly
    when some target is [(i, j)] modulo the shape: a negative index counts
    from the end of its axis. *)
Theorem targets_image_lit_iff :
  forall (targets : list (Z * Z)) (rows cols : Z),
    (0 <= rows)%Z -> (0 <= cols)%Z ->
    (forall t, In t targets -> target_in_bounds rows cols t) ->
    exists img : image,
      targets_to_polar_image targets (rows, cols) = Ok img
      /\ has_shape (Z.to_nat rows) (Z.to_nat cols) img
      /\ (forall i j : nat, pixel img i j = 0 \/ pixel img i j = 255)
      /\ (forall i j : nat,
             pixel img i j = 255
             <-> exists t, In t targets
                           /\ i = Z.to_nat (fst t mod rows)
                           /\ j = Z.to_nat (snd t mod cols)).
Proof.
  intros targets rows cols Hr Hc Hall.
  rewrite (targets_image_paint targets rows cols Hr Hc).
  set (cell := targets_cell (Z.to_nat rows) (Z.to_nat cols)).
  set (zeros := repeat (repeat 0 (Z.to_nat cols)) (Z.to_nat rows)).
  destruct (for_each_total (fun t s => c <- cell t ;; Ok (paint c s))
              (has_shape (Z.to_nat rows) (Z.to_nat cols)) targets) with (s := zeros)
    as [img [Himg Hshape]].
  { intros t s Ht Hs. unfold cell.
    rewrite (targets_cell_ok rows cols t Hr Hc (Hall t Ht)). cbn [bind paint].
    eexists. split; [reflexivity|]. apply has_shape_set2. assumption. }
  { apply has_shape_repeat. }
  exists img. split; [assumption|]. split; [assumption|].
  destruct (paint_loop cell (Z.to_nat rows) (Z.to_nat cols) targets zeros img Himg
              (has_shape_repeat _ _ 0)) as [_ [_ [Hlit Hkeep]]].
  { intros t i j _ Ht. apply (targets_cell_range _ _ t). assumption. }
  assert (Hiff : forall i j,
            (exists t, In t targets /\ cell t = Ok (Some (i, j)))
            <-> (exists t, In t targets
                           /\ i = Z.to_nat (fst t mod rows)
                           /\ j = Z.to_nat (snd t mod cols))).
  { intros i j. split; intros [t [Ht H]]; exists t; (split; [assumption|]);
      unfold cell in *; rewrite (targets_cell_ok rows cols t Hr Hc (Hall t Ht)) in *.
    - injection H as <- <-. split; reflexivity.
    - destruct H as [-> ->]. reflexivity. }
  split.
  - intros i j.
    destruct (Classical_Prop.classic
                (exists t, In t targets /\ cell t = Ok (Some (i, j)))) as [Hex|Hnex].
    + right. apply Hlit. assumption.
    + left. rewrite (Hkeep i j Hnex). apply pixel_zeros.
  - intros i j. rewrite <- Hiff. split.
    + intro Hpix.
      destruct (Classical_Prop.classic
                  (exists t, In t targets /\ cell t = Ok (Some (i, j)))) as [Hex|Hnex];
        [assumption|].
      rewrite (Hkeep i j Hnex) in Hpix. unfold zeros in Hpix.
      rewrite pixel_zeros in Hpix. lra.
    + apply Hlit.
Qed.

Lemma targets_image_lit_iff_witness :
  exists img : image,
    targets_to_polar_image [(1, 2); (-1, -3)]%Z (3, 4)%Z = Ok img
    /\ has_shape 3 4 img.
Proof.
  destruct (targets_image_lit_iff [(1, 2); (-1, -3)]%Z 3 4 ltac:(lia) ltac:(lia))
    as [img [Himg [Hshape _]]].
  - intros t [<-|[<-|[]]]; unfold target_in_bounds; simpl; lia.
  - exists img. split; assumption.
Defined.

(** The last row of a 3 x 4 image is reached by the row index -1. *)
Example targets_image_negative_index :
  targets_to_polar_image [(1, 2); (-1, -3)]%Z (3, 4)%Z
  = Ok [[0; 0; 0; 0]; [0; 0; 255; 0]; [0; 255; 0; 0]].
Proof. reflexivity. Qed.

(** X11: for a non-negative shape, [targets_to_polar_image] ends in an
    index error exactly when some target has an index outside [[-n, n)] of
    its axis; nothing is clipped or dropped silently. *)
Theorem targets_image_index_error :
  forall (targets : list (Z * Z)) (rows cols : Z),
    (0 <= rows)%Z -> (0 <= cols)%Z ->
    (targets_to_polar_image targets (rows, cols) = Raise IndexError
     <-> exists t, In t targets /\ ~ target_in_bounds rows cols t).
Proof.
  intros targets rows cols Hr Hc.
  rewrite (targets_image_paint targets rows cols Hr Hc).
  generalize (repeat (repeat 0 (Z.to_nat cols)) (Z.to_nat rows)) as s.
  induction targets as [|t targets IH]; intro s.
  - simpl. split; [discriminate | intros [t [[] _]]].
  - cbn [for_each].
    destruct (Classical_Prop.classic (target_in_bounds rows cols t)) as [Hin|Hout].
    + rewrite (targets_cell_ok rows cols t Hr Hc Hin). cbn [bind].
      rewrite IH. split; intros [t' [Ht' Hbad]]; exists t'.
      * split; [right|]; assumption.
      * destruct Ht' as [<-|Ht']; [contradiction|]. split; assumption.
    + assert (Herr : targets_cell (Z.to_nat rows) (Z.to_nat cols) t = Raise IndexError).
      { unfold targets_cell, target_in_bounds in *.
        destruct (Classical_Prop.classic (- rows <= fst t < rows)%Z) as [Hi|Hi].
        - rewrite (np_index_ok (Z.to_nat rows) (fst t)) by lia. cbn [bind].
          rewrite (np_index_error (Z.to_nat cols) (snd t)) by lia. reflexivity.
        - rewrite (np_index_error (Z.to_nat rows) (fst t)) by lia. reflexivity. }
      rewrite Herr. cbn [bind]. split; [|reflexivity].
      intros _. exists t. split; [left; reflexivity | assumption].
Qed.

Lemma targets_image_index_error_witness :
  (0 <= 3)%Z /\ (0 <= 4)%Z
  /\ targets_to_polar_image [(1, 2); (3, 0)]%Z (3, 4)%Z = Raise IndexError.
Proof.
  split; [lia|]. split; [lia|].
  apply (targets_image_index_error [(1, 2); (3, 0)]%Z 3 4); try lia.
  exists (3, 0)%Z. split; [simpl; tauto|].
  unfold target_in_bounds. simpl. lia.
Defined.

(** ** Rotating the lidar scan *)

Ltac pair_eq := repeat match goal with |- (_, _) = (_, _) => apply f_equal2 end.


Lemma rotate_column_get_rotation (theta p0 p1 p2 : R) :
  rotate_column (get_rotation theta) (p0, p1, p2)
  = (cos theta * p0 + sin theta * p1, - sin theta * p0 + cos theta * p1, p2).
Proof.
  rewrite get_rotation_entries. unfold rotate_column, matmul, column, at2. simpl.
  pair_eq; ring.
Qed.

(** X12: the yaw matrices compose by adding their angles, and the matrix of
    the opposite angle is the transpose, which undoes the rotation. *)
Theorem get_rotation_compose :
  forall a b : R,
    matmul (get_rotation a) (get_rotation b) = get_rotation (a + b)
    /\ get_rotation (- a) = transpose (get_rotation a)
    /\ matmul (get_rotation (- a)) (get_rotation a) = np_identity 3.
Proof.
  intros a b. pose proof (cos2_sin2_one a) as Hcs.
  rewrite !get_rotation_entries.
  split; [|split].
  - rewrite cos_plus, sin_plus. unfold matmul, column. simpl.
    repeat (f_equal; try ring).
  - rewrite cos_neg, sin_neg. unfold transpose, column. simpl.
    repeat (f_equal; try ring).
  - rewrite cos_neg, sin_neg. unfold matmul, column, np_identity. simpl.
    repeat (f_equal; try lra).
Qed.

(** X13: rotating a cloud by [theta] and then by [-theta] gives the cloud
    back, and two rotations in a row are the rotation by the sum of the
    angles; the number of points never changes. *)
Theorem rotate_cloud_round_trip :
  forall (theta phi : R) (x : cloud),
    rotate_cloud (get_rotation (- theta)) (rotate_cloud (get_rotation theta) x) = x
    /\ rotate_cloud (get_rotation phi) (rotate_cloud (get_rotation theta) x)
       = rotate_cloud (get_rotation (theta + phi)) x
    /\ length (rotate_cloud (get_rotation theta) x) = length x.
Proof.
  intros theta phi x. pose proof (cos2_sin2_one theta) as Hcs.
  unfold rotate_cloud. split; [|split].
  - rewrite map_map. rewrite <- (map_id x) at 2. apply map_ext.
    intros [[p0 p1] p2]. rewrite !rotate_column_get_rotation, cos_neg, sin_neg.
    pair_eq; try reflexivity;
      match goal with
      | |- _ = ?p =>
        transitivity ((cos theta * cos theta + sin theta * sin theta) * p);
          [ring | rewrite Hcs; ring]
      end.
  - rewrite map_map. apply map_ext.
    intros [[p0 p1] p2]. rewrite !rotate_column_get_rotation, cos_plus, sin_plus.
    pair_eq; ring.
  - apply length_map.
Qed.

(** X14: the rotation leaves the height of a point and its distance to the
    vertical axis as they are, so the point passes the height filter and
    falls into the same range bin before and after. *)
Theorem rotate_column_invariants :
  forall (theta p0 p1 p2 range_resolution : R),
    exists q0 q1 : R,
      rotate_column (get_rotation theta) (p0, p1, p2) = (q0, q1, p2)
      /\ q0 ^ 2 + q1 ^ 2 = p0 ^ 2 + p1 ^ 2
      /\ polar_range_bin q0 q1 range_resolution
         = polar_range_bin p0 p1 range_resolution
      /\ in_band (q0, q1, p2) = in_band (p0, p1, p2).
Proof.
  intros theta p0 p1 p2 rr. pose proof (cos2_sin2_one theta) as Hcs.
  exists (cos theta * p0 + sin theta * p1), (- sin theta * p0 + cos theta * p1).
  assert (Hnorm : (cos theta * p0 + sin theta * p1) ^ 2
                  + (- sin theta * p0 + cos theta * p1) ^ 2 = p0 ^ 2 + p1 ^ 2).
  { replace ((cos theta * p0 + sin theta * p1) ^ 2
             + (- sin theta * p0 + cos theta * p1) ^ 2)
      with ((cos theta * cos theta + sin theta * sin theta) * (p0 ^ 2 + p1 ^ 2))
      by ring.
    rewrite Hcs. ring. }
  split; [apply rotate_column_get_rotation|]. split; [assumption|].
  split; [|reflexivity].
  unfold polar_range_bin. rewrite Hnorm. reflexivity.
Qed.

(** ** The aggregate rotation *)

Lemma Rsum_app (l1 l2 : list R) : Rsum (l1 ++ l2) = Rsum l1 + Rsum l2.
Proof. induction l1 as [|a l1 IH]; simpl; [ring|]. unfold Rsum in *. simpl. rewrite IH. ring. Qed.

Lemma Rsum_permutation (l1 l2 : list R) : Permutation l1 l2 -> Rsum l1 = Rsum l2.
Proof.
  induction 1 as [|a l1 l2 _ IH|a b l|l1 l2 l3 _ IH1 _ IH2]; unfold Rsum in *; simpl.
  - reflexivity.
  - rewrite IH. reflexivity.
  - ring.
  - rewrite IH1. assumption.
Qed.

Lemma mean_permutation (l1 l2 : list R) : Permutation l1 l2 -> mean l1 = mean l2.
Proof.
  intro H. unfold mean. rewrite (Rsum_permutation _ _ H), (Permutation_length H).
  reflexivity.
Qed.

Lemma np_std_permutation (l1 l2 : list R) : Permutation l1 l2 -> np_std l1 = np_std l2.
Proof.
  intro H. unfold np_std. rewrite (mean_permutation _ _ H). f_equal.
  apply mean_permutation. apply Permutation_map. assumption.
Qed.

Lemma filter_permutation {A : Type} (f : A -> bool) (l1 l2 : list A) :
  Permutation l1 l2 -> Permutation (filter f l1) (filter f l2).
Proof.
  induction 1 as [|a l1 l2 _ IH|a b l|l1 l2 l3 _ IH1 _ IH2]; simpl.
  - constructor.
  - destruct (f a); [constructor|]; assumption.
  - destruct (f a), (f b); try reflexivity. constructor.
  - eapply perm_trans; eassumption.
Qed.

Lemma np_mean_permutation (l1 l2 : list R) : Permutation l1 l2 -> np_mean l1 = np_mean l2.
Proof.
  intro H. unfold np_mean.
  destruct l1 as [|a l1]; destruct l2 as [|b l2]; try reflexivity.
  - apply Permutation_nil in H. discriminate.
  - apply Permutation_sym, Permutation_nil in H. discriminate.
  - rewrite (Rsum_permutation _ _ H), (Permutation_length H). reflexivity.
Qed.

Lemma np_std_nonneg (l : list R) : 0 <= np_std l.
Proof. apply sqrt_pos. Qed.

Lemma np_mean_finite (l : list R) :
  l <> [] -> np_mean l = Finite (Rsum l / INR (length l)).
Proof. destruct l; [congruence | reflexivity]. Qed.

Lemma Rsum_bounds (l : list R) (lo hi : R) :
  (forall v, In v l -> lo <= v <= hi) ->
  INR (length l) * lo <= Rsum l <= INR (length l) * hi.
Proof.
  induction l as [|a l IH]; intro H.
  - unfold Rsum. simpl. lra.
  - change (Rsum (a :: l)) with (a + Rsum l).
    change (length (a :: l)) with (S (length l)). rewrite S_INR.
    pose proof (H a (or_introl eq_refl)).
    pose proof (IH (fun v Hv => H v (or_intror Hv))). lra.
Qed.

Lemma mean_bounds (l : list R) (lo hi : R) :
  l <> [] -> (forall v, In v l -> lo <= v <= hi) ->
  lo <= Rsum l / INR (length l) <= hi.
Proof.
  intros Hne H. pose proof (Rsum_bounds l lo hi H) as [Hl Hh].
  assert (Hn : 0 < INR (length l)).
  { apply lt_0_INR. destruct l; [congruence | simpl; lia]. }
  split.
  - apply Rmult_le_reg_r with (INR (length l)); [assumption|].
    unfold Rdiv. rewrite Rmult_assoc, Rinv_l by lra. lra.
  - apply Rmult_le_reg_r with (INR (length l)); [assumption|].
    unfold Rdiv. rewrite Rmult_assoc, Rinv_l by lra. lra.
Qed.

Lemma np_std_two (a b : R) : np_std [a; b] = Rabs (a - b) / 2.
Proof.
  assert (Hm : mean [a; b] = (a + b) / 2) by (unfold mean, Rsum; simpl; field).
  unfold np_std. rewrite Hm. unfold mean, Rsum. cbn [map fold_right length].
  rewrite !pow2_abs.
  replace (((a - (a + b) / 2) ^ 2 + ((b - (a + b) / 2) ^ 2 + 0)) / INR 2)
    with (((a - b) / 2) ^ 2) by (simpl; field).
  rewrite <- (pow2_abs ((a - b) / 2)). rewrite sqrt_pow2 by apply Rabs_pos.
  unfold Rdiv. rewrite Rabs_mult. rewrite (Rabs_pos_eq (/ 2)) by lra. reflexivity.
Qed.

Lemma np_std_single (a : R) : np_std [a] = 0.
Proof.
  assert (Hm : mean [a] = a) by (unfold mean, Rsum; simpl; field).
  unfold np_std. rewrite Hm. unfold mean, Rsum. cbn [map fold_right length].
  rewrite pow2_abs.
  replace (((a - a) ^ 2 + 0) / INR 1) with 0 by (simpl; field).
  apply sqrt_0.
Qed.

(** X15: with one or two frames the clipping of line 191 keeps every
    estimate or none.  A run over a single frame reports NaN, not the
    estimate of the frame: the standard deviation is 0 and the test
    [< 3 * std] is strict, so no sample is kept.  Two frames with the same
    estimate report NaN as well; two frames with different estimates report
    their mean. *)
Theorem aggregate_rotations_few_frames :
  forall a b : R,
    aggregate_rotations [a] = Ok NaN
    /\ aggregate_rotations [a; a] = Ok NaN
    /\ (a <> b -> aggregate_rotations [a; b] = Ok (Finite ((a + b) / 2))).
Proof.
  intros a b. split; [|split].
  - unfold aggregate_rotations, within_3_sigma. cbn [rev app filter].
    rewrite np_std_single, Rmult_0_r.
    rewrite Rltb_false by apply Rabs_pos. reflexivity.
  - unfold aggregate_rotations, within_3_sigma. cbn [rev app filter].
    rewrite np_std_two.
    replace (a - a) with 0 by ring. rewrite Rabs_R0.
    rewrite Rltb_false by lra. reflexivity.
  - intro Hne.
    assert (Hpos : 0 < Rabs (a - b)) by (apply Rabs_pos_lt; lra).
    unfold aggregate_rotations, within_3_sigma. cbn [rev app filter].
    rewrite np_std_two.
    replace (b - b) with 0 by ring. rewrite Rabs_R0.
    rewrite !Rltb_true by lra.
    unfold np_mean, Rsum. simpl. f_equal. f_equal. field.
Qed.

Lemma aggregate_rotations_few_frames_witness :
  aggregate_rotations [PI / 4] = Ok NaN
  /\ aggregate_rotations [0; 2] = Ok (Finite ((0 + 2) / 2)).
Proof.
  destruct (aggregate_rotations_few_frames (PI / 4) 0) as [Hone _].
  destruct (aggregate_rotations_few_frames 0 2) as [_ [_ Htwo]].
  split; [exact Hone|]. apply Htwo. lra.
Defined.

(** X16: the aggregate depends on the frames through the estimate of the
    last frame and the collection of all estimates only: reordering the
    frames before the last one does not change it. *)
Theorem aggregate_rotations_reorder :
  forall (l1 l2 : list R) (rotation : R),
    Permutation l1 l2 ->
    aggregate_rotations (l1 ++ [rotation]) = aggregate_rotations (l2 ++ [rotation]).
Proof.
  intros l1 l2 c Hperm. rewrite !aggregate_rotations_last. f_equal.
  assert (Hall : Permutation (l1 ++ [c]) (l2 ++ [c]))
    by (apply Permutation_app_tail; assumption).
  apply np_mean_permutation. unfold within_3_sigma.
  rewrite (np_std_permutation _ _ Hall). apply filter_permutation. assumption.
Qed.

Lemma aggregate_rotations_reorder_witness :
  aggregate_rotations ([0; PI / 4; PI / 3] ++ [PI / 2])
  = aggregate_rotations ([PI / 3; 0; PI / 4] ++ [PI / 2]).
Proof.
  apply aggregate_rotations_reorder.
  apply (perm_trans (l' := [0; PI / 3; PI / 4])).
  - apply perm_skip. apply perm_swap.
  - apply perm_swap.
Defined.

(** X17: a finite aggregate is a mean of some of the estimates, so it lies
    between any bounds that hold for all of them; with per-frame rotations
    in [[0, pi]] the aggregate is in [[0, pi]]. *)
Theorem aggregate_rotations_bounds :
  forall (rotations : list R) (lo hi r : R),
    aggregate_rotations rotations = Ok (Finite r) ->
    (forall v, In v rotations -> lo <= v <= hi) ->
    lo <= r <= hi.
Proof.
  intros rotations lo hi r Hagg Hall.
  unfold aggregate_rotations in Hagg.
  destruct (rev rotations) as [|c t]; [discriminate|].
  injection Hagg as Hmean.
  destruct (within_3_sigma c rotations) as [|a l] eqn:Hsel; [discriminate|].
  rewrite np_mean_finite in Hmean by discriminate.
  assert (Hr : r = Rsum (a :: l) / INR (length (a :: l))) by congruence.
  rewrite Hr. apply mean_bounds; [discriminate|].
  intros v Hv. apply Hall. rewrite <- Hsel in Hv.
  unfold within_3_sigma in Hv. apply filter_In in Hv. tauto.
Qed.

Lemma aggregate_two_frames : aggregate_rotations [0; 2] = Ok (Finite 1).
Proof.
  assert (Hstd : np_std [0; 2] = 1).
  { unfold np_std, mean, Rsum. simpl.
    replace ((0 + (2 + 0)) / (1 + 1)) with 1 by field.
    rewrite (Rabs_eval (0 - 1) 1) by (right; lra).
    rewrite (Rabs_eval (2 - 1) 1) by (left; lra).
    replace ((1 * (1 * 1) + (1 * (1 * 1) + 0)) / (1 + 1)) with 1 by field.
    apply sqrt_1. }
  unfold aggregate_rotations, within_3_sigma. rewrite Hstd. cbn [rev app filter].
  rewrite (Rabs_eval (0 - 2) 2) by (right; lra).
  rewrite (Rabs_eval (2 - 2) 0) by (left; lra).
  rewrite !Rltb_true by lra.
  unfold np_mean, Rsum. simpl. f_equal. f_equal. field.
Qed.

Lemma aggregate_rotations_bounds_witness :
  aggregate_rotations [0; 2] = Ok (Finite 1) /\ 0 <= 1 <= 2.
Proof.
  split; [apply aggregate_two_frames|].
  apply (aggregate_rotations_bounds [0; 2] 0 2 1 aggregate_two_frames).
  intros v [<-|[<-|[]]]; lra.
Defined.

(** ** The reported rotation and the folded shift *)

(** X18: the reported rotation has no sign.  With the azimuth step
    [2 pi / n], the peak indices [i] and [n - i] (a yaw of the same size in
    the two directions) give the same rotation, which lies in
    [[0, pi]]. *)
Theorem rotation_of_index_mirror :
  forall n i : nat,
    (0 < i < n)%nat ->
    rotation_of_index i (2 * PI / INR n) = rotation_of_index (n - i) (2 * PI / INR n)
    /\ 0 <= rotation_of_index i (2 * PI / INR n) <= PI.
Proof.
  intros n i [Hi Hin]. pose proof PI_RGT_0 as Hpi.
  assert (Hn : 0 < INR n) by (apply lt_0_INR; lia).
  assert (Hi' : 0 < INR i < INR n) by (split; [apply lt_0_INR | apply lt_INR]; lia).
  set (q := INR i / INR n).
  assert (Hq : 0 < q < 1).
  { unfold q. split.
    - apply Rmult_lt_0_compat; [lra | apply Rinv_0_lt_compat; lra].
    - apply Rmult_lt_reg_r with (INR n); [assumption|].
      unfold Rdiv. rewrite Rmult_assoc, Rinv_l by lra. lra. }
  assert (Hc : INR i * (2 * PI / INR n) = 2 * PI * q) by (unfold q; field; lra).
  assert (Hc' : INR (n - i) * (2 * PI / INR n) = 2 * PI - 2 * PI * q).
  { rewrite minus_INR by lia. unfold q. field. lra. }
  unfold rotation_of_index. rewrite Hc, Hc'.
  destruct (Rtotal_order (2 * PI * q) PI) as [Hlt|[Heq|Hgt]].
  - rewrite (fold_rotation_le (2 * PI * q)) by lra.
    rewrite (fold_rotation_gt (2 * PI - 2 * PI * q)) by lra. split; [ring | nra].
  - rewrite (fold_rotation_le (2 * PI * q)) by lra.
    rewrite (fold_rotation_le (2 * PI - 2 * PI * q)) by lra. lra.
  - rewrite (fold_rotation_gt (2 * PI * q)) by lra.
    rewrite (fold_rotation_le (2 * PI - 2 * PI * q)) by lra. split; [ring | nra].
Qed.

Lemma rotation_of_index_mirror_witness :
  (0 < 100 < 800)%nat
  /\ rotation_of_index 100 (2 * PI / INR 800) = rotation_of_index (800 - 100) (2 * PI / INR 800).
Proof.
  split; [lia|]. apply (rotation_of_index_mirror 800 100). lia.
Defined.

(** X19: for a peak index below a positive image width the folded shift is
    the index or the index minus the width, whichever lies in
    [(-width / 2, width / 2]]; it is congruent to the index modulo the
    width. *)
Theorem fold_shift_range :
  forall (delta : nat) (cart_width2 : Z),
    (Z.of_nat delta < cart_width2)%Z ->
    (- cart_width2 < 2 * fold_shift delta cart_width2 <= cart_width2)%Z
    /\ (fold_shift delta cart_width2 mod cart_width2 = Z.of_nat delta)%Z.
Proof.
  intros delta w Hlt. unfold fold_shift. rewrite INR_IZR_INZ.
  destruct (Rltb (IZR w / 2) (IZR (Z.of_nat delta))) eqn:Hcmp.
  - apply Rltb_spec in Hcmp.
    assert (H : (w < 2 * Z.of_nat delta)%Z).
    { apply lt_IZR. rewrite mult_IZR. lra. }
    split; [lia|].
    symmetry. apply (Z.mod_unique_pos _ w (-1)); lia.
  - assert (H : (2 * Z.of_nat delta <= w)%Z).
    { apply le_IZR. rewrite mult_IZR.
      destruct (Rlt_dec (IZR w / 2) (IZR (Z.of_nat delta))) as [Hc|Hc];
        [apply Rltb_spec in Hc; congruence | lra]. }
    split; [lia|]. apply Z.mod_small. lia.
Qed.

Lemma fold_shift_range_witness :
  (Z.of_nat 7 < 10)%Z /\ (fold_shift 7 10 mod 10 = Z.of_nat 7)%Z.
Proof.
  split; [lia|]. apply (fold_shift_range 7 10). lia.
Defined.

(** ** The closest frame, continued *)

Lemma get_closest_frame_run {T : Type} (q : R) (times : list R) (targets : list T) :
  times <> [] ->
  exists j : nat,
    (j < length times)%nat
    /\ (forall k, (k < length times)%nat ->
                  Rabs (nth j times 0 - q) <= Rabs (nth k times 0 - q))
    /\ (forall k, (k < j)%nat -> Rabs (nth j times 0 - q) < Rabs (nth k times 0 - q))
    /\ get_closest_frame q times targets
       = if Rltb (Rabs (nth j times 0 - q)) 1.0
         then getitem targets j
         else Raise (AssertionError (closest_time_not_found q)).
Proof.
  intro Hne. set (diff := fun t : R => Rabs (t - q)).
  assert (Hne' : map diff times <> [])
    by (destruct times; [congruence | discriminate]).
  destruct (np_argmin_spec _ Hne') as [j [Harg [Hj [Hmin Hfirst]]]].
  rewrite length_map in Hj, Hmin.
  assert (Hnth : forall k, (k < length times)%nat ->
                           nth k (map diff times) 0 = diff (nth k times 0)).
  { intros k Hk. rewrite (nth_indep _ 0 (diff 0)) by (rewrite length_map; assumption).
    apply map_nth. }
  exists j. split; [assumption|]. split; [|split].
  - intros k Hk. fold (diff (nth j times 0)) (diff (nth k times 0)).
    rewrite <- !Hnth by assumption. apply Hmin. assumption.
  - intros k Hk. fold (diff (nth j times 0)) (diff (nth k times 0)).
    rewrite <- !Hnth by lia. apply Hfirst. assumption.
  - unfold get_closest_frame. fold diff. rewrite Harg. cbn [bind].
    rewrite (getitem_nth times j 0 Hj). cbn [bind].
    rewrite (Rabs_minus_sym q (nth j times 0)). reflexivity.
Qed.

(** X20: a frame that [get_closest_frame] returns is [targets[j]] for the
    earliest index [j] whose time is closest to the query (a tie goes to
    the earlier frame), and that time is strictly less than 1.0 away: a
    frame at distance 1.0 or more is never returned.  An empty list of
    times is refused with a value error. *)
Theorem get_closest_frame_sound :
  forall (T : Type) (query_time : R) (target_times : list R) (targets : list T)
         (t : T),
    get_closest_frame query_time target_times targets = Ok t ->
    get_closest_frame query_time [] targets = Raise ValueError
    /\ exists j : nat,
        (j < length target_times)%nat
        /\ nth_error targets j = Some t
        /\ Rabs (nth j target_times 0 - query_time) < 1.0
        /\ (forall k, (k < length target_times)%nat ->
                      Rabs (nth j target_times 0 - query_time)
                      <= Rabs (nth k target_times 0 - query_time))
        /\ (forall k, (k < j)%nat ->
                      Rabs (nth j target_times 0 - query_time)
                      < Rabs (nth k target_times 0 - query_time)).
Proof.
  intros T q times targets t Hok. split; [reflexivity|].
  destruct times as [|t0 times]; [discriminate|].
  destruct (get_closest_frame_run q (t0 :: times) targets ltac:(discriminate))
    as [j [Hj [Hmin [Hfirst Hrun]]]].
  rewrite Hrun in Hok.
  destruct (Rltb (Rabs (nth j (t0 :: times) 0 - q)) 1.0) eqn:Hclose; [|discriminate].
  apply Rltb_spec in Hclose. unfold getitem in Hok.
  destruct (nth_error targets j) as [t'|] eqn:Ht; [|discriminate].
  injection Hok as ->. exists j. auto.
Qed.

Lemma get_closest_frame_sound_witness :
  get_closest_frame 12.75 [10; 12.5; 13] [1%nat; 2%nat; 3%nat] = Ok 2%nat
  /\ exists j : nat,
      (j < 3)%nat /\ nth_error [1%nat; 2%nat; 3%nat] j = Some 2%nat.
Proof.
  split; [apply get_closest_frame_tie|].
  destruct (get_closest_frame_sound nat 12.75 [10; 12.5; 13] [1%nat; 2%nat; 3%nat]
              2%nat get_closest_frame_tie) as [_ [j [Hj [Ht _]]]].
  exists j. split; assumption.
Defined.

(** ** The overlay of the two cartesian images *)

Lemma binarize_binary (v : R) : binarize v = 0 \/ binarize v = 255.
Proof. unfold binarize. destruct (Rltb 0 v); [right | left]; reflexivity. Qed.

Lemma overlay_light_table :
  overlay_light 0 0 = (255, 255, 255)
  /\ overlay_light 255 0 = (255, 0, 0)
  /\ overlay_light 0 255 = (0, 0, 255)
  /\ overlay_light 255 255 = (255, 0, 255).
Proof.
  unfold overlay_light, truthy, times_255.
  rewrite (Reqb_true 0 0), (Reqb_true 255 255) by reflexivity.
  rewrite (Reqb_false 0 255), (Reqb_false 255 0) by lra.
  cbn [negb orb andb].
  rewrite ?(Reqb_true 0 0), ?(Reqb_false 255 0) by lra.
  cbn [negb orb andb]. repeat split.
Qed.

(** X21: for pixels that are 0 or 255 the overlay colours tell the four
    cases apart.  In light mode: white where neither sensor has a
    detection, red for lidar only, blue for radar only, magenta for both.
    In the default mode: black, red, green, yellow.  From the colour of a
    pixel both input pixels can be read back. *)
Theorem overlay_colours_decode :
  forall lidar radar lidar' radar' : R,
    (lidar = 0 \/ lidar = 255) -> (radar = 0 \/ radar = 255) ->
    (lidar' = 0 \/ lidar' = 255) -> (radar' = 0 \/ radar' = 255) ->
    (overlay_light lidar radar
     = (if Reqb radar 255 then (if Reqb lidar 255 then (255, 0, 255) else (0, 0, 255))
        else (if Reqb lidar 255 then (255, 0, 0) else (255, 255, 255))))
    /\ overlay_dark lidar radar = (lidar, radar, 0)
    /\ (overlay_light lidar radar = overlay_light lidar' radar' ->
        lidar = lidar' /\ radar = radar')
    /\ (overlay_dark lidar radar = overlay_dark lidar' radar' ->
        lidar = lidar' /\ radar = radar').
Proof.
  intros lidar radar lidar' radar' Hl Hr Hl' Hr'.
  destruct overlay_light_table as [H00 [H10 [H01 H11]]].
  assert (E0 : Reqb 0 255 = false) by (apply Reqb_false; lra).
  assert (E1 : Reqb 255 255 = true) by (apply Reqb_true; reflexivity).
  split; [|split; [reflexivity|split]].
  - destruct Hl as [-> | ->], Hr as [-> | ->]; rewrite ?E0, ?E1; assumption.
  - destruct Hl as [-> | ->], Hr as [-> | ->], Hl' as [-> | ->], Hr' as [-> | ->];
      rewrite ?H00, ?H10, ?H01, ?H11; intro H; try (split; reflexivity);
        exfalso; injection H; intros; lra.
  - unfold overlay_dark. intro H. injection H as -> ->. split; reflexivity.
Qed.

Lemma overlay_colours_decode_witness :
  overlay_light 255 0 = (255, 0, 0) /\ overlay_dark 255 0 = (255, 0, 0).
Proof.
  destruct (overlay_colours_decode 255 0 255 0) as [Hlight [Hdark _]];
    try (left; reflexivity); try (right; reflexivity).
  split; [|exact Hdark].
  rewrite Hlight.
  rewrite (Reqb_false 0 255) by lra. rewrite (Reqb_true 255 255) by reflexivity.
  reflexivity.
Defined.

(** ** The configured offset *)

Lemma Rtrunc_pos (r : R) :
  (0 < Rtrunc r)%Z -> 0 <= r /\ IZR (Rtrunc r) <= r < IZR (Rtrunc r) + 1.
Proof.
  unfold Rtrunc. destruct (Rltb r 0) eqn:Hneg.
  - apply Rltb_spec in Hneg. intro H. exfalso.
    destruct (base_Int_part (- r)) as [_ Hlow].
    assert (Hz : (-1 < Int_part (- r))%Z) by (apply lt_IZR; lra). lia.
  - intro H. destruct (base_Int_part r) as [Hle Hlow].
    assert (Hr : 0 <= r).
    { destruct (Rlt_dec r 0) as [Hc|Hc]; [apply Rltb_spec in Hc; congruence | lra]. }
    lra.
Qed.

Lemma Rtrunc_pos_shift (r : R) (a : Z) :
  (0 < Rtrunc r)%Z -> (0 < Rtrunc r - a)%Z ->
  Rtrunc (r - IZR a) = (Rtrunc r - a)%Z.
Proof.
  intros Hpos Hshift. destruct (Rtrunc_pos r Hpos) as [_ [Hle Hlt]].
  assert (H1 : 1 <= IZR (Rtrunc r - a)) by (apply IZR_le; lia).
  rewrite minus_IZR in H1.
  apply Rtrunc_nonneg; rewrite ?minus_IZR; lra.
Qed.

Lemma cartesian_cell_offset (w : Z) (res p0 p1 p2 : R) (a b i j : Z) :
  res <> 0 ->
  (0 < i < w)%Z -> (0 < i - a < w)%Z -> (0 < j < w)%Z -> (0 < j - b < w)%Z ->
  (cartesian_cell w res (p0 + IZR a * res, p1 + IZR b * res, p2)
   = Ok (Some (Z.to_nat (i - a), Z.to_nat (j - b)))
   <-> cartesian_cell w res (p0, p1, p2) = Ok (Some (Z.to_nat i, Z.to_nat j))).
Proof.
  intros Hres Hi Hia Hj Hjb.
  rewrite !cartesian_cell_spec by assumption.
  set (c := cart_min_range w res).
  replace ((c - (p0 + IZR a * res)) / res) with ((c - p0) / res - IZR a)
    by (field; assumption).
  replace ((c - (p1 + IZR b * res)) / res) with ((c - p1) / res - IZR b)
    by (field; assumption).
  set (r0 := (c - p0) / res). set (r1 := (c - p1) / res).
  split; intros (Hband & Hu & Hv & Hrow & Hcol).
  - assert (Ev : Rtrunc (r0 - IZR a) = (i - a)%Z) by lia.
    assert (Eu : Rtrunc (r1 - IZR b) = (j - b)%Z) by lia.
    assert (E0 : Rtrunc r0 = i).
    { replace r0 with (r0 - IZR a - IZR (- a)) by (rewrite opp_IZR; ring).
      rewrite Rtrunc_pos_shift; lia. }
    assert (E1 : Rtrunc r1 = j).
    { replace r1 with (r1 - IZR b - IZR (- b)) by (rewrite opp_IZR; ring).
      rewrite Rtrunc_pos_shift; lia. }
    rewrite E0, E1. repeat split; try lra; lia.
  - assert (E0 : Rtrunc r0 = i) by lia.
    assert (E1 : Rtrunc r1 = j) by lia.
    assert (Ev : Rtrunc (r0 - IZR a) = (i - a)%Z)
      by (rewrite Rtrunc_pos_shift; lia).
    assert (Eu : Rtrunc (r1 - IZR b) = (j - b)%Z)
      by (rewrite Rtrunc_pos_shift; lia).
    rewrite Ev, Eu. repeat split; try lra; lia.
Qed.

(** X22: an offset of a whole number of pixels ([x_offset = a * resolution],
    [y_offset = b * resolution]) moves the cartesian lidar image by [a] rows
    and [b] columns towards the origin of the array: away from row 0 and
    column 0 the pixel [(i - a, j - b)] of the image of the offset cloud
    is the pixel [(i, j)] of the image of the cloud as loaded, when both
    lie strictly inside the image. *)
Theorem offset_shifts_cartesian_image :
  forall (x : cloud) (cart_pixel_width : Z) (cart_resolution : R) (a b : Z)
         (img img' : image) (i j : Z),
    cart_resolution <> 0 ->
    lidar_to_cartesian_image x cart_pixel_width cart_resolution = Ok img ->
    lidar_to_cartesian_image
      (offset_cloud (IZR a * cart_resolution) (IZR b * cart_resolution) x)
      cart_pixel_width cart_resolution = Ok img' ->
    (0 < i < cart_pixel_width)%Z -> (0 < i - a < cart_pixel_width)%Z ->
    (0 < j < cart_pixel_width)%Z -> (0 < j - b < cart_pixel_width)%Z ->
    pixel img' (Z.to_nat (i - a)) (Z.to_nat (j - b))
    = pixel img (Z.to_nat i) (Z.to_nat j).
Proof.
  intros x w res a b img img' i j Hres Himg Himg' Hi Hia Hj Hjb.
  destruct (cartesian_image_pixels _ w res img Himg) as [_ [Hlit Hdark]].
  destruct (cartesian_image_pixels _ w res img' Himg') as [_ [Hlit' Hdark']].
  destruct (Classical_Prop.classic
              (exists p, In p x
                         /\ cartesian_cell w res p = Ok (Some (Z.to_nat i, Z.to_nat j))))
    as [Hex|Hnex].
  - rewrite (Hlit _ _ Hex). apply Hlit'.
    destruct Hex as [[[p0 p1] p2] [Hin Hc]].
    exists (p0 + IZR a * res, p1 + IZR b * res, p2). split.
    + unfold offset_cloud. apply in_map_iff. exists (p0, p1, p2).
      split; [reflexivity | assumption].
    + apply cartesian_cell_offset; assumption.
  - rewrite (Hdark _ _ Hnex). apply Hdark'.
    intros [q [Hin Hc]]. apply Hnex.
    unfold offset_cloud in Hin. apply in_map_iff in Hin.
    destruct Hin as [[[p0 p1] p2] [<- Hin]].
    exists (p0, p1, p2). split; [assumption|].
    apply (cartesian_cell_offset w res p0 p1 p2 a b i j); assumption.
Qed.

Lemma offset_shifts_cartesian_image_witness :
  exists img img' : image,
    lidar_to_cartesian_image [(0, 0, 0)] 5 1 = Ok img
    /\ lidar_to_cartesian_image (offset_cloud (IZR 1 * 1) (IZR 0 * 1) [(0, 0, 0)]) 5 1
       = Ok img'
    /\ pixel img' (Z.to_nat (2 - 1)) (Z.to_nat (2 - 0))
       = pixel img (Z.to_nat 2) (Z.to_nat 2).
Proof.
  destruct (lidar_to_cartesian_image_total [(0, 0, 0)] 5 1) as [img [Himg _]];
    [lia | lra |].
  destruct (lidar_to_cartesian_image_total
              (offset_cloud (IZR 1 * 1) (IZR 0 * 1) [(0, 0, 0)]) 5 1)
    as [img' [Himg' _]]; [lia | lra |].
  exists img, img'. split; [assumption|]. split; [assumption|].
  apply (offset_shifts_cartesian_image [(0, 0, 0)] 5 1 1 0 img img' 2 2);
    try assumption; try lia; lra.
Defined.

(** ** The peak of the correlation surface *)

Lemma filter_seq_head (f : nat -> bool) :
  forall (n a j : nat) (r : list nat),
    filter f (seq a n) = j :: r ->
    (a <= j < a + n)%nat /\ f j = true
    /\ forall j', (a <= j' < j)%nat -> f j' = false.
Proof.
  induction n as [|n IH]; intros a j r H; [discriminate|].
  cbn [seq filter] in H. destruct (f a) eqn:Hfa.
  - injection H as <- _. split; [lia|]. split; [assumption|]. intros j' Hj'. lia.
  - destruct (IH _ _ _ H) as [Hj [Hfj Hbefore]].
    split; [lia|]. split; [assumption|]. intros j' Hj'.
    destruct (Nat.eq_dec j' a) as [->|Hne]; [assumption | apply Hbefore; lia].
Qed.

Lemma flat_map_seq_head {A : Type} (g : nat -> list A) :
  forall (n a : nat) (x : A) (r : list A),
    flat_map g (seq a n) = x :: r ->
    exists (i : nat) (r' : list A),
      (a <= i < a + n)%nat /\ g i = x :: r'
      /\ forall i', (a <= i' < i)%nat -> g i' = [].
Proof.
  induction n as [|n IH]; intros a x r H; [discriminate|].
  cbn [seq flat_map] in H. destruct (g a) as [|y l] eqn:Hga.
  - destruct (IH _ _ _ H) as [i [r' [Hi [Hgi Hbefore]]]].
    exists i, r'. split; [lia|]. split; [assumption|]. intros i' Hi'.
    destruct (Nat.eq_dec i' a) as [->|Hne]; [assumption | apply Hbefore; lia].
  - injection H as <- _. exists a, l. split; [lia|]. split; [assumption|].
    intros i' Hi'. lia.
Qed.

Lemma filter_nil_false {A : Type} (f : A -> bool) (l : list A) (x : A) :
  filter f l = [] -> In x l -> f x = false.
Proof.
  intros Hnil Hin. destruct (f x) eqn:Hfx; [|reflexivity].
  assert (H : In x (filter f l)) by (apply filter_In; split; assumption).
  rewrite Hnil in H. contradiction.
Qed.

Lemma np_where_eq_head (p : grid npfloat) (v : npfloat) (i j : nat)
    (r : list (nat * nat)) :
  np_where_eq p v = (i, j) :: r ->
  (i < length p)%nat /\ (j < length (nth i p []))%nat
  /\ npfloat_eqb (at2 NaN p i j) v = true
  /\ forall i' j', (i' < i \/ (i' = i /\ j' < j))%nat ->
                   (i' < length p)%nat -> (j' < length (nth i' p []))%nat ->
                   npfloat_eqb (at2 NaN p i' j') v = false.
Proof.
  unfold np_where_eq. intro H.
  destruct (flat_map_seq_head _ _ _ _ _ H) as [i0 [r' [Hi0 [Hrow Hbefore]]]].
  destruct (filter (fun j0 => npfloat_eqb (at2 NaN p i0 j0) v)
                   (seq 0 (length (nth i0 p [])))) as [|j0 r0] eqn:Hfil;
    [discriminate|].
  cbn [map] in Hrow. injection Hrow as -> -> _.
  destruct (filter_seq_head _ _ _ _ _ Hfil) as [Hj [Hfj Hfirst]].
  split; [lia|]. split; [lia|]. split; [assumption|].
  intros i' j' [Hlt|[-> Hlt]] Hi' Hj'.
  - specialize (Hbefore i' ltac:(lia)).
    apply map_eq_nil in Hbefore.
    apply (filter_nil_false _ _ j' Hbefore). apply in_seq. lia.
  - apply Hfirst. lia.
Qed.

Lemma npfloat_eqb_eq (a b : npfloat) : npfloat_eqb a b = true -> a = b /\ a <> NaN.
Proof.
  destruct a as [x|s|], b as [y|s'|]; simpl; try discriminate; intro H.
  - apply Reqb_spec in H. subst. split; [reflexivity | discriminate].
  - apply eqb_prop in H. subst. split; [reflexivity | discriminate].
Qed.

Lemma npfloat_eqb_refl (a : npfloat) : a <> NaN -> npfloat_eqb a a = true.
Proof.
  destruct a as [x|s|]; simpl; intro H.
  - apply Reqb_true. reflexivity.
  - apply eqb_reflx.
  - contradiction.
Qed.

Lemma fold_maximum_nan (l : list npfloat) : fold_left np_maximum l NaN = NaN.
Proof. induction l as [|e l IH]; [reflexivity | exact IH]. Qed.

Lemma fold_maximum_inf (l : list npfloat) :
  fold_left np_maximum l (Inf false) = Inf false
  \/ fold_left np_maximum l (Inf false) = NaN.
Proof.
  induction l as [|e l IH]; [left; reflexivity|].
  cbn [fold_left]. destruct e as [x|[|]|]; cbn [np_maximum];
    try exact IH. right. apply fold_maximum_nan.
Qed.

Lemma fold_maximum_has_nan (l : list npfloat) (v : npfloat) :
  In NaN (v :: l) -> fold_left np_maximum l v = NaN.
Proof.
  revert v. induction l as [|e l IH]; intros v Hin.
  - destruct Hin as [->|[]]. reflexivity.
  - cbn [fold_left]. apply IH.
    destruct Hin as [->|[->|Hin]].
    + left. reflexivity.
    + left. destruct v as [x|[|]|]; reflexivity.
    + right. assumption.
Qed.

Lemma fold_maximum_finite (l : list npfloat) :
  forall (v : npfloat) (m x : R),
    fold_left np_maximum l v = Finite m -> In (Finite x) (v :: l) -> x <= m.
Proof.
  induction l as [|e l IH]; intros v m x Hfold Hin.
  - cbn [fold_left] in Hfold. destruct Hin as [->|[]]. injection Hfold as ->. lra.
  - cbn [fold_left] in Hfold.
    destruct Hin as [Hv|[He|Hin]];
      [| | apply (IH _ _ _ Hfold); right; assumption].
    + subst v. destruct e as [y|[|]|]; cbn [np_maximum] in Hfold.
      * apply Rle_trans with (Rmax x y); [apply Rmax_l|].
        apply (IH _ _ _ Hfold). left. reflexivity.
      * apply (IH _ _ _ Hfold). left. reflexivity.
      * destruct (fold_maximum_inf l) as [H|H]; rewrite H in Hfold; discriminate.
      * rewrite fold_maximum_nan in Hfold. discriminate.
    + subst e. destruct v as [y|[|]|]; cbn [np_maximum] in Hfold.
      * apply Rle_trans with (Rmax y x); [apply Rmax_r|].
        apply (IH _ _ _ Hfold). left. reflexivity.
      * apply (IH _ _ _ Hfold). left. reflexivity.
      * destruct (fold_maximum_inf l) as [H|H]; rewrite H in Hfold; discriminate.
      * rewrite fold_maximum_nan in Hfold. discriminate.
Qed.

Lemma at2_in_concat {A : Type} (d : A) (p : grid A) (i j : nat) :
  (i < length p)%nat -> (j < length (nth i p []))%nat ->
  In (at2 d p i j) (concat p).
Proof.
  intros Hi Hj. apply in_concat. exists (nth i p []).
  split; [apply nth_In; assumption | unfold at2; apply nth_In; assumption].
Qed.

Lemma np_amax_nan (p : grid npfloat) : In NaN (concat p) -> np_amax p = NaN.
Proof.
  unfold np_amax. destruct (concat p) as [|v l]; [reflexivity|].
  apply fold_maximum_has_nan.
Qed.

Lemma first_peak_bounds (p : grid npfloat) (i j : nat) :
  first_peak p = Ok (i, j) -> (i < length p)%nat /\ (j < length (nth i p []))%nat.
Proof.
  unfold first_peak. intro H.
  destruct (np_where_eq p (np_amax p)) as [|[i0 j0] r] eqn:Hw; [discriminate|].
  injection H as -> ->.
  destruct (np_where_eq_head _ _ _ _ _ Hw) as [Hi [Hj _]]. split; assumption.
Qed.

(** X23: the peak that is read off a surface,
    [np.where(p == np.amax(p))[0][0]] and [[1][0]], is a position of the
    array that holds its maximum, and the first such position in row-major
    order; no entry of the surface is then NaN, and no finite entry exceeds
    a finite maximum. *)
Theorem first_peak_sound :
  forall (p : grid npfloat) (i j : nat),
    first_peak p = Ok (i, j) ->
    (i < length p)%nat /\ (j < length (nth i p []))%nat
    /\ at2 NaN p i j = np_amax p
    /\ ~ In NaN (concat p)
    /\ (forall i' j', (i' < i \/ (i' = i /\ j' < j))%nat ->
                      (i' < length p)%nat -> (j' < length (nth i' p []))%nat ->
                      at2 NaN p i' j' <> np_amax p)
    /\ (forall i' j' v m, (i' < length p)%nat -> (j' < length (nth i' p []))%nat ->
                          at2 NaN p i' j' = Finite v -> np_amax p = Finite m ->
                          v <= m).
Proof.
  intros p i j H. unfold first_peak in H.
  destruct (np_where_eq p (np_amax p)) as [|[i0 j0] r] eqn:Hw; [discriminate|].
  injection H as -> ->.
  destruct (np_where_eq_head _ _ _ _ _ Hw) as [Hi [Hj [Heq Hfirst]]].
  destruct (npfloat_eqb_eq _ _ Heq) as [Hval Hnan].
  split; [assumption|]. split; [assumption|]. split; [assumption|].
  split; [|split].
  - intro Hin. apply np_amax_nan in Hin. congruence.
  - intros i' j' Hlt Hi' Hj' Hsame.
    specialize (Hfirst i' j' Hlt Hi' Hj'). rewrite Hsame in Hfirst.
    rewrite npfloat_eqb_refl in Hfirst by congruence. discriminate.
  - intros i' j' v m Hi' Hj' Hv Hm.
    pose proof (at2_in_concat NaN p i' j' Hi' Hj') as Hin. rewrite Hv in Hin.
    unfold np_amax in Hm. destruct (concat p) as [|v0 l]; [discriminate|].
    apply (fold_maximum_finite l v0 m v Hm Hin).
Qed.

Lemma first_peak_sound_witness :
  first_peak (impulse 2 3 1 2) = Ok (1%nat, 2%nat)
  /\ at2 NaN (impulse 2 3 1 2) 1 2 = np_amax (impulse 2 3 1 2).
Proof.
  assert (H : first_peak (impulse 2 3 1 2) = Ok (1%nat, 2%nat))
    by (apply first_peak_impulse; lia).
  split; [exact H|].
  apply (first_peak_sound (impulse 2 3 1 2) 1 2 H).
Defined.

(** ** The two estimates of a frame *)

Lemma has_shape_np_ifft2 (p : grid npcomplex) (M N : nat) :
  has_shape M N p -> (0 < M)%nat -> has_shape M N (np_ifft2 p).
Proof.
  intros Hshape HM. unfold np_ifft2.
  destruct (forallb (forallb is_cfinite) p).
  - apply has_shape_map.
    rewrite (dft2_tabulate 1 _ M N (has_shape_map cvalue M N p Hshape) HM).
    apply has_shape_tabulate.
  - apply has_shape_map. assumption.
Qed.

Lemma correlation_surface_shape (img1 img2 : image) (p : grid npfloat) :
  correlation_surface img1 img2 = Ok p ->
  (0 < nrows img1)%nat
  /\ (has_shape (nrows img1) (ncols img1) img1 ->
      has_shape (nrows img1) (ncols img1) img2 ->
      has_shape (nrows img1) (ncols img1) p).
Proof.
  unfold correlation_surface.
  destruct (nrows img1 =? 0)%nat eqn:HM; [discriminate|].
  apply Nat.eqb_neq in HM. cbn [orb].
  destruct ((ncols img1 =? 0)%nat
            || negb (nrows img1 =? nrows img2)%nat
            || negb (ncols img1 =? ncols img2)%nat); [discriminate|].
  intro H. injection H as <-. split; [lia|]. intros H1 H2.
  apply has_shape_map. apply has_shape_np_ifft2; [|lia].
  apply has_shape_map. apply has_shape_cross_power; [assumption | assumption | lia].
Qed.

Lemma fold_shift_half (delta : nat) (w : Z) :
  (Z.of_nat delta < w)%Z -> (- w < 2 * fold_shift delta w <= w)%Z.
Proof.
  intro Hlt. destruct (fold_shift_cases delta w) as [Hle Hgt].
  destruct (Rle_dec (INR delta) (IZR w / 2)) as [H|H].
  - rewrite (Hle H). rewrite INR_IZR_INZ in H.
    assert (H' : (2 * Z.of_nat delta <= w)%Z) by (apply le_IZR; rewrite mult_IZR; lra).
    lia.
  - assert (H0 : IZR w / 2 < INR delta) by lra.
    rewrite (Hgt H0). rewrite INR_IZR_INZ in H0.
    assert (H' : (w < 2 * Z.of_nat delta)%Z) by (apply lt_IZR; rewrite mult_IZR; lra).
    lia.
Qed.

(** X24: when the rotation estimate of a frame returns, with the azimuth
    step [2 pi / M] for polar images of [M] rows, the rotation is between 0
    and [pi]: the sign of the yaw is not reported. *)
Theorem estimate_rotation_range :
  forall (polar polar_lidar : image) (M N : nat) (rotation : R),
    has_shape M N polar -> has_shape M N polar_lidar ->
    estimate_rotation polar polar_lidar (2 * PI / INR M) = Ok rotation ->
    0 <= rotation <= PI.
Proof.
  intros polar polar_lidar M N rotation H1 H2 Hrun.
  unfold estimate_rotation in Hrun.
  destruct (correlation_surface polar polar_lidar) as [p|e] eqn:Hp; [|discriminate].
  cbn [bind] in Hrun.
  destruct (first_peak p) as [[i j]|e] eqn:Hpeak; [|discriminate].
  cbn [bind fst] in Hrun. injection Hrun as <-.
  destruct (correlation_surface_shape _ _ _ Hp) as [HM Hshape].
  assert (EM : nrows polar = M) by apply H1.
  rewrite EM in HM, Hshape. rewrite (ncols_shape M N _ H1 HM) in Hshape.
  destruct (Hshape H1 H2) as [Hlen _].
  destruct (first_peak_bounds p i j Hpeak) as [Hi _]. rewrite Hlen in Hi.
  pose proof PI_RGT_0 as Hpi.
  assert (Hn : 0 < INR M) by (apply lt_0_INR; assumption).
  assert (Hi0 : 0 <= INR i) by apply pos_INR.
  assert (HiM : INR i < INR M) by (apply lt_INR; assumption).
  set (q := INR i / INR M).
  assert (Hq : 0 <= q < 1).
  { unfold q. split.
    - apply Rmult_le_pos; [assumption|]. left. apply Rinv_0_lt_compat. assumption.
    - apply Rmult_lt_reg_r with (INR M); [assumption|].
      unfold Rdiv. rewrite Rmult_assoc, Rinv_l by lra. lra. }
  unfold rotation_of_index.
  replace (INR i * (2 * PI / INR M)) with (2 * PI * q) by (unfold q; field; lra).
  destruct (Rle_dec (2 * PI * q) PI) as [Hle|Hgt].
  - rewrite fold_rotation_le by assumption. nra.
  - rewrite fold_rotation_gt by lra. nra.
Qed.

Lemma estimate_rotation_range_witness :
  estimate_rotation one_detection (circular_shift 7 0 one_detection) (2 * PI / INR 10)
  = Ok (rotation_of_index 7 (2 * PI / INR 10))
  /\ 0 <= rotation_of_index 7 (2 * PI / INR 10) <= PI.
Proof.
  assert (H : estimate_rotation one_detection (circular_shift 7 0 one_detection)
                                (2 * PI / INR 10)
              = Ok (rotation_of_index 7 (2 * PI / INR 10))).
  { unfold estimate_rotation.
    rewrite (correlation_surface_shift one_detection 10 10 7 0
               has_shape_one_detection) by (try lia; apply one_detection_spectrum_nonzero).
    cbn [bind]. rewrite first_peak_impulse by lia. reflexivity. }
  split; [exact H|].
  apply (estimate_rotation_range one_detection (circular_shift 7 0 one_detection)
           10 10 _ has_shape_one_detection
           (has_shape_circular_shift one_detection 10 10 7 0
              has_shape_one_detection ltac:(lia) ltac:(lia) ltac:(lia)) H).
Defined.

(** X25: when the translation estimate of a frame returns, for two square
    images of width [cart_width2], each of [delta_x] and [delta_y] is a whole
    number of pixels times the resolution, and that number lies in
    [(- cart_width2 / 2, cart_width2 / 2]]. *)
Theorem estimate_translation_range :
  forall (cart1 cart2 : image) (cart_width2 : Z) (cart_res2 delta_x delta_y : R),
    has_shape (Z.to_nat cart_width2) (Z.to_nat cart_width2) cart1 ->
    has_shape (Z.to_nat cart_width2) (Z.to_nat cart_width2) cart2 ->
    estimate_translation cart1 cart2 cart_width2 cart_res2 = Ok (delta_x, delta_y) ->
    exists a b : Z,
      delta_x = IZR a * cart_res2 /\ delta_y = IZR b * cart_res2
      /\ (- cart_width2 < 2 * a <= cart_width2)%Z
      /\ (- cart_width2 < 2 * b <= cart_width2)%Z.
Proof.
  intros cart1 cart2 w res dx dy H1 H2 Hrun.
  unfold estimate_translation in Hrun.
  destruct (correlation_surface cart1 cart2) as [p|e] eqn:Hp; [|discriminate].
  cbn [bind] in Hrun.
  destruct (first_peak p) as [[i j]|e] eqn:Hpeak; [|discriminate].
  cbn [bind fst snd] in Hrun. injection Hrun as <- <-.
  destruct (correlation_surface_shape _ _ _ Hp) as [HM Hshape].
  assert (EM : nrows cart1 = Z.to_nat w) by apply H1.
  rewrite EM in HM, Hshape. rewrite (ncols_shape _ _ _ H1 HM) in Hshape.
  destruct (Hshape H1 H2) as [Hlen Hrows].
  destruct (first_peak_bounds p i j Hpeak) as [Hi Hj].
  rewrite Hlen in Hi. rewrite Hrows in Hj by assumption.
  exists (fold_shift i w), (fold_shift j w).
  split; [reflexivity|]. split; [reflexivity|].
  split; apply fold_shift_half; lia.
Qed.

Lemma estimate_translation_range_witness :
  estimate_translation one_detection (circular_shift 7 2 one_detection) 10 0.5
  = Ok (IZR (fold_shift 7 10) * 0.5, IZR (fold_shift 2 10) * 0.5)
  /\ exists a b : Z,
      IZR (fold_shift 7 10) * 0.5 = IZR a * 0.5
      /\ IZR (fold_shift 2 10) * 0.5 = IZR b * 0.5
      /\ (- 10 < 2 * a <= 10)%Z /\ (- 10 < 2 * b <= 10)%Z.
Proof.
  assert (H : estimate_translation one_detection (circular_shift 7 2 one_detection)
                                   10 0.5
              = Ok (IZR (fold_shift 7 10) * 0.5, IZR (fold_shift 2 10) * 0.5)).
  { unfold estimate_translation.
    rewrite (correlation_surface_shift one_detection 10 10 7 2
               has_shape_one_detection) by (try lia; apply one_detection_spectrum_nonzero).
    cbn [bind]. rewrite first_peak_impulse by lia. reflexivity. }
  split; [exact H|].
  apply (estimate_translation_range one_detection (circular_shift 7 2 one_detection)
           10 0.5 _ _ has_shape_one_detection
           (has_shape_circular_shift one_detection 10 10 7 2
              has_shape_one_detection ltac:(lia) ltac:(lia) ltac:(lia)) H).
Defined.
